(** * falba: the [compare] and [import] commands of [falba/cli.py]

    A shallow embedding of the two commands of the command line tool
    that carry invariants: the A/B comparison ([compare]) and the
    content-addressed import ([import_result]).

    - Python dictionaries are [gmap]s, Python sets are [gset]s.  The order
      in which Python iterates over a set is not specified; it is a
      parameter [set_order] of the development, constrained only to
      enumerate the set.
    - Exceptions are an explicit result type.  [compare] raises
      [RuntimeError] at four places that differ by their message; each
      raise site is one constructor of [Error], carrying the data that the
      message prints.  Two more constructors are the errors with which
      the query engine ends the grouped aggregation when the experiment
      fact names no column of the table, or names an aggregated column.
    - The class [falba.Db] is not part of the sources at hand.  Its table
      [flat_df] is modelled from the specification; the set of facts that
      the table has a column for is a parameter, [fact_columns].
    - Metric values are floating point numbers in the program.  They are
      idealised as real numbers. *)

From Stdlib Require Import Reals.
From Stdlib.Strings Require Import Byte Ascii.
From stdpp Require Import gmap strings list fin_maps fin_sets.

#[local] Set Warnings "-clear-no-such-hyp,-register-all".

(** ** Results of fallible code *)

Inductive result (E A : Type) : Type :=
  | Ok (a : A)
  | Raise (e : E).
Arguments Ok {E A} a.
Arguments Raise {E A} e.

Definition result_bind {E A B} (f : A → result E B) (m : result E A) : result E B :=
  match m with
  | Ok a => f a
  | Raise e => Raise e
  end.

#[global] Instance result_mbind {E} : MBind (result E) := @result_bind E.
#[global] Instance result_mret {E} : MRet (result E) := @Ok E.

(** ** Data model

    The classes [falba.Fact], [falba.Metric], [falba.Result] and
    [falba.Db] are declared outside [cli.py]; the records keep the
    attributes that [cli.py] reads. *)

(** Modelled from the spec: the class [falba.Fact].  Section 3 gives a fact
    a [value] that is opaque and comparable for equality; [Value] is that
    type of values, with Python's [==] as its equality. *)
Record Fact (Value : Type) : Type := { value : Value }.
Arguments value {Value} _.

(** Modelled from the spec: the class [falba.Metric], a name and a numeric
    value (section 3). *)
Record Metric : Type := { metric_name : string; metric_value : R }.

(** Modelled from the spec: the class [falba.Result].  [cli.py] reads
    [result.facts] (a dictionary from fact name to [Fact]) and
    [result.result_id]; the metrics feed the flattened table. *)
Record Result (Value : Type) : Type := {
  result_id : string;
  facts : gmap string (Fact Value);
  metrics : list Metric;
}.
Arguments result_id {Value} _.
Arguments facts {Value} _.
Arguments metrics {Value} _.

(** A file system path, as its list of components. *)
Abbreviation path := (list string).

(** Modelled from the spec: the class [falba.Db].  [results] is the list
    [db.results.values()], in the order of the dictionary; [root_dir] is
    the database root. *)
Record Db (Value : Type) : Type := {
  root_dir : path;
  results : list (Result Value);
}.
Arguments root_dir {Value} _.
Arguments results {Value} _.

(** Modelled from the spec: one row of [db.flat_df()].  Section 3: the
    flattened view has one row per (result, metric) pair, with the result
    id, the fact values, the metric name and the value.  A fact that the
    result lacks is a null cell, here a key without binding. *)
Record FlatRow (Value : Type) : Type := {
  row_result_id : string;
  row_facts : gmap string Value;
  row_metric : string;
  row_value : R;
}.
Arguments row_result_id {Value} _.
Arguments row_facts {Value} _.
Arguments row_metric {Value} _.
Arguments row_value {Value} _.

(** Modelled from the spec: the names of the fact columns of
    [db.flat_df()].  Section 3 gives a row the fact values of its result;
    which facts the table has a column for is left to [falba.Db], so the
    development is parameterised by it. *)
Class Schema (Value : Type) : Type := {
  fact_columns : Db Value → gset string;
}.
Arguments fact_columns {Value _} _.

Module Compare.

(** The four [raise RuntimeError(...)] sites of [compare], named as the
    specification names them, with the data their messages print; and
    the two errors with which the query engine ends line 81, when the
    table has no column of the name given to [pl.col], and when the key
    column has the name of one of the aggregated columns. *)
Inductive Error (Value : Type) `{Countable Value} : Type :=
  | UnknownFactError (missing_facts : gset string) (available : list string)
  | ConfoundingFactError (fact : string) (vals : gset (option Value))
  | EmptySelectionError
  | NoMatchingMetricError (metric : string) (avail_metrics : list string)
  | ColumnNotFoundError (name : string)
  | DuplicateError (name : string).
Arguments UnknownFactError {Value _ _} missing_facts available.
Arguments ConfoundingFactError {Value _ _} fact vals.
Arguments EmptySelectionError {Value _ _}.
Arguments NoMatchingMetricError {Value _ _} metric avail_metrics.
Arguments ColumnNotFoundError {Value _ _} name.
Arguments DuplicateError {Value _ _} name.

(** A cell of the flattened table: the columns [result_id] and [metric]
    hold strings, the column [value] holds numbers, and the column of a
    fact holds the values of the fact, null where the result lacks it. *)
Inductive Cell (Value : Type) : Type :=
  | StrCell (s : string)
  | NumCell (x : R)
  | FactCell (v : option Value).
Arguments StrCell {Value} s.
Arguments NumCell {Value} x.
Arguments FactCell {Value} v.

#[global] Instance Cell_eq_dec {Value : Type} `{EqDecision Value} : EqDecision (Cell Value).
Proof.
  refine (λ c1 c2,
    match c1, c2 with
    | StrCell s1, StrCell s2 => cast_if (decide (s1 = s2))
    | NumCell x1, NumCell x2 => cast_if (Req_dec_T x1 x2)
    | FactCell v1, FactCell v2 => cast_if (decide (v1 = v2))
    | _, _ => right _
    end); congruence.
Defined.

(** One row of the table that [compare] prints: the cell of the key
    column and the three aggregated columns. *)
Record AggRow (Value : Type) : Type := {
  group_key : Cell Value;
  samples : nat;
  mean : option R;
  std : option R;
}.
Arguments group_key {Value} _.
Arguments samples {Value} _.
Arguments mean {Value} _.
Arguments std {Value} _.

Section compare.
Context {Value : Type} {Value_eq_dec : EqDecision Value} {Value_countable : Countable Value}.
Context {fact_schema : Schema Value}.

(** The order in which Python iterates over a set of strings. *)
Variable set_order : gset string → list string.

(** Modelled from the spec: [db.flat_df()], one row per result and
    metric of that result. *)
Definition flat_df (db : Db Value) : list (FlatRow Value) :=
  result ← results db;
  m ← metrics result;
  [ {| row_result_id := result_id result;
       row_facts := value <$> facts result;
       row_metric := metric_name m;
       row_value := metric_value m |} ].

(** Lines 22-24: the union of the fact names of all results. *)
Definition extant_facts (db : Db Value) : gset string :=
  foldl (λ acc result, acc ∪ dom (facts result)) ∅ (results db).

(** Line 25. *)
Definition missing_facts (db : Db Value) (facts_eq : gmap string Value) : gset string :=
  dom facts_eq ∖ extant_facts db.

(** Lines 33-37: the loop over [facts_eq.items()], with its early
    [return False]. *)
Fixpoint include_items (result : Result Value) (items : list (string * Value)) : bool :=
  match items with
  | [] => true
  | (name, required_val) :: items' =>
      match facts result !! name with
      | Some f =>
          if decide (value f ≠ required_val) then false
          else include_items result items'
      | None => include_items result items'
      end
  end.

Definition include_result (facts_eq : gmap string Value) (result : Result Value) : bool :=
  include_items result (map_to_list facts_eq).

(** Line 39: the results that pass the filter, in database order. *)
Definition selected (db : Db Value) (facts_eq : gmap string Value) : list (Result Value) :=
  filter (λ result, include_result facts_eq result = true) (results db).

(** The value that a fact takes on a result; [None] when the result
    lacks the fact (lines 48-51).  No fact has the value [None]. *)
Definition observed (fact : string) (result : Result Value) : option Value :=
  value <$> facts result !! fact.

(** Lines 46-51: the inner loop that collects [vals]. *)
Definition fact_vals (fact : string) (rs : list (Result Value)) : gset (option Value) :=
  foldl (λ vals result,
           match facts result !! fact with
           | Some f => vals ∪ {[ Some (value f) ]}
           | None => vals ∪ {[ None ]}
           end) ∅ rs.

(** Lines 43-56: the loop over [extant_facts]; [todo] is what is left of
    the iteration. *)
Fixpoint check_facts (facts_eq : gmap string Value) (experiment_fact : string)
    (rs : list (Result Value)) (todo : list string) : result (Error Value) unit :=
  match todo with
  | [] => Ok ()
  | fact :: todo' =>
      if decide (fact = experiment_fact ∨ is_Some (facts_eq !! fact))
      then check_facts facts_eq experiment_fact rs todo'
      else
        let vals := fact_vals fact rs in
        if decide (size vals ≠ 1) then Raise (ConfoundingFactError fact vals)
        else check_facts facts_eq experiment_fact rs todo'
  end.

(** Line 60: the rows of the flattened table whose result id is the id
    of a selected result. *)
Definition results_df (db : Db Value) (rs : list (Result Value)) : list (FlatRow Value) :=
  let ids : gset string := list_to_set (result_id <$> rs) in
  filter (λ row, row_result_id row ∈ ids) (flat_df db).

(** Lines 20-62: the checks that precede the aggregation.  The value is
    [results_df], the rows of the selected results. *)
Definition validate (db : Db Value) (facts_eq : gmap string Value)
    (experiment_fact : string) : result (Error Value) (list (FlatRow Value)) :=
  let extant := extant_facts db in
  let missing := missing_facts db facts_eq in
  if decide (missing ≠ ∅) then Raise (UnknownFactError missing (set_order extant))
  else
    let rs := selected db facts_eq in
    _ ← check_facts facts_eq experiment_fact rs (set_order extant);
    let df := results_df db rs in
    if decide (length df = 0) then Raise EmptySelectionError
    else Ok df.

Definition Rsum (xs : list R) : R := foldr Rplus 0%R xs.

(** [pl.col("value").mean()]: the sum over the count, null on no
    values. *)
Definition pl_mean (xs : list R) : option R :=
  match xs with
  | [] => None
  | _ => Some (Rsum xs / INR (length xs))%R
  end.

(** [pl.col("value").std()]: the square root of the sum of the squared
    deviations from the mean over the count less one, null on fewer
    than two values. *)
Definition pl_std (xs : list R) : option R :=
  if decide (length xs < 2) then None
  else
    let m := (Rsum xs / INR (length xs))%R in
    Some (sqrt (Rsum ((λ x, (x - m) * (x - m))%R <$> xs) / (INR (length xs) - 1)))%R.

(** [group_by]: every row joins the group of its key, a new key opens a
    group. *)
Fixpoint group_insert {K A} `{EqDecision K} (k : K) (a : A)
    (groups : list (K * list A)) : list (K * list A) :=
  match groups with
  | [] => [(k, [a])]
  | (k', g) :: groups' =>
      if decide (k = k') then (k', g ++ [a]) :: groups'
      else (k', g) :: group_insert k a groups'
  end.

Definition group_by {K A} `{EqDecision K} (key : A → K) (df : list A) : list (K * list A) :=
  foldl (λ groups a, group_insert (key a) a groups) [] df.

(** [pl.col(name)] on the flattened table whose fact columns are
    [columns]: the cell of a row in the column of that name, if the
    table has such a column.  The columns [result_id], [metric] and
    [value] are those of lines 60, 64 and 77. *)
Definition pl_col (columns : gset string) (name : string)
    : option (FlatRow Value → Cell Value) :=
  if decide (name = "result_id") then Some (λ row, StrCell (row_result_id row))
  else if decide (name = "metric") then Some (λ row, StrCell (row_metric row))
  else if decide (name = "value") then Some (λ row, NumCell (row_value row))
  else if decide (name ∈ columns) then Some (λ row, FactCell (row_facts row !! name))
  else None.

(** Lines 76-78: the names of the aggregated columns. *)
Definition agg_names : list string := ["samples"; "mean"; "std"].

(** Lines 75-79: the three aggregations of one group. *)
Definition agg (group : Cell Value * list (FlatRow Value)) : AggRow Value :=
  let vs := row_value <$> group.2 in
  {| group_key := group.1;
     samples := length group.2;
     mean := pl_mean vs;
     std := pl_std vs |}.

(** Lines 64-81: the metric filter and the grouped aggregation, on a
    table with the fact columns [columns].  The query of lines 72-80 is
    lazy: it is run by [collect] on line 81, after the test of line 65,
    and ends in an error when the key column does not exist or has the
    name of an aggregated column.  The value is the table that line 81
    prints. *)
Definition aggregate (columns : gset string) (results_df : list (FlatRow Value))
    (metric : string) (experiment_fact : string)
    : result (Error Value) (list (AggRow Value)) :=
  let df := filter (λ row, row_metric row = metric) results_df in
  if decide (length df = 0) then
    let avail_metrics := set_order (list_to_set (row_metric <$> results_df)) in
    Raise (NoMatchingMetricError metric avail_metrics)
  else
    match pl_col columns experiment_fact with
    | None => Raise (ColumnNotFoundError experiment_fact)
    | Some key =>
        if decide (experiment_fact ∈ agg_names) then Raise (DuplicateError experiment_fact)
        else Ok (agg <$> group_by key df)
    end.

(** The function [compare] (lines 14-81). *)
Definition compare (db : Db Value) (facts_eq : gmap string Value)
    (experiment_fact : string) (metric : string) : result (Error Value) (list (AggRow Value)) :=
  df ← validate db facts_eq experiment_fact;
  aggregate (fact_columns db) df metric experiment_fact.

(** *** Facts about the building blocks *)

Lemma elem_of_fold_dom (rs : list (Result Value)) (acc : gset string) (k : string) :
  k ∈ foldl (λ acc result, acc ∪ dom (facts result)) acc rs
  ↔ k ∈ acc ∨ ∃ r, r ∈ rs ∧ is_Some (facts r !! k).
Proof.
  revert acc. induction rs as [|r rs IH]; intros acc; simpl.
  - split; [auto|]. intros [?|(r & Hr & _)]; [done|]. by apply elem_of_nil in Hr.
  - rewrite IH, elem_of_union, elem_of_dom. split.
    + intros [[?|?]|(r' & ? & ?)]; [by left| |].
      * right. exists r. split; [left|done].
      * right. exists r'. split; [by right|done].
    + intros [?|(r' & Hr' & ?)]; [by left; left|].
      apply elem_of_cons in Hr' as [->|?]; [by left; right|].
      right. by exists r'.
Qed.

Lemma elem_of_extant_facts (db : Db Value) (k : string) :
  k ∈ extant_facts db ↔ ∃ r, r ∈ results db ∧ is_Some (facts r !! k).
Proof.
  unfold extant_facts. rewrite elem_of_fold_dom. set_solver.
Qed.

Lemma include_items_true (r : Result Value) (items : list (string * Value)) :
  include_items r items = true
  ↔ ∀ name v, (name, v) ∈ items →
      facts r !! name = None ∨ ∃ f, facts r !! name = Some f ∧ value f = v.
Proof.
  induction items as [|[name v] items IH]; simpl.
  - split; [|done]. intros _ ? ? Hin. by apply elem_of_nil in Hin.
  - destruct (facts r !! name) as [f|] eqn:Hf.
    + destruct (decide (value f ≠ v)) as [Hne|Heq].
      * split; [done|]. intros Hall.
        destruct (Hall name v) as [?|(f' & ? & ?)]; [by left|congruence|].
        congruence.
      * apply dec_stable in Heq. rewrite IH. split.
        -- intros Hall name' v' Hin. apply elem_of_cons in Hin as [[= -> ->]|?].
           ++ right. by exists f.
           ++ by apply Hall.
        -- intros Hall name' v' Hin. apply Hall. by right.
    + rewrite IH. split.
      * intros Hall name' v' Hin. apply elem_of_cons in Hin as [[= -> ->]|?].
        -- by left.
        -- by apply Hall.
      * intros Hall name' v' Hin. apply Hall. by right.
Qed.

Lemma include_result_true (facts_eq : gmap string Value) (r : Result Value) :
  include_result facts_eq r = true
  ↔ ∀ name required_val, facts_eq !! name = Some required_val →
      facts r !! name = None
      ∨ ∃ f, facts r !! name = Some f ∧ value f = required_val.
Proof.
  unfold include_result. rewrite include_items_true.
  split; intros Hall name v Hin; apply Hall; by apply elem_of_map_to_list.
Qed.

Lemma elem_of_selected (db : Db Value) (facts_eq : gmap string Value) (r : Result Value) :
  r ∈ selected db facts_eq ↔ r ∈ results db ∧ include_result facts_eq r = true.
Proof.
  unfold selected. rewrite list_elem_of_filter. tauto.
Qed.

Lemma elem_of_fold_vals (fact : string) (rs : list (Result Value))
    (acc : gset (option Value)) (v : option Value) :
  v ∈ foldl (λ vals result,
               match facts result !! fact with
               | Some f => vals ∪ {[ Some (value f) ]}
               | None => vals ∪ {[ None ]}
               end) acc rs
  ↔ v ∈ acc ∨ ∃ r, r ∈ rs ∧ observed fact r = v.
Proof.
  revert acc. induction rs as [|r rs IH]; intros acc; simpl.
  - split; [auto|]. intros [?|(r & Hr & _)]; [done|]. by apply elem_of_nil in Hr.
  - rewrite IH. unfold observed at 2.
    assert (v ∈ (match facts r !! fact with
                 | Some f => acc ∪ {[ Some (value f) ]}
                 | None => acc ∪ {[ None ]}
                 end) ↔ v ∈ acc ∨ observed fact r = v) as ->.
    { unfold observed. destruct (facts r !! fact); simpl; set_solver. }
    split.
    + intros [[?|?]|(r' & ? & ?)]; [by left| |].
      * right. exists r. split; [left|done].
      * right. exists r'. split; [by right|done].
    + intros [?|(r' & Hr' & ?)]; [by left; left|].
      apply elem_of_cons in Hr' as [->|?]; [by left; right|].
      right. by exists r'.
Qed.

Lemma elem_of_fact_vals (fact : string) (rs : list (Result Value)) (v : option Value) :
  v ∈ fact_vals fact rs ↔ ∃ r, r ∈ rs ∧ observed fact r = v.
Proof.
  unfold fact_vals. rewrite elem_of_fold_vals. set_solver.
Qed.

(** On a selection that is not empty, [len(vals) != 1] says that two
    results differ on the fact. *)
Lemma fact_vals_size (fact : string) (rs : list (Result Value)) :
  rs ≠ [] →
  size (fact_vals fact rs) ≠ 1
  ↔ ∃ r1 r2, r1 ∈ rs ∧ r2 ∈ rs ∧ observed fact r1 ≠ observed fact r2.
Proof.
  intros Hne. split.
  - intros Hsize. destruct rs as [|r0 rs]; [done|].
    destruct (decide (Forall (λ r, observed fact r = observed fact r0) (r0 :: rs)))
      as [Hall|Hex].
    + exfalso. apply Hsize.
      assert (fact_vals fact (r0 :: rs) = {[ observed fact r0 ]}) as ->.
      { apply set_eq. intros v. rewrite elem_of_fact_vals, elem_of_singleton.
        rewrite Forall_forall in Hall. split.
        - intros (r & Hr & <-). by apply Hall.
        - intros ->. exists r0. split; [left|done]. }
      apply size_singleton.
    + apply not_Forall_Exists in Hex; [|intros ?; apply _].
      apply Exists_exists in Hex as (r & Hr & Hdiff).
      exists r, r0. split; [done|]. split; [left|done].
  - intros (r1 & r2 & H1 & H2 & Hdiff) Hsize. apply Hdiff.
    eapply (size_singleton_inv (fact_vals fact rs)); [done| |];
      apply elem_of_fact_vals; eauto.
Qed.

Lemma fact_vals_nil (fact : string) : fact_vals fact [] = ∅.
Proof. done. Qed.

(** What the loop over the fact names raises, and when it passes. *)
Lemma check_facts_raise (facts_eq : gmap string Value) (experiment_fact : string)
    (rs : list (Result Value)) (todo : list string) (e : Error Value) :
  check_facts facts_eq experiment_fact rs todo = Raise e →
  ∃ fact, fact ∈ todo ∧ fact ≠ experiment_fact ∧ facts_eq !! fact = None
          ∧ size (fact_vals fact rs) ≠ 1
          ∧ e = ConfoundingFactError fact (fact_vals fact rs).
Proof.
  induction todo as [|fact todo IH]; simpl; [done|].
  destruct (decide (fact = experiment_fact ∨ is_Some (facts_eq !! fact))) as [Hskip|Hchk].
  - intros Hr. destruct (IH Hr) as (f & ? & ?). exists f. split; [by right|done].
  - destruct (decide (size (fact_vals fact rs) ≠ 1)) as [Hsz|Hsz].
    + intros [= <-]. exists fact. split; [left|].
      split; [tauto|]. split; [|done].
      apply eq_None_not_Some. tauto.
    + intros Hr. destruct (IH Hr) as (f & ? & ?). exists f. split; [by right|done].
Qed.

Lemma check_facts_ok (facts_eq : gmap string Value) (experiment_fact : string)
    (rs : list (Result Value)) (todo : list string) :
  check_facts facts_eq experiment_fact rs todo = Ok ()
  ↔ ∀ fact, fact ∈ todo → fact ≠ experiment_fact → facts_eq !! fact = None →
      size (fact_vals fact rs) = 1.
Proof.
  induction todo as [|fact todo IH]; simpl.
  - split; [|done]. intros _ ? Hin. by apply elem_of_nil in Hin.
  - destruct (decide (fact = experiment_fact ∨ is_Some (facts_eq !! fact))) as [Hskip|Hchk].
    + rewrite IH. split.
      * intros Hall f Hin Hne Hnone. apply elem_of_cons in Hin as [->|?]; [|by apply Hall].
        destruct Hskip as [?|Hsome]; [done|]. rewrite Hnone in Hsome. by destruct Hsome.
      * intros Hall f Hin. apply Hall. by right.
    + destruct (decide (size (fact_vals fact rs) ≠ 1)) as [Hsz|Hsz].
      * split; [done|]. intros Hall. exfalso. apply Hsz, Hall; [left|tauto|].
        apply eq_None_not_Some. tauto.
      * apply dec_stable in Hsz. rewrite IH. split.
        -- intros Hall f Hin. apply elem_of_cons in Hin as [->|?]; [done|by apply Hall].
        -- intros Hall f Hin. apply Hall. by right.
Qed.

Lemma check_facts_cases (facts_eq : gmap string Value) (experiment_fact : string)
    (rs : list (Result Value)) (todo : list string) :
  check_facts facts_eq experiment_fact rs todo = Ok ()
  ∨ ∃ e, check_facts facts_eq experiment_fact rs todo = Raise e.
Proof.
  destruct (check_facts facts_eq experiment_fact rs todo) as [[]|e]; eauto.
Qed.

(** [group_by]: the groups of a table partition it by key. *)
Definition grouping {K A} `{EqDecision K} (key : A → K) (l : list A)
    (groups : list (K * list A)) : Prop :=
  NoDup (groups.*1)
  ∧ (∀ k g, (k, g) ∈ groups → g = filter (λ a, key a = k) l ∧ g ≠ [])
  ∧ (∀ a, a ∈ l → key a ∈ groups.*1).

Lemma group_insert_keys {K A} `{EqDecision K} (k : K) (a : A) (groups : list (K * list A)) (k' : K) :
  k' ∈ (group_insert k a groups).*1 ↔ k' = k ∨ k' ∈ groups.*1.
Proof.
  induction groups as [|[k0 g0] groups IH]; simpl.
  - rewrite list_elem_of_singleton. split; [auto|]. intros [?|Hin]; [done|].
    by apply elem_of_nil in Hin.
  - destruct (decide (k = k0)) as [->|Hne]; simpl.
    + rewrite elem_of_cons. tauto.
    + rewrite !elem_of_cons, IH. tauto.
Qed.

Lemma group_insert_elem {K A} `{EqDecision K} (k : K) (a : A) (groups : list (K * list A))
    (k' : K) (g' : list A) :
  NoDup (groups.*1) →
  (k', g') ∈ group_insert k a groups
  ↔ (k' ≠ k ∧ (k', g') ∈ groups)
    ∨ (k' = k ∧ ∃ g, (k, g) ∈ groups ∧ g' = g ++ [a])
    ∨ (k' = k ∧ (k ∉ groups.*1) ∧ g' = [a]).
Proof.
  induction groups as [|[k0 g0] groups IH]; simpl; intros Hnd.
  - rewrite list_elem_of_singleton. split.
    + intros [= -> ->]. right; right. split; [done|]. split; [|done]. apply not_elem_of_nil.
    + intros [[_ Hin]|[(_ & g & Hin & _)|(-> & _ & ->)]]; [| |done];
        by apply elem_of_nil in Hin.
  - apply NoDup_cons in Hnd as [Hk0 Hnd]. specialize (IH Hnd).
    destruct (decide (k = k0)) as [->|Hne]; simpl.
    + rewrite elem_of_cons. split.
      * intros [[= -> ->]|Hin].
        -- right; left. split; [done|]. exists g0. split; [left|done].
        -- left. split; [|by right]. intros ->. apply Hk0.
           apply list_elem_of_fmap. by exists (k0, g').
      * intros [[Hne Hin]|[(-> & g & Hin & ->)|(-> & Hnin & _)]].
        -- apply elem_of_cons in Hin as [[= ? ?]|?]; [done|by right].
        -- apply elem_of_cons in Hin as [[= ->]|Hin]; [by left|].
           exfalso. apply Hk0. apply list_elem_of_fmap. by exists (k0, g).
        -- exfalso. apply Hnin. rewrite elem_of_cons. by left.
    + rewrite elem_of_cons, IH. split.
      * intros [[= -> ->]|[[? ?]|[(-> & g & ? & ->)|(-> & ? & ->)]]].
        -- left. split; [congruence|by left].
        -- left. split; [done|by right].
        -- right; left. split; [done|]. exists g. split; [by right|done].
        -- right; right. split; [done|]. split; [|done].
           rewrite elem_of_cons. intros [?|?]; done.
      * intros [[? Hin]|[(-> & g & Hin & ->)|(-> & Hnin & ->)]].
        -- apply elem_of_cons in Hin as [?|?]; [by left|]. right; left. done.
        -- apply elem_of_cons in Hin as [[= ? ?]|Hin]; [done|].
           right; right; left. split; [done|]. by exists g.
        -- right; right; right. split; [done|]. split; [|done].
           intros Hin. apply Hnin. by right.
Qed.

Lemma group_insert_NoDup {K A} `{EqDecision K} (k : K) (a : A) (groups : list (K * list A)) :
  NoDup (groups.*1) → NoDup ((group_insert k a groups).*1).
Proof.
  induction groups as [|[k0 g0] groups IH]; simpl; intros Hnd.
  - apply NoDup_singleton.
  - apply NoDup_cons in Hnd as [Hk0 Hnd].
    destruct (decide (k = k0)) as [->|Hne]; simpl.
    + by apply NoDup_cons.
    + apply NoDup_cons. split; [|by apply IH].
      rewrite group_insert_keys. intros [?|?]; done.
Qed.

Lemma grouping_snoc {K A} `{EqDecision K} (key : A → K) (l : list A) (a : A)
    (groups : list (K * list A)) :
  grouping key l groups → grouping key (l ++ [a]) (group_insert (key a) a groups).
Proof.
  intros (Hnd & Hgroups & Hkeys). split; [by apply group_insert_NoDup|]. split.
  - intros k g Hin. apply group_insert_elem in Hin; [|done].
    rewrite filter_app, filter_cons, filter_nil.
    destruct Hin as [[Hne Hin]|[(-> & g0 & Hin & ->)|(-> & Hnin & ->)]].
    + destruct (Hgroups k g Hin) as [-> Hnil].
      rewrite decide_False by done. by rewrite app_nil_r.
    + destruct (Hgroups _ _ Hin) as [-> Hnil].
      rewrite decide_True by done. split; [done|]. by intros [? _]%app_eq_nil.
    + rewrite decide_True by done. split; [|done].
      assert (filter (λ a0, key a0 = key a) l = []) as ->; [|done].
      destruct (filter (λ a0, key a0 = key a) l) as [|a0 l0] eqn:Hf; [done|].
      assert (a0 ∈ filter (λ a0, key a0 = key a) l) as [Heq Ha0]%list_elem_of_filter
        by (rewrite Hf; left).
      exfalso. apply Hnin. rewrite <-Heq. by apply Hkeys.
  - intros a0 Ha0. rewrite group_insert_keys.
    apply elem_of_app in Ha0 as [?|Ha0]; [right; by apply Hkeys|].
    apply list_elem_of_singleton in Ha0 as ->. by left.
Qed.

Lemma group_by_grouping {K A} `{EqDecision K} (key : A → K) (l : list A) :
  grouping key l (group_by key l).
Proof.
  unfold group_by. induction l as [|a l IH] using rev_ind.
  - split; [apply NoDup_nil_2|].
    split; [intros ? ? Hin|intros ? Hin]; by apply elem_of_nil in Hin.
  - rewrite foldl_app. simpl. by apply grouping_snoc.
Qed.

(** *** The checks of [validate], one at a time *)

Lemma elem_of_missing_facts (db : Db Value) (facts_eq : gmap string Value) (name : string) :
  name ∈ missing_facts db facts_eq
  ↔ is_Some (facts_eq !! name) ∧ ¬ ∃ r, r ∈ results db ∧ is_Some (facts r !! name).
Proof.
  unfold missing_facts.
  by rewrite elem_of_difference, elem_of_dom, elem_of_extant_facts.
Qed.

Lemma validate_missing (db : Db Value) (facts_eq : gmap string Value) (experiment_fact : string) :
  missing_facts db facts_eq ≠ ∅ →
  validate db facts_eq experiment_fact
  = Raise (UnknownFactError (missing_facts db facts_eq) (set_order (extant_facts db))).
Proof. intros Hne. unfold validate. by rewrite decide_True. Qed.

Lemma validate_confounding (db : Db Value) (facts_eq : gmap string Value)
    (experiment_fact : string) (e : Error Value) :
  missing_facts db facts_eq = ∅ →
  check_facts facts_eq experiment_fact (selected db facts_eq) (set_order (extant_facts db))
  = Raise e →
  validate db facts_eq experiment_fact = Raise e.
Proof.
  intros Hnone Hchk. unfold validate.
  rewrite decide_False by (by intros ?). by rewrite Hchk.
Qed.

Lemma validate_checked (db : Db Value) (facts_eq : gmap string Value) (experiment_fact : string) :
  missing_facts db facts_eq = ∅ →
  check_facts facts_eq experiment_fact (selected db facts_eq) (set_order (extant_facts db))
  = Ok () →
  validate db facts_eq experiment_fact
  = if decide (length (results_df db (selected db facts_eq)) = 0)
    then Raise EmptySelectionError
    else Ok (results_df db (selected db facts_eq)).
Proof.
  intros Hnone Hchk. unfold validate.
  rewrite decide_False by (by intros ?). by rewrite Hchk.
Qed.

(** Every outcome of [validate] is one of the four above. *)
Lemma validate_inv (db : Db Value) (facts_eq : gmap string Value) (experiment_fact : string)
    (o : result (Error Value) (list (FlatRow Value))) :
  validate db facts_eq experiment_fact = o →
  (missing_facts db facts_eq ≠ ∅
   ∧ o = Raise (UnknownFactError (missing_facts db facts_eq) (set_order (extant_facts db))))
  ∨ (missing_facts db facts_eq = ∅
     ∧ ∃ fact, fact ∈ set_order (extant_facts db) ∧ fact ≠ experiment_fact
               ∧ facts_eq !! fact = None
               ∧ size (fact_vals fact (selected db facts_eq)) ≠ 1
               ∧ o = Raise (ConfoundingFactError fact (fact_vals fact (selected db facts_eq))))
  ∨ (missing_facts db facts_eq = ∅
     ∧ check_facts facts_eq experiment_fact (selected db facts_eq)
         (set_order (extant_facts db)) = Ok ()
     ∧ results_df db (selected db facts_eq) = []
     ∧ o = Raise EmptySelectionError)
  ∨ (missing_facts db facts_eq = ∅
     ∧ check_facts facts_eq experiment_fact (selected db facts_eq)
         (set_order (extant_facts db)) = Ok ()
     ∧ results_df db (selected db facts_eq) ≠ []
     ∧ o = Ok (results_df db (selected db facts_eq))).
Proof.
  intros <-. destruct (decide (missing_facts db facts_eq = ∅)) as [Hnone|Hsome].
  - right.
    destruct (check_facts_cases facts_eq experiment_fact (selected db facts_eq)
                (set_order (extant_facts db))) as [Hok|[e He]].
    + right. rewrite (validate_checked _ _ _ Hnone Hok).
      destruct (decide (length (results_df db (selected db facts_eq)) = 0)) as [Hlen|Hlen].
      * left. by apply nil_length_inv in Hlen.
      * right. repeat split; try done. intros Hnil. by rewrite Hnil in Hlen.
    + left. rewrite (validate_confounding _ _ _ _ Hnone He). split; [done|].
      apply check_facts_raise in He as (fact & ? & ? & ? & ? & ->). by exists fact.
  - left. split; [done|]. by apply validate_missing.
Qed.

(** From here on the iteration order of a set enumerates the set. *)
Hypothesis set_order_elements : ∀ X : gset string, set_order X ≡ₚ elements X.

Lemma elem_of_set_order (X : gset string) (x : string) : x ∈ set_order X ↔ x ∈ X.
Proof. by rewrite set_order_elements, elem_of_elements. Qed.

Lemma NoDup_set_order (X : gset string) : NoDup (set_order X).
Proof. rewrite set_order_elements. apply NoDup_elements. Qed.

(** *** The filter *)

(** C3.  The filter keeps a result of the database exactly when, for
    every pair (name, required value) of [facts_eq], the result lacks
    the fact or carries it with the required value.  A result that
    lacks a constrained fact is kept. *)
Theorem filter_includes_iff (db : Db Value) (facts_eq : gmap string Value) (r : Result Value) :
  (r ∈ selected db facts_eq
   ↔ r ∈ results db
     ∧ ∀ name required_val, facts_eq !! name = Some required_val →
         facts r !! name = None
         ∨ ∃ f, facts r !! name = Some f ∧ value f = required_val)
  ∧ (r ∈ results db →
     (∀ name, is_Some (facts_eq !! name) → facts r !! name = None) →
     r ∈ selected db facts_eq).
Proof.
  split.
  - by rewrite elem_of_selected, include_result_true.
  - intros Hr Hlacks. apply elem_of_selected. split; [done|].
    apply include_result_true. intros name v Hv. left. apply Hlacks. by exists v.
Qed.

(** *** Unknown facts *)

(** C4.  [validate] raises the unknown-fact error exactly when some key
    of [facts_eq] is a fact of no result of the whole database.  The
    error carries exactly the missing names, and the list of all fact
    names of the database. *)
Theorem unknown_fact_error_iff (db : Db Value) (facts_eq : gmap string Value)
    (experiment_fact : string) :
  ((∃ missing available,
      validate db facts_eq experiment_fact = Raise (UnknownFactError missing available))
   ↔ ∃ name, is_Some (facts_eq !! name)
             ∧ ¬ ∃ r, r ∈ results db ∧ is_Some (facts r !! name))
  ∧ ∀ missing available,
      validate db facts_eq experiment_fact = Raise (UnknownFactError missing available) →
      (∀ name, name ∈ missing
               ↔ is_Some (facts_eq !! name)
                 ∧ ¬ ∃ r, r ∈ results db ∧ is_Some (facts r !! name))
      ∧ (∀ name, name ∈ available ↔ ∃ r, r ∈ results db ∧ is_Some (facts r !! name))
      ∧ NoDup available.
Proof.
  split; [split|].
  - intros (missing & available & Hv).
    apply validate_inv in Hv as [[Hne _]|[(_ & ? & _ & _ & _ & _ & ?)|[(_&_&_&?)|(_&_&_&?)]]];
      try done.
    apply set_choose_L in Hne as [name Hname]. exists name.
    by apply elem_of_missing_facts.
  - intros (name & Hname). exists (missing_facts db facts_eq), (set_order (extant_facts db)).
    apply validate_missing. intros Hempty.
    apply elem_of_missing_facts in Hname. rewrite Hempty in Hname.
    by apply not_elem_of_empty in Hname.
  - intros missing available Hv.
    apply validate_inv in Hv as [[Hne Heq]|[(_ & ? & _ & _ & _ & _ & ?)|[(_&_&_&?)|(_&_&_&?)]]];
      try done.
    injection Heq as -> ->. split; [|split].
    + intros name. apply elem_of_missing_facts.
    + intros name. by rewrite elem_of_set_order, elem_of_extant_facts.
    + apply NoDup_set_order.
Qed.

(** *** Confounding facts *)

Lemma results_df_nil (db : Db Value) : results_df db [] = [].
Proof.
  unfold results_df. simpl. induction (flat_df db) as [|row rows IH]; [done|].
  rewrite filter_cons, IH. by rewrite decide_False by apply not_elem_of_empty.
Qed.

Lemma missing_facts_empty (db : Db Value) (facts_eq : gmap string Value) :
  missing_facts db facts_eq = ∅
  ↔ ∀ name, is_Some (facts_eq !! name) → ∃ r, r ∈ results db ∧ is_Some (facts r !! name).
Proof.
  split.
  - intros Hempty name Hname.
    destruct (decide (name ∈ extant_facts db)) as [Hin|Hnin]; [by apply elem_of_extant_facts|].
    exfalso. apply (not_elem_of_empty (C:=gset string) name). rewrite <-Hempty.
    apply elem_of_missing_facts. split; [done|]. by rewrite <-elem_of_extant_facts.
  - intros Hall. apply set_eq. intros name. rewrite elem_of_missing_facts. split.
    + intros [Hname Hnot]. exfalso. by apply Hnot, Hall.
    + intros Hin. by apply not_elem_of_empty in Hin.
Qed.

(** C1, amended.  When every key of [facts_eq] is a fact of the database
    and the filtered list of results is not empty, [validate] raises the
    confounding-fact error exactly when a fact of the database, other
    than the experiment fact and the keys of [facts_eq], takes two
    distinct values on two filtered results, absence counting as a
    value of its own.  The error names such a fact and carries the set
    of the values observed for it. *)
Theorem confounding_fact_error_iff (db : Db Value) (facts_eq : gmap string Value)
    (experiment_fact : string) :
  (∀ name, is_Some (facts_eq !! name) → ∃ r, r ∈ results db ∧ is_Some (facts r !! name)) →
  selected db facts_eq ≠ [] →
  ((∃ fact vals,
      validate db facts_eq experiment_fact = Raise (ConfoundingFactError fact vals))
   ↔ ∃ fact r1 r2,
       (∃ r, r ∈ results db ∧ is_Some (facts r !! fact))
       ∧ fact ≠ experiment_fact ∧ facts_eq !! fact = None
       ∧ r1 ∈ selected db facts_eq ∧ r2 ∈ selected db facts_eq
       ∧ observed fact r1 ≠ observed fact r2)
  ∧ ∀ fact vals,
      validate db facts_eq experiment_fact = Raise (ConfoundingFactError fact vals) →
      (∃ r, r ∈ results db ∧ is_Some (facts r !! fact))
      ∧ fact ≠ experiment_fact ∧ facts_eq !! fact = None
      ∧ (∀ v, v ∈ vals ↔ ∃ r, r ∈ selected db facts_eq ∧ observed fact r = v)
      ∧ ∃ r1 r2, r1 ∈ selected db facts_eq ∧ r2 ∈ selected db facts_eq
                 ∧ observed fact r1 ≠ observed fact r2.
Proof.
  intros Hknown Hsel. apply missing_facts_empty in Hknown.
  assert (∀ fact vals,
    validate db facts_eq experiment_fact = Raise (ConfoundingFactError fact vals) →
    (∃ r, r ∈ results db ∧ is_Some (facts r !! fact))
    ∧ fact ≠ experiment_fact ∧ facts_eq !! fact = None
    ∧ (∀ v, v ∈ vals ↔ ∃ r, r ∈ selected db facts_eq ∧ observed fact r = v)
    ∧ ∃ r1 r2, r1 ∈ selected db facts_eq ∧ r2 ∈ selected db facts_eq
               ∧ observed fact r1 ≠ observed fact r2) as Hdata.
  { intros fact vals Hv.
    apply validate_inv in Hv
      as [[_ ?]|[(_ & f & Hin & Hne & Hnone & Hsz & Heq)|[(_&_&_&?)|(_&_&_&?)]]]; try done.
    injection Heq as -> ->.
    split; [by apply elem_of_extant_facts, elem_of_set_order|].
    split; [done|]. split; [done|]. split; [intros v; apply elem_of_fact_vals|].
    by apply fact_vals_size in Hsz. }
  split; [split|done].
  - intros (fact & vals & Hv). destruct (Hdata _ _ Hv) as (? & ? & ? & _ & r1 & r2 & ?).
    by exists fact, r1, r2.
  - intros (fact & r1 & r2 & Hext & Hne & Hnone & H1 & H2 & Hdiff).
    destruct (check_facts_cases facts_eq experiment_fact (selected db facts_eq)
                (set_order (extant_facts db))) as [Hok|[e He]].
    + exfalso. rewrite check_facts_ok in Hok.
      assert (size (fact_vals fact (selected db facts_eq)) ≠ 1) as Hsz
        by (apply fact_vals_size; [done|by exists r1, r2]).
      apply Hsz, Hok; [|done..].
      by apply elem_of_set_order, elem_of_extant_facts.
    + rewrite (validate_confounding _ _ _ _ Hknown He).
      apply check_facts_raise in He as (f & _ & _ & _ & _ & ->). eauto.
Qed.

(** An empty selection with a fact left to check ends in the
    confounding-fact error, on an empty set of values. *)
Lemma empty_selection_confounded (db : Db Value) (facts_eq : gmap string Value)
    (experiment_fact : string) :
  missing_facts db facts_eq = ∅ →
  selected db facts_eq = [] →
  (∃ fact, fact ∈ extant_facts db ∧ fact ≠ experiment_fact ∧ facts_eq !! fact = None) →
  ∃ fact, validate db facts_eq experiment_fact = Raise (ConfoundingFactError fact ∅).
Proof.
  intros Hknown Hsel (fact & Hin & Hne & Hnone).
  destruct (check_facts_cases facts_eq experiment_fact (selected db facts_eq)
              (set_order (extant_facts db))) as [Hok|[e He]].
  - rewrite check_facts_ok in Hok.
    specialize (Hok fact (proj2 (elem_of_set_order _ _) Hin) Hne Hnone).
    rewrite Hsel, fact_vals_nil, size_empty in Hok. done.
  - rewrite (validate_confounding _ _ _ _ Hknown He).
    apply check_facts_raise in He as (f & _ & _ & _ & _ & ->).
    exists f. by rewrite Hsel, fact_vals_nil.
Qed.

(** *** The experiment fact *)

(** C9.  The experiment fact is never looked up among the facts of the
    database: when it occurs on no result, the keys of [facts_eq] all
    exist, the filtered results agree on every fact outside [facts_eq]
    and some filtered result has a row, [validate] passes with the rows
    of the filtered results. *)
Theorem experiment_fact_not_checked (db : Db Value) (facts_eq : gmap string Value)
    (experiment_fact : string) :
  (¬ ∃ r, r ∈ results db ∧ is_Some (facts r !! experiment_fact)) →
  (∀ name, is_Some (facts_eq !! name) → ∃ r, r ∈ results db ∧ is_Some (facts r !! name)) →
  (∀ fact r1 r2, facts_eq !! fact = None →
     r1 ∈ selected db facts_eq → r2 ∈ selected db facts_eq →
     observed fact r1 = observed fact r2) →
  results_df db (selected db facts_eq) ≠ [] →
  validate db facts_eq experiment_fact = Ok (results_df db (selected db facts_eq)).
Proof.
  intros _ Hknown Hagree Hrows. apply missing_facts_empty in Hknown.
  assert (selected db facts_eq ≠ []) as Hsel.
  { intros Hnil. apply Hrows. rewrite Hnil. apply results_df_nil. }
  rewrite validate_checked; [|done|].
  - rewrite decide_False; [done|]. intros Hlen. by apply nil_length_inv in Hlen.
  - apply check_facts_ok. intros fact _ _ Hnone.
    destruct (decide (size (fact_vals fact (selected db facts_eq)) = 1)) as [|Hsz]; [done|].
    apply fact_vals_size in Hsz as (r1 & r2 & ? & ? & Hdiff); [|done].
    exfalso. by apply Hdiff, Hagree.
Qed.

(** *** The aggregation *)

Lemma compare_validated (db : Db Value) (facts_eq : gmap string Value)
    (experiment_fact metric : string) (rows : list (FlatRow Value)) :
  validate db facts_eq experiment_fact = Ok rows →
  rows = results_df db (selected db facts_eq)
  ∧ rows ≠ []
  ∧ compare db facts_eq experiment_fact metric
    = aggregate (fact_columns db) rows metric experiment_fact.
Proof.
  intros Hv. unfold compare. rewrite Hv. simpl.
  apply validate_inv in Hv as [[_ ?]|[(_ & ? & _ & _ & _ & _ & ?)|[(_&_&_&?)|(_&_&Hne&Heq)]]];
    try done.
  injection Heq as ->. done.
Qed.

Lemma aggregate_no_match (columns : gset string) (rows : list (FlatRow Value))
    (metric experiment_fact : string) :
  filter (λ row, row_metric row = metric) rows = [] →
  aggregate columns rows metric experiment_fact
  = Raise (NoMatchingMetricError metric (set_order (list_to_set (row_metric <$> rows)))).
Proof. intros Hnil. unfold aggregate. by rewrite Hnil. Qed.

Lemma aggregate_match (columns : gset string) (rows : list (FlatRow Value))
    (metric experiment_fact : string) :
  filter (λ row, row_metric row = metric) rows ≠ [] →
  aggregate columns rows metric experiment_fact
  = match pl_col columns experiment_fact with
    | None => Raise (ColumnNotFoundError experiment_fact)
    | Some key =>
        if decide (experiment_fact ∈ agg_names) then Raise (DuplicateError experiment_fact)
        else Ok (agg <$> group_by key (filter (λ row, row_metric row = metric) rows))
    end.
Proof.
  intros Hne. unfold aggregate. rewrite decide_False; [done|].
  intros Hlen. by apply nil_length_inv in Hlen.
Qed.

(** The columns that [pl.col] finds. *)
Lemma pl_col_fact (columns : gset string) (name : string) :
  name ∉ ["result_id"; "metric"; "value"] → name ∈ columns →
  pl_col columns name = Some (λ row, FactCell (row_facts row !! name)).
Proof.
  intros Hfixed Hcol. unfold pl_col.
  rewrite decide_False by (intros ->; apply Hfixed; left).
  rewrite decide_False by (intros ->; apply Hfixed; right; left).
  rewrite decide_False by (intros ->; apply Hfixed; right; right; left).
  by rewrite decide_True.
Qed.

Lemma pl_col_None (columns : gset string) (name : string) :
  pl_col columns name = None
  ↔ (name ∉ ["result_id"; "metric"; "value"]) ∧ (name ∉ columns).
Proof.
  unfold pl_col. repeat case_decide; subst; split; try done.
  - intros [Hfixed _]. exfalso. apply Hfixed. left.
  - intros [Hfixed _]. exfalso. apply Hfixed. right; left.
  - intros [Hfixed _]. exfalso. apply Hfixed. right; right; left.
  - by intros [_ ?].
  - intros _. split; [|done].
    intros Hin. repeat (apply elem_of_cons in Hin as [->|Hin]; [done|]).
    by apply elem_of_nil in Hin.
Qed.

Lemma pl_col_is_Some (columns : gset string) (name : string) :
  is_Some (pl_col columns name)
  ↔ name ∈ ["result_id"; "metric"; "value"] ∨ name ∈ columns.
Proof.
  rewrite <-not_eq_None_Some, pl_col_None.
  destruct (decide (name ∈ ["result_id"; "metric"; "value"]));
    destruct (decide (name ∈ columns)); tauto.
Qed.

(** A key of [pl.col] that is a cell of a fact is a cell of the fact
    named. *)
Lemma pl_col_FactCell (columns : gset string) (name : string)
    (key : FlatRow Value → Cell Value) (row : FlatRow Value) (v : option Value) :
  pl_col columns name = Some key → key row = FactCell v →
  key = (λ row, FactCell (row_facts row !! name)).
Proof.
  unfold pl_col. repeat case_decide; intros [= <-]; done.
Qed.

Lemma aggregate_ok (columns : gset string) (rows : list (FlatRow Value))
    (metric experiment_fact : string) (table : list (AggRow Value)) :
  aggregate columns rows metric experiment_fact = Ok table →
  ∃ key,
    pl_col columns experiment_fact = Some key
    ∧ (experiment_fact ∉ agg_names)
    ∧ filter (λ row, row_metric row = metric) rows ≠ []
    ∧ table = agg <$> group_by key (filter (λ row, row_metric row = metric) rows).
Proof.
  destruct (decide (filter (λ row, row_metric row = metric) rows = [])) as [Hnil|Hne].
  - by rewrite (aggregate_no_match _ _ _ _ Hnil).
  - rewrite (aggregate_match _ _ _ _ Hne).
    destruct (pl_col columns experiment_fact) as [key|]; [|done].
    destruct (decide (experiment_fact ∈ agg_names)); [done|].
    intros [= <-]. by exists key.
Qed.

Lemma aggregate_raise (columns : gset string) (rows : list (FlatRow Value))
    (metric experiment_fact : string) (e : Error Value) :
  aggregate columns rows metric experiment_fact = Raise e →
  (filter (λ row, row_metric row = metric) rows = []
   ∧ e = NoMatchingMetricError metric (set_order (list_to_set (row_metric <$> rows))))
  ∨ (filter (λ row, row_metric row = metric) rows ≠ []
     ∧ (e = ColumnNotFoundError experiment_fact ∨ e = DuplicateError experiment_fact)).
Proof.
  destruct (decide (filter (λ row, row_metric row = metric) rows = [])) as [Hnil|Hne].
  - rewrite (aggregate_no_match _ _ _ _ Hnil). intros [= <-]. by left.
  - rewrite (aggregate_match _ _ _ _ Hne). right. split; [done|].
    destruct (pl_col columns experiment_fact) as [key|]; [|left; congruence].
    destruct (decide (experiment_fact ∈ agg_names)); [right; congruence|done].
Qed.

Lemma filter_nil_iff {A} (P : A → Prop) `{∀ x, Decision (P x)} (l : list A) :
  filter P l = [] ↔ ∀ x, x ∈ l → ¬ P x.
Proof.
  split.
  - intros Hnil x Hx HP. by eapply filter_nil_not_elem_of.
  - intros Hall. destruct (filter P l) as [|x l'] eqn:Hf; [done|].
    assert (x ∈ filter P l) as [HP Hx]%list_elem_of_filter by (rewrite Hf; left).
    by destruct (Hall x Hx).
Qed.

(** C8.  On the rows of the filtered results, the aggregation raises the
    no-matching-metric error exactly when no row carries the requested
    metric; the error lists the metric names that occur on those rows.
    It is the only error that [compare] raises in the aggregation: the
    other outcomes that are no table are the two errors of the query
    engine on the key column, which come after it, when some row carries
    the metric.  [compare] runs the aggregation on these rows once
    [validate] has passed. *)
Theorem no_matching_metric_iff (db : Db Value) (facts_eq : gmap string Value)
    (experiment_fact metric : string) :
  ((∃ avail, aggregate (fact_columns db) (results_df db (selected db facts_eq))
               metric experiment_fact
             = Raise (NoMatchingMetricError metric avail))
   ↔ ∀ row, row ∈ results_df db (selected db facts_eq) → row_metric row ≠ metric)
  ∧ (∀ e, aggregate (fact_columns db) (results_df db (selected db facts_eq))
            metric experiment_fact = Raise e →
       (∃ avail, e = NoMatchingMetricError metric avail
          ∧ NoDup avail
          ∧ ∀ m, m ∈ avail
                 ↔ ∃ row, row ∈ results_df db (selected db facts_eq) ∧ row_metric row = m)
       ∨ ((∃ row, row ∈ results_df db (selected db facts_eq) ∧ row_metric row = metric)
          ∧ (e = ColumnNotFoundError experiment_fact ∨ e = DuplicateError experiment_fact)))
  ∧ (∀ rows, validate db facts_eq experiment_fact = Ok rows →
       rows = results_df db (selected db facts_eq)
       ∧ rows ≠ []
       ∧ compare db facts_eq experiment_fact metric
         = aggregate (fact_columns db) (results_df db (selected db facts_eq))
             metric experiment_fact).
Proof.
  set (rows := results_df db (selected db facts_eq)).
  split; [split|split].
  - intros [avail Hagg]. apply (filter_nil_iff (λ row, row_metric row = metric)).
    apply aggregate_raise in Hagg as [[? _]|[_ [?|?]]]; done.
  - intros Hall. eexists. apply aggregate_no_match.
    by apply (filter_nil_iff (λ row, row_metric row = metric)).
  - intros e Hagg. apply aggregate_raise in Hagg as [[Hnil ->]|[Hne He]].
    + left. eexists. split; [done|]. split; [apply NoDup_set_order|].
      intros m. rewrite elem_of_set_order, elem_of_list_to_set, list_elem_of_fmap.
      naive_solver.
    + right. split; [|done].
      destruct (filter (λ row, row_metric row = metric) rows) as [|row df] eqn:Hf; [done|].
      assert (row ∈ filter (λ row, row_metric row = metric) rows)
        as [? ?]%list_elem_of_filter by (rewrite Hf; left).
      by exists row.
  - intros rows' Hv.
    destruct (compare_validated _ _ _ metric _ Hv) as (-> & ? & ?). done.
Qed.

Lemma filter_ext_in {A} (P Q : A → Prop) `{∀ x, Decision (P x)} `{∀ x, Decision (Q x)}
    (l : list A) :
  (∀ x, x ∈ l → P x ↔ Q x) → filter P l = filter Q l.
Proof.
  induction l as [|x l IH]; intros Hiff; [done|].
  rewrite !filter_cons, IH by (intros y Hy; apply Hiff; by right).
  destruct (decide (P x)) as [HP|HP].
  - by rewrite decide_True by (apply Hiff; [left|done]).
  - rewrite decide_False; [done|]. intros HQ. apply HP, Hiff; [left|done].
Qed.

(** *** The mean and the standard deviation *)

Lemma Rsum_squares_nonneg (m : R) (xs : list R) :
  (0 <= Rsum ((λ x, (x - m) * (x - m)) <$> xs))%R.
Proof.
  induction xs as [|x xs IH]; simpl; [apply Rle_refl|].
  apply Rplus_le_le_0_compat; [|exact IH].
  replace ((x - m) * (x - m))%R with (Rsqr (x - m)) by reflexivity. apply Rle_0_sqr.
Qed.

Lemma INR_length_pos {A} (xs : list A) : xs ≠ [] → (0 < INR (length xs))%R.
Proof.
  intros Hne. apply lt_0_INR. destruct xs; [done|simpl; lia].
Qed.

(** The mean times the count is the sum. *)
Lemma pl_mean_sum (xs : list R) :
  xs ≠ [] →
  ∃ m, pl_mean xs = Some m ∧ (m * INR (length xs) = foldr Rplus 0 xs)%R.
Proof.
  intros Hne. pose proof (INR_length_pos xs Hne) as Hpos.
  exists (Rsum xs / INR (length xs))%R. split; [by destruct xs|].
  unfold Rsum. field. intros H0. rewrite H0 in Hpos. by apply Rlt_irrefl in Hpos.
Qed.

(** The standard deviation is null below two values; from two values
    on it is the number that is not negative and whose square, times the
    count less one, is the sum of the squared deviations from the mean. *)
Lemma pl_std_squares (xs : list R) (m : R) :
  pl_mean xs = Some m →
  (length xs < 2 → pl_std xs = None)
  ∧ (2 ≤ length xs →
     ∃ s, pl_std xs = Some s ∧ (0 <= s)%R
          ∧ (s * s * (INR (length xs) - 1)
             = foldr Rplus 0 ((λ x, (x - m) * (x - m)) <$> xs))%R).
Proof.
  intros Hm. unfold pl_std. split.
  - intros Hlt. by rewrite decide_True.
  - intros Hge. rewrite decide_False by lia.
    assert (m = (Rsum xs / INR (length xs))%R) as <-.
    { destruct xs; [done|]. by injection Hm. }
    assert (0 < INR (length xs) - 1)%R as Hpos.
    { apply le_INR in Hge. simpl in Hge. apply Rlt_le_trans with (1 + 1 - 1)%R.
      - replace (1 + 1 - 1)%R with 1%R by ring. apply Rlt_0_1.
      - apply Rplus_le_compat_r. exact Hge. }
    eexists. split; [done|]. split; [apply sqrt_pos|].
    rewrite sqrt_sqrt.
    + fold (Rsum ((λ x, (x - m) * (x - m))%R <$> xs)). field.
      intros H0. rewrite H0 in Hpos. by apply Rlt_irrefl in Hpos.
    + unfold Rdiv. apply Rle_mult_inv_pos; [apply Rsum_squares_nonneg|exact Hpos].
Qed.

(** The table of a grouping by a fact column. *)
Lemma aggregate_fact_column (columns : gset string) (rows : list (FlatRow Value))
    (metric experiment_fact : string) :
  filter (λ row, row_metric row = metric) rows ≠ [] →
  experiment_fact ∉ ["result_id"; "metric"; "value"] →
  experiment_fact ∉ agg_names →
  experiment_fact ∈ columns →
  aggregate columns rows metric experiment_fact
  = Ok (agg <$> group_by (λ row, FactCell (row_facts row !! experiment_fact))
                  (filter (λ row, row_metric row = metric) rows)).
Proof.
  intros Hne Hfixed Hnames Hcol.
  rewrite (aggregate_match _ _ _ _ Hne), (pl_col_fact _ _ Hfixed Hcol).
  by rewrite decide_False.
Qed.

Lemma aggregate_no_column (columns : gset string) (rows : list (FlatRow Value))
    (metric experiment_fact : string) :
  filter (λ row, row_metric row = metric) rows ≠ [] →
  experiment_fact ∉ ["result_id"; "metric"; "value"] →
  experiment_fact ∉ columns →
  aggregate columns rows metric experiment_fact = Raise (ColumnNotFoundError experiment_fact).
Proof.
  intros Hne Hfixed Hcol. rewrite (aggregate_match _ _ _ _ Hne).
  by rewrite (proj2 (pl_col_None columns experiment_fact)).
Qed.


(** The engine's errors on the key column: when [validate] has passed
    and some row carries the metric, an experiment fact that names no
    column ends [compare] in the column-not-found error. *)
Lemma compare_no_column (db : Db Value) (facts_eq : gmap string Value)
    (experiment_fact metric : string) (rows : list (FlatRow Value)) :
  validate db facts_eq experiment_fact = Ok rows →
  (∃ row, row ∈ rows ∧ row_metric row = metric) →
  experiment_fact ∉ ["result_id"; "metric"; "value"] →
  experiment_fact ∉ fact_columns db →
  compare db facts_eq experiment_fact metric = Raise (ColumnNotFoundError experiment_fact).
Proof.
  intros Hv (row0 & Hrow0 & Hmetric0) Hfixed Hcol.
  destruct (compare_validated _ _ _ metric _ Hv) as (_ & _ & ->).
  apply aggregate_no_column; [|done..].
  intros Hnil. eapply (filter_nil_not_elem_of _ _ row0); done.
Qed.

(** ** Further properties of [compare] *)

(** *** The filter *)

Lemma filter_all {A} (P : A → Prop) `{∀ x, Decision (P x)} (l : list A) :
  (∀ x, x ∈ l → P x) → filter P l = l.
Proof.
  induction l as [|x l IH]; intros Hall; [done|].
  rewrite filter_cons, decide_True by (apply Hall; left).
  rewrite IH; [done|]. intros y Hy. apply Hall. by right.
Qed.

Lemma filter_sublist_impl {A} (P Q : A → Prop) `{∀ x, Decision (P x)} `{∀ x, Decision (Q x)}
    (l : list A) :
  (∀ x, x ∈ l → P x → Q x) → filter P l `sublist_of` filter Q l.
Proof.
  induction l as [|x l IH]; intros Himpl; [done|].
  assert (filter P l `sublist_of` filter Q l) as Hsub
    by (apply IH; intros y Hy; apply Himpl; by right).
  rewrite !filter_cons. destruct (decide (P x)) as [HP|HP].
  - rewrite decide_True by (apply Himpl; [left|done]). by constructor.
  - destruct (decide (Q x)); [by constructor|done].
Qed.

(** X1.  Without constraints the filter keeps every result of the
    database, in the order of the database. *)
Theorem filter_without_constraints (db : Db Value) : selected db ∅ = results db.
Proof.
  unfold selected. apply filter_all. intros r _.
  apply include_result_true. intros name v Hv. by rewrite lookup_empty in Hv.
Qed.

(** X2.  More constraints select fewer results: when [facts_eq'] extends
    [facts_eq], the results it selects are among those that [facts_eq]
    selects, in the same order. *)
Theorem filter_antitone (db : Db Value) (facts_eq facts_eq' : gmap string Value) :
  facts_eq ⊆ facts_eq' →
  selected db facts_eq' `sublist_of` selected db facts_eq.
Proof.
  intros Hsub. unfold selected. apply filter_sublist_impl. intros r _.
  rewrite !include_result_true. intros Hall name v Hv.
  apply Hall. by eapply lookup_weaken.
Qed.

(** *** The rows of the selected results *)

Lemma elem_of_flat_df (db : Db Value) (row : FlatRow Value) :
  row ∈ flat_df db
  ↔ ∃ r m, r ∈ results db ∧ m ∈ metrics r
           ∧ row = {| row_result_id := result_id r;
                      row_facts := value <$> facts r;
                      row_metric := metric_name m;
                      row_value := metric_value m |}.
Proof.
  unfold flat_df. rewrite list_elem_of_bind. split.
  - intros (r & Hrow & Hr). apply list_elem_of_bind in Hrow as (m & Hrow & Hm).
    apply list_elem_of_singleton in Hrow. by exists r, m.
  - intros (r & m & Hr & Hm & ->). exists r. split; [|done].
    apply list_elem_of_bind. exists m. split; [|done]. by apply list_elem_of_singleton.
Qed.

Lemma elem_of_results_df (db : Db Value) (rs : list (Result Value)) (row : FlatRow Value) :
  row ∈ results_df db rs
  ↔ row ∈ flat_df db ∧ ∃ r, r ∈ rs ∧ result_id r = row_result_id row.
Proof.
  unfold results_df. rewrite list_elem_of_filter, elem_of_list_to_set, list_elem_of_fmap.
  naive_solver.
Qed.

Lemma results_df_not_nil (db : Db Value) (facts_eq : gmap string Value) :
  results_df db (selected db facts_eq) ≠ [] → selected db facts_eq ≠ [].
Proof. intros Hrows Hnil. apply Hrows. rewrite Hnil. apply results_df_nil. Qed.

Lemma NoDup_fmap_eq {A B} (f : A → B) (l : list A) (x y : A) :
  NoDup (f <$> l) → x ∈ l → y ∈ l → f x = f y → x = y.
Proof.
  induction l as [|a l IH]; intros Hnd Hx Hy Heq; [by apply elem_of_nil in Hx|].
  rewrite fmap_cons in Hnd. apply NoDup_cons in Hnd as [Ha Hnd].
  apply elem_of_cons in Hx as [->|Hx]; apply elem_of_cons in Hy as [->|Hy]; [done| | |by apply IH].
  - exfalso. apply Ha. rewrite Heq. apply list_elem_of_fmap. by exists y.
  - exfalso. apply Ha. rewrite <-Heq. apply list_elem_of_fmap. by exists x.
Qed.

Lemma filter_flat_rows (ids : gset string) (rs : list (Result Value)) :
  filter (λ row, row_result_id row ∈ ids)
    (flat_df {| root_dir := []; results := rs |})
  = flat_df {| root_dir := []; results := filter (λ r, result_id r ∈ ids) rs |}.
Proof.
  unfold flat_df. simpl. induction rs as [|r rs IH]; [done|].
  rewrite bind_cons, filter_app, IH, filter_cons.
  destruct (decide (result_id r ∈ ids)) as [HP|HP].
  - rewrite bind_cons. f_equal. apply filter_all.
    intros row (m & Hrow & _)%list_elem_of_bind.
    by apply list_elem_of_singleton in Hrow as ->.
  - rewrite (proj2 (filter_nil_iff _ _)); [done|].
    intros row (m & Hrow & _)%list_elem_of_bind.
    by apply list_elem_of_singleton in Hrow as ->.
Qed.

(** X3.  When the result ids of the database are pairwise distinct, the
    rows that [compare] keeps (those whose result id is the id of a
    selected result) are the flattened rows of the selected results, in
    the order of the database. *)
Theorem results_df_selected (db : Db Value) (facts_eq : gmap string Value) :
  NoDup (result_id <$> results db) →
  results_df db (selected db facts_eq)
  = flat_df {| root_dir := root_dir db; results := selected db facts_eq |}.
Proof.
  intros Hnd. unfold results_df.
  set (ids := list_to_set (result_id <$> selected db facts_eq) : gset string).
  change (flat_df db) with (flat_df {| root_dir := []; results := results db |}).
  rewrite filter_flat_rows.
  change (flat_df {| root_dir := root_dir db; results := selected db facts_eq |})
    with (flat_df {| root_dir := []; results := selected db facts_eq |}).
  f_equal. f_equal. unfold selected. apply filter_ext_in. intros r Hr.
  unfold ids. rewrite elem_of_list_to_set, list_elem_of_fmap. split.
  - intros (r' & Hid & [Hr' Hinc]%elem_of_selected).
    by rewrite (NoDup_fmap_eq result_id (results db) r r' Hnd Hr Hr' Hid).
  - intros Hinc. exists r. split; [done|]. by apply elem_of_selected.
Qed.

(** *** When [compare] passes *)

Lemma check_facts_agree (db : Db Value) (facts_eq : gmap string Value)
    (experiment_fact : string) :
  selected db facts_eq ≠ [] →
  check_facts facts_eq experiment_fact (selected db facts_eq) (set_order (extant_facts db))
  = Ok ()
  ↔ ∀ fact r1 r2,
      (∃ r, r ∈ results db ∧ is_Some (facts r !! fact)) →
      fact ≠ experiment_fact → facts_eq !! fact = None →
      r1 ∈ selected db facts_eq → r2 ∈ selected db facts_eq →
      observed fact r1 = observed fact r2.
Proof.
  intros Hsel. rewrite check_facts_ok. split.
  - intros Hall fact r1 r2 Hext Hne Hnone H1 H2.
    destruct (decide (observed fact r1 = observed fact r2)) as [|Hdiff]; [done|].
    exfalso. apply (proj2 (fact_vals_size fact _ Hsel)); [by exists r1, r2|].
    apply Hall; [|done..]. by apply elem_of_set_order, elem_of_extant_facts.
  - intros Hall fact Hin Hne Hnone.
    destruct (decide (size (fact_vals fact (selected db facts_eq)) = 1)) as [|Hsz]; [done|].
    apply fact_vals_size in Hsz as (r1 & r2 & ? & ? & Hdiff); [|done].
    exfalso. apply Hdiff, Hall; try done.
    by apply elem_of_extant_facts, elem_of_set_order.
Qed.


(** X5.  When [validate] raises the empty-selection error, no selected
    result has a metric; and when no result at all is selected, every
    fact of the database is the experiment fact or a key of
    [facts_eq]. *)
Theorem empty_selection_error_only (db : Db Value) (facts_eq : gmap string Value)
    (experiment_fact : string) :
  validate db facts_eq experiment_fact = Raise EmptySelectionError →
  (∀ r, r ∈ selected db facts_eq → metrics r = [])
  ∧ (selected db facts_eq = [] →
     ∀ fact, (∃ r, r ∈ results db ∧ is_Some (facts r !! fact)) →
       fact = experiment_fact ∨ is_Some (facts_eq !! fact)).
Proof.
  intros Hv. apply validate_inv in Hv
    as [[_ ?]|[(_ & ? & _ & _ & _ & _ & ?)|[(_&Hchk&Hnil&_)|(_&_&_&?)]]]; try done.
  split.
  - intros r Hr. destruct (metrics r) as [|m ms] eqn:Hm; [done|]. exfalso.
    apply (not_elem_of_nil (A:=FlatRow Value)
             {| row_result_id := result_id r; row_facts := value <$> facts r;
                row_metric := metric_name m; row_value := metric_value m |}).
    rewrite <-Hnil. apply elem_of_results_df. split.
    + apply elem_of_flat_df. exists r, m. apply elem_of_selected in Hr as [Hr _].
      split; [done|]. split; [rewrite Hm; left|done].
    + by exists r.
  - intros Hsel fact Hext. rewrite check_facts_ok in Hchk.
    destruct (decide (fact = experiment_fact)) as [|Hne]; [by left|]. right.
    destruct (facts_eq !! fact) as [v|] eqn:Hfact; [by exists v|]. exfalso.
    assert (size (fact_vals fact (selected db facts_eq)) = 1) as Hsz.
    { apply Hchk; [|done..]. by apply elem_of_set_order, elem_of_extant_facts. }
    by rewrite Hsel, fact_vals_nil, size_empty in Hsz.
Qed.

(** *** The table *)

Lemma group_insert_size {K A} `{EqDecision K} (k : K) (a : A) (groups : list (K * list A)) :
  sum_list ((λ g, length g.2) <$> group_insert k a groups)
  = S (sum_list ((λ g, length g.2) <$> groups)).
Proof.
  induction groups as [|[k0 g0] groups IH]; simpl; [done|].
  destruct (decide (k = k0)); simpl.
  - rewrite length_app. simpl. lia.
  - unfold fmap in IH. rewrite IH. lia.
Qed.

Lemma group_by_size {K A} `{EqDecision K} (key : A → K) (l : list A) :
  sum_list ((λ g, length g.2) <$> group_by key l) = length l.
Proof.
  unfold group_by. induction l as [|a l IH] using rev_ind; [done|].
  rewrite foldl_app. simpl. rewrite group_insert_size, IH, length_app. simpl. lia.
Qed.

(** X6.  The sample counts of the table add up to the number of rows of
    the selected results that carry the metric: every such row is
    counted in exactly one group. *)
Theorem sample_counts_sum (db : Db Value) (facts_eq : gmap string Value)
    (experiment_fact metric : string) (table : list (AggRow Value)) :
  compare db facts_eq experiment_fact metric = Ok table →
  sum_list (samples <$> table)
  = length (filter (λ row, row_metric row = metric)
              (results_df db (selected db facts_eq))).
Proof.
  unfold compare.
  destruct (validate db facts_eq experiment_fact) as [rows|e] eqn:Hv; [|done]. simpl.
  destruct (compare_validated _ _ _ metric _ Hv) as (-> & _ & _).
  intros (key & _ & _ & _ & ->)%aggregate_ok.
  rewrite <-list_fmap_compose.
  by rewrite <-(group_by_size key).
Qed.

Lemma Rsum_constant (v : R) (xs : list R) :
  Forall (λ x, x = v) xs → Rsum xs = (INR (length xs) * v)%R.
Proof.
  induction 1 as [|x xs -> _ IH]; [simpl; ring|].
  change (Rsum (v :: xs)) with (v + Rsum xs)%R.
  change (length (v :: xs)) with (S (length xs)). rewrite IH, S_INR. ring.
Qed.

Lemma Rsum_zeros (xs : list R) : Forall (λ x, x = 0%R) xs → Rsum xs = 0%R.
Proof. intros ->%Rsum_constant. ring. Qed.

Lemma mean_constant (v : R) (xs : list R) :
  xs ≠ [] → Forall (λ x, x = v) xs → (Rsum xs / INR (length xs))%R = v.
Proof.
  intros Hne Hall. pose proof (INR_length_pos xs Hne) as Hpos.
  rewrite (Rsum_constant v xs Hall). field.
  intros H0. rewrite H0 in Hpos. by apply Rlt_irrefl in Hpos.
Qed.

Lemma pl_mean_constant (v : R) (xs : list R) :
  xs ≠ [] → Forall (λ x, x = v) xs → pl_mean xs = Some v.
Proof.
  intros Hne Hall. destruct xs as [|x xs]; [done|].
  unfold pl_mean. f_equal. by apply mean_constant.
Qed.

Lemma pl_std_constant (v : R) (xs : list R) :
  2 ≤ length xs → Forall (λ x, x = v) xs → pl_std xs = Some 0%R.
Proof.
  intros Hge Hall. unfold pl_std. rewrite decide_False by lia.
  assert (xs ≠ []) as Hne by (intros ->; simpl in Hge; lia).
  rewrite (mean_constant v xs Hne Hall).
  rewrite Rsum_zeros.
  - unfold Rdiv. by rewrite Rmult_0_l, sqrt_0.
  - apply Forall_fmap. eapply Forall_impl; [exact Hall|]. intros x ->. simpl. ring.
Qed.


(** From here on a fact column is the column of a fact that some result
    of the database carries. *)
Hypothesis fact_columns_extant :
  ∀ db name, name ∈ fact_columns db → ∃ r, r ∈ results db ∧ is_Some (facts r !! name).


Lemma group_by_constant {K A} `{EqDecision K} (key : A → K) (k : K) (l : list A) :
  l ≠ [] → (∀ a, a ∈ l → key a = k) → group_by key l = [(k, l)].
Proof.
  unfold group_by. induction l as [|a l IH] using rev_ind; [done|].
  intros _ Hall. rewrite foldl_app. simpl.
  rewrite (Hall a) by (apply elem_of_app; right; left).
  destruct l as [|a0 l]; [done|].
  rewrite IH; [|done|intros ? ?; apply Hall, elem_of_app; by left].
  simpl. by rewrite decide_True.
Qed.

(** X19.  The name of the metric column as the experiment fact: when
    [validate] has passed and some row carries the metric, [compare]
    with the experiment fact [metric] yields a table of one row, whose
    key is the name of the metric and whose sample count is the number
    of rows of the selected results that carry the metric. *)
Theorem group_by_metric_column (db : Db Value) (facts_eq : gmap string Value)
    (metric : string) (rows : list (FlatRow Value)) :
  validate db facts_eq "metric" = Ok rows →
  (∃ row, row ∈ rows ∧ row_metric row = metric) →
  ∃ a,
    compare db facts_eq "metric" metric = Ok [a]
    ∧ group_key a = StrCell metric
    ∧ samples a = length (filter (λ row, row_metric row = metric) rows).
Proof.
  intros Hv (row0 & Hrow0 & Hmetric0).
  destruct (compare_validated _ _ _ metric _ Hv) as (_ & _ & ->).
  assert (filter (λ row, row_metric row = metric) rows ≠ []) as Hne.
  { intros Hnil. eapply (filter_nil_not_elem_of _ _ row0); done. }
  rewrite (aggregate_match _ _ _ _ Hne). simpl.
  rewrite (group_by_constant _ (StrCell metric)); [|done|].
  - eexists. split; [done|]. done.
  - by intros row [-> _]%list_elem_of_filter.
Qed.

(** *** The command line *)

(** Lines 151-157: the dictionary comprehension over the [--fact-eq]
    pairs, in the order of the command line. *)
Definition fact_eq_dict (fact_eq : list (string * Value)) : gmap string Value :=
  foldl (λ d p, <[p.1 := p.2]> d) ∅ fact_eq.

Definition cmd_ab (db : Db Value) (fact_eq : list (string * Value))
    (experiment_fact metric : string) : result (Error Value) (list (AggRow Value)) :=
  compare db (fact_eq_dict fact_eq) experiment_fact metric.

(** X8.  A fact that [--fact-eq] names several times is constrained to
    the value given last; a fact that it does not name is not
    constrained. *)
Theorem fact_eq_last_wins (fact_eq : list (string * Value)) (name : string) :
  fact_eq_dict fact_eq !! name = snd <$> last (filter (λ p, p.1 = name) fact_eq).
Proof.
  unfold fact_eq_dict. induction fact_eq as [|[name' v] l IH] using rev_ind; [done|].
  rewrite foldl_app, filter_app. simpl. rewrite filter_cons, filter_nil. simpl.
  destruct (decide (name' = name)) as [->|Hne].
  - by rewrite lookup_insert_eq, last_snoc.
  - by rewrite lookup_insert_ne, app_nil_r.
Qed.

End compare.

(** *** The scenario of the specification

    Three results: R1 and R2 on linux with variants A and B, R3 on windows
    with variant A; each carries one [latency] sample. *)

Definition fact (v : string) : Fact string := {| value := v |}.

Definition sample (name : string) (v : R) : Metric :=
  {| metric_name := name; metric_value := v |}.

Definition R1 : Result string :=
  {| result_id := "bench:000000000001";
     facts := <["os" := fact "linux"]> (<["variant" := fact "A"]> ∅);
     metrics := [sample "latency" 10] |}.

Definition R2 : Result string :=
  {| result_id := "bench:000000000002";
     facts := <["os" := fact "linux"]> (<["variant" := fact "B"]> ∅);
     metrics := [sample "latency" 20] |}.

Definition R3 : Result string :=
  {| result_id := "bench:000000000003";
     facts := <["os" := fact "windows"]> (<["variant" := fact "A"]> ∅);
     metrics := [sample "latency" 15] |}.

Definition scenario : Db string := {| root_dir := ["results"]; results := [R1; R2; R3] |}.

Definition fact_eq (name v : string) : gmap string string := <[name := v]> ∅.

Example scenario_confounded :
  validate elements scenario ∅ "variant"
  = Raise (ConfoundingFactError "os" ({[ Some "linux" ]} ∪ {[ Some "windows" ]})).
Proof. vm_compute. reflexivity. Qed.

Example scenario_pinned :
  validate elements scenario (fact_eq "os" "linux") "variant"
  = Ok (results_df scenario [R1; R2]).
Proof. vm_compute. reflexivity. Qed.

Lemma elements_order (X : gset string) : elements X ≡ₚ elements X.
Proof. reflexivity. Defined.

(** The schema of the examples: one fact column for every fact that
    some result of the database carries. *)
#[local] Instance fact_names : Schema string := {| fact_columns := extant_facts |}.

Lemma fact_names_extant (db : Db string) (name : string) :
  name ∈ fact_columns db → ∃ r, r ∈ results db ∧ is_Some (facts r !! name).
Proof.
  unfold fact_columns, fact_names, extant_facts. generalize (results db). intros rs.
  assert (∀ acc : gset string,
            name ∈ foldl (λ acc result, acc ∪ dom (facts result)) acc rs →
            name ∈ acc ∨ ∃ r : Result string, r ∈ rs ∧ is_Some (facts r !! name)) as Hfold.
  { induction rs as [|r rs IH]; intros acc; simpl; [by left|].
    intros [[?|?%elem_of_dom]%elem_of_union|(r' & ? & ?)]%IH.
    - by left.
    - right. exists r. split; [left|done].
    - right. exists r'. split; [by right|done]. }
  intros [Hin|?]%Hfold; [|done]. by apply elem_of_empty in Hin.
Defined.

Lemma empty_keys_known (db : Db string) (name : string) :
  is_Some ((∅ : gmap string string) !! name) →
  ∃ r, r ∈ results db ∧ is_Some (facts r !! name).
Proof. intros [v Hv]. by rewrite lookup_empty in Hv. Defined.

Lemma os_known (v name : string) :
  is_Some (fact_eq "os" v !! name) →
  ∃ r, r ∈ results scenario ∧ is_Some (facts r !! name).
Proof.
  intros Hname. exists R1. split; [left|].
  unfold fact_eq in Hname. apply lookup_insert_is_Some in Hname as [<-|[_ Hname]].
  - eexists; vm_compute; reflexivity.
  - rewrite lookup_empty in Hname. by destruct Hname.
Defined.

Lemma confounding_fact_error_iff_witness :
  (∀ X : gset string, elements X ≡ₚ elements X)
  ∧ (∀ name, is_Some ((∅ : gmap string string) !! name) →
       ∃ r, r ∈ results scenario ∧ is_Some (facts r !! name))
  ∧ selected scenario ∅ ≠ []
  ∧ ∃ fact vals, validate elements scenario ∅ "variant" = Raise (ConfoundingFactError fact vals).
Proof.
  split; [exact elements_order|]. split; [exact (empty_keys_known scenario)|].
  assert (selected scenario ∅ ≠ []) as Hsel by (vm_compute; discriminate).
  split; [exact Hsel|].
  apply (confounding_fact_error_iff elements elements_order scenario ∅ "variant"
           (empty_keys_known scenario) Hsel).
  exists "os", R1, R3. split.
  { exists R1. split; [left|]. eexists; vm_compute; reflexivity. }
  split; [discriminate|]. split; [apply lookup_empty|].
  split; [vm_compute; left|]. split; [vm_compute; right; right; left|].
  vm_compute. discriminate.
Defined.

(** C1 as stated fails: with a key of [facts_eq] that no result carries,
    the filtered list is not empty and the fact [os] takes two values on
    it, yet [validate] raises the unknown-fact error and not the
    confounding-fact error. *)
Lemma confounding_shadowed_by_unknown_fact :
  selected scenario (fact_eq "typo" "x") ≠ []
  ∧ (∃ fact r1 r2,
       (∃ r, r ∈ results scenario ∧ is_Some (facts r !! fact))
       ∧ fact ≠ "variant" ∧ fact_eq "typo" "x" !! fact = None
       ∧ r1 ∈ selected scenario (fact_eq "typo" "x")
       ∧ r2 ∈ selected scenario (fact_eq "typo" "x")
       ∧ observed fact r1 ≠ observed fact r2)
  ∧ ¬ ∃ fact vals,
        validate elements scenario (fact_eq "typo" "x") "variant"
        = Raise (ConfoundingFactError fact vals).
Proof.
  split; [vm_compute; discriminate|]. split.
  - exists "os", R1, R3. split.
    { exists R1. split; [left|]. eexists; vm_compute; reflexivity. }
    split; [discriminate|]. split; [vm_compute; reflexivity|].
    split; [vm_compute; left|]. split; [vm_compute; right; right; left|].
    vm_compute. discriminate.
  - intros (fact & vals & Hv). vm_compute in Hv. discriminate.
Qed.

(** The same call, evaluated. *)
Example scenario_typo :
  validate elements scenario (fact_eq "typo" "x") "variant"
  = Raise (UnknownFactError {[ "typo" ]} (elements ({[ "os"; "variant" ]} : gset string))).
Proof. vm_compute. reflexivity. Qed.

(** *** An empty selection *)

(** One result, with a third fact that the call leaves free. *)
Definition R0 : Result string :=
  {| result_id := "bench:000000000000";
     facts := <["os" := fact "linux"]>
                (<["variant" := fact "A"]> (<["kernel" := fact "6.1"]> ∅));
     metrics := [sample "latency" 10] |}.

Definition single : Db string := {| root_dir := ["results"]; results := [R0] |}.

(** C2 on the code.  The keys of [facts_eq] exist and no result passes the
    filter; the loop over the facts runs before the test for an empty
    selection and finds no value at all for [kernel], so the call ends
    with the confounding-fact error on [kernel] and an empty set of
    values, not with the empty-selection error. *)
Theorem empty_selection_raises_confounding :
  missing_facts single (fact_eq "os" "macos") = ∅
  ∧ selected single (fact_eq "os" "macos") = []
  ∧ validate elements single (fact_eq "os" "macos") "variant"
    = Raise (ConfoundingFactError "kernel" ∅).
Proof. split; [|split]; vm_compute; reflexivity. Qed.

(** The empty-selection error is reached when no fact is left to check. *)
Example empty_selection_reached :
  validate elements scenario (fact_eq "os" "macos") "variant" = Raise EmptySelectionError.
Proof. vm_compute. reflexivity. Qed.

Lemma unknown_fact_error_iff_witness :
  (∀ X : gset string, elements X ≡ₚ elements X)
  ∧ ∃ name, is_Some (fact_eq "typo" "x" !! name)
            ∧ ¬ ∃ r, r ∈ results scenario ∧ is_Some (facts r !! name).
Proof.
  split; [exact elements_order|].
  apply (unknown_fact_error_iff elements elements_order scenario (fact_eq "typo" "x") "variant").
  eexists _, _. vm_compute. reflexivity.
Defined.

Lemma no_matching_metric_iff_witness :
  (∀ X : gset string, elements X ≡ₚ elements X)
  ∧ ∃ avail,
      aggregate elements (fact_columns scenario) (results_df scenario (selected scenario (fact_eq "os" "linux")))
        "throughput" "variant"
      = Raise (NoMatchingMetricError "throughput" avail).
Proof.
  split; [exact elements_order|].
  apply (no_matching_metric_iff elements elements_order scenario (fact_eq "os" "linux")
           "variant" "throughput").
  intros row Hrow. vm_compute in Hrow.
  repeat (apply elem_of_cons in Hrow as [->|Hrow]; [discriminate|]).
  by apply elem_of_nil in Hrow.
Defined.

Lemma experiment_fact_not_checked_witness :
  (¬ ∃ r, r ∈ results scenario ∧ is_Some (facts r !! "compiler"))
  ∧ (∀ name, is_Some (fact_eq "variant" "B" !! name) →
       ∃ r, r ∈ results scenario ∧ is_Some (facts r !! name))
  ∧ (∀ fact r1 r2, fact_eq "variant" "B" !! fact = None →
       r1 ∈ selected scenario (fact_eq "variant" "B") →
       r2 ∈ selected scenario (fact_eq "variant" "B") →
       observed fact r1 = observed fact r2)
  ∧ results_df scenario (selected scenario (fact_eq "variant" "B")) ≠ []
  ∧ validate elements scenario (fact_eq "variant" "B") "compiler"
    = Ok (results_df scenario (selected scenario (fact_eq "variant" "B"))).
Proof.
  assert (¬ ∃ r, r ∈ results scenario ∧ is_Some (facts r !! "compiler")) as Hnew.
  { intros (r & Hr & Hsome). simpl in Hr.
    repeat (apply elem_of_cons in Hr as [->|Hr]; [vm_compute in Hsome; by destruct Hsome|]).
    by apply elem_of_nil in Hr. }
  assert (∀ name, is_Some (fact_eq "variant" "B" !! name) →
            ∃ r, r ∈ results scenario ∧ is_Some (facts r !! name)) as Hknown.
  { intros name Hname. exists R1. split; [left|].
    unfold fact_eq in Hname. apply lookup_insert_is_Some in Hname as [<-|[_ Hname]].
    - eexists; vm_compute; reflexivity.
    - rewrite lookup_empty in Hname. by destruct Hname. }
  assert (selected scenario (fact_eq "variant" "B") = [R2]) as Hsel by (vm_compute; reflexivity).
  assert (∀ fact r1 r2, fact_eq "variant" "B" !! fact = None →
            r1 ∈ selected scenario (fact_eq "variant" "B") →
            r2 ∈ selected scenario (fact_eq "variant" "B") →
            observed fact r1 = observed fact r2) as Hagree.
  { intros fact0 r1 r2 _. rewrite Hsel.
    intros ->%list_elem_of_singleton ->%list_elem_of_singleton. reflexivity. }
  assert (results_df scenario (selected scenario (fact_eq "variant" "B")) ≠ []) as Hrows
    by (vm_compute; discriminate).
  split; [exact Hnew|]. split; [exact Hknown|]. split; [exact Hagree|].
  split; [exact Hrows|].
  exact (experiment_fact_not_checked elements scenario (fact_eq "variant" "B") "compiler"
           Hnew Hknown Hagree Hrows).
Defined.



(** The same call, with a column for every fact of the database. *)
Example scenario_compiler :
  compare elements scenario (fact_eq "variant" "B") "compiler" "latency"
  = Raise (ColumnNotFoundError "compiler").
Proof. vm_compute. reflexivity. Qed.

(** The table of the scenario: variant A with one sample of mean 10,
    variant B with one sample of mean 20, no standard deviation. *)
Example scenario_table :
  ∃ mA mB,
    compare elements scenario (fact_eq "os" "linux") "variant" "latency"
    = Ok [ {| group_key := FactCell (Some "A"); samples := 1; mean := Some mA; std := None |};
           {| group_key := FactCell (Some "B"); samples := 1; mean := Some mB; std := None |} ]
    ∧ mA = 10%R ∧ mB = 20%R.
Proof.
  eexists _, _. split; [vm_compute; reflexivity|].
  split; simpl; field.
Qed.

(** *** The further properties on the scenario *)

Lemma filter_antitone_witness :
  fact_eq "os" "linux" ⊆ <["variant" := "A"]> (fact_eq "os" "linux")
  ∧ selected scenario (<["variant" := "A"]> (fact_eq "os" "linux"))
    `sublist_of` selected scenario (fact_eq "os" "linux").
Proof.
  assert (fact_eq "os" "linux" ⊆ <["variant" := "A"]> (fact_eq "os" "linux")) as Hsub
    by (apply insert_subseteq; vm_compute; reflexivity).
  split; [exact Hsub|].
  exact (filter_antitone scenario (fact_eq "os" "linux")
           (<["variant" := "A"]> (fact_eq "os" "linux")) Hsub).
Defined.

Lemma results_df_selected_witness :
  NoDup (result_id <$> results scenario)
  ∧ results_df scenario (selected scenario (fact_eq "os" "linux"))
    = flat_df {| root_dir := ["results"]; results := [R1; R2] |}.
Proof.
  assert (NoDup (result_id <$> results scenario)) as Hids
    by (apply (bool_decide_unpack _); vm_compute; exact I).
  split; [exact Hids|].
  exact (results_df_selected scenario (fact_eq "os" "linux") Hids).
Defined.


Lemma empty_selection_error_only_witness :
  (∀ X : gset string, elements X ≡ₚ elements X)
  ∧ validate elements scenario (fact_eq "os" "macos") "variant" = Raise EmptySelectionError
  ∧ ∀ fact, (∃ r, r ∈ results scenario ∧ is_Some (facts r !! fact)) →
      fact = "variant" ∨ is_Some (fact_eq "os" "macos" !! fact).
Proof.
  split; [exact elements_order|].
  assert (validate elements scenario (fact_eq "os" "macos") "variant"
          = Raise EmptySelectionError) as Hv by (vm_compute; reflexivity).
  split; [exact Hv|].
  apply (empty_selection_error_only elements elements_order scenario (fact_eq "os" "macos")
           "variant" Hv).
  vm_compute. reflexivity.
Defined.

Lemma sample_counts_sum_witness :
  ∃ table,
    compare elements scenario (fact_eq "os" "linux") "variant" "latency" = Ok table
    ∧ sum_list (samples <$> table)
      = length (filter (λ row, row_metric row = "latency")
                  (results_df scenario (selected scenario (fact_eq "os" "linux")))).
Proof.
  assert (∃ table, compare elements scenario (fact_eq "os" "linux") "variant" "latency"
                   = Ok table) as [table Hok] by (eexists; vm_compute; reflexivity).
  exists table. split; [exact Hok|].
  exact (sample_counts_sum elements scenario (fact_eq "os" "linux") "variant" "latency"
           table Hok).
Defined.



Lemma group_by_metric_column_witness :
  validate elements scenario (<["variant" := "A"]> (fact_eq "os" "linux")) "metric"
  = Ok (results_df scenario [R1])
  ∧ (∃ row, row ∈ results_df scenario [R1] ∧ row_metric row = "latency")
  ∧ ∃ a,
      compare elements scenario (<["variant" := "A"]> (fact_eq "os" "linux")) "metric" "latency"
      = Ok [a]
      ∧ group_key a = StrCell "latency"
      ∧ samples a = length (filter (λ row, row_metric row = "latency")
                              (results_df scenario [R1])).
Proof.
  assert (validate elements scenario (<["variant" := "A"]> (fact_eq "os" "linux")) "metric"
          = Ok (results_df scenario [R1])) as Hv by (vm_compute; reflexivity).
  assert (∃ row, row ∈ results_df scenario [R1] ∧ row_metric row = "latency")
    as Hrow by (eexists; split; [vm_compute; left|reflexivity]).
  split; [exact Hv|]. split; [exact Hrow|].
  exact (group_by_metric_column elements scenario (<["variant" := "A"]> (fact_eq "os" "linux"))
           "latency" _ Hv Hrow).
Defined.

End Compare.

Module Importer.

(** ** The file system

    A tree: a file holds bytes, a directory lists its entries in the order
    in which the system enumerates them.  A path is resolved from the root
    of the tree, one component at a time. *)

Inductive node : Type :=
  | File (data : list byte)
  | Dir (entries : list (string * node)).

(** The errors of the system calls that [import_result] makes. *)
Inductive OSError : Type :=
  | FileExistsError
  | FileNotFoundError
  | NotADirectoryError
  | IsADirectoryError
  | SameFileError.

Fixpoint lookup_entry (c : string) (es : list (string * node)) : option node :=
  match es with
  | [] => None
  | (c', n) :: es' => if decide (c = c') then Some n else lookup_entry c es'
  end.

Fixpoint update_entry (c : string) (n : node) (es : list (string * node)) :
    list (string * node) :=
  match es with
  | [] => []
  | (c', n') :: es' =>
      if decide (c = c') then (c', n) :: es' else (c', n') :: update_entry c n es'
  end.

Fixpoint resolve (n : node) (p : path) : result OSError node :=
  match p with
  | [] => Ok n
  | c :: p' =>
      match n with
      | File _ => Raise NotADirectoryError
      | Dir es =>
          match lookup_entry c es with
          | Some n' => resolve n' p'
          | None => Raise FileNotFoundError
          end
      end
  end.

(** [path.is_dir()], [os.path.isdir]. *)
Definition is_dir (fs : node) (p : path) : bool :=
  match resolve fs p with
  | Ok (Dir _) => true
  | _ => false
  end.

(** [open(path, "rb")] and reading the file to its end. *)
Definition read (fs : node) (p : path) : result OSError (list byte) :=
  n ← resolve fs p;
  match n with
  | File data => Ok data
  | Dir _ => Raise IsADirectoryError
  end.

(** A system call that changes the tree at a path: it walks down to the
    last component, acts there on the node it finds ([leaf]) or creates
    what is missing ([missing], given the components that remain), and
    fails on the way down through a file. *)
Fixpoint at_path (leaf : node → result OSError node)
    (missing : path → result OSError node) (n : node) (p : path) : result OSError node :=
  match p with
  | [] => leaf n
  | c :: p' =>
      match n with
      | File _ => Raise NotADirectoryError
      | Dir es =>
          match lookup_entry c es with
          | Some n' =>
              n'' ← at_path leaf missing n' p';
              Ok (Dir (update_entry c n'' es))
          | None =>
              x ← missing p';
              Ok (Dir (es ++ [(c, x)]))
          end
      end
  end.

(** [os.mkdir]: the path must not exist, its parent must. *)
Definition mkdir : node → path → result OSError node :=
  at_path (λ _, Raise FileExistsError)
          (λ p', match p' with [] => Ok (Dir []) | _ => Raise FileNotFoundError end).

(** [os.makedirs(path, exist_ok=True)]: every missing directory of the
    path is created; a directory that exists is accepted, a file in the
    way is an error. *)
Definition new_dirs (p : path) : node := foldr (λ c n, Dir [(c, n)]) (Dir []) p.

Definition makedirs : node → path → result OSError node :=
  at_path (λ n, match n with Dir _ => Ok n | File _ => Raise FileExistsError end)
          (λ p', Ok (new_dirs p')).

(** [open(path, "wb")] and writing [data]: a file is replaced or created
    in an existing directory. *)
Definition write (data : list byte) : node → path → result OSError node :=
  at_path (λ n, match n with File _ => Ok (File data) | Dir _ => Raise IsADirectoryError end)
          (λ p', match p' with [] => Ok (File data) | _ => Raise FileNotFoundError end).

(** [path.name] and [path.parent]. *)
Definition name (p : path) : string := default "" (last p).
Definition parent (p : path) : path := removelast p.

(** [shutil.copy(src, dst)]: into [dst] when it is a directory, onto [dst]
    otherwise; [copyfile] refuses to copy a file onto itself, opens the
    source, then the destination. *)
Definition copy (fs : node) (src dst : path) : result OSError node :=
  let dst := if is_dir fs dst then dst ++ [name src] else dst in
  match resolve fs src with
  | Ok _ => if decide (src = dst) then Raise SameFileError
            else data ← read fs src; write data fs dst
  | Raise e => Raise e
  end.

(** [Path.walk()], top down: a directory yields its own triple (path,
    names of the directories in it, names of the other entries), then the
    triples of its directories, in the order of its entries.  [walk_from]
    gives the paths from the top of the walk, [walk] puts the top in
    front. *)
Definition dirnames (es : list (string * node)) : list string :=
  omap (λ e, match e.2 with Dir _ => Some e.1 | File _ => None end) es.

Definition filenames (es : list (string * node)) : list string :=
  omap (λ e, match e.2 with File _ => Some e.1 | Dir _ => None end) es.

Fixpoint walk_from (n : node) : list (path * list string * list string) :=
  match n with
  | File _ => []
  | Dir es =>
      ([], dirnames es, filenames es)
      :: (fix subdirs (es : list (string * node)) :=
            match es with
            | [] => []
            | (c, n') :: es' =>
                ((λ t : path * list string * list string, (c :: t.1.1, t.1.2, t.2))
                   <$> walk_from n')
                ++ subdirs es'
            end) es
  end.

Definition walk (top : path) (n : node) : list (path * list string * list string) :=
  (λ t : path * list string * list string, (top ++ t.1.1, t.1.2, t.2)) <$> walk_from n.

(** Lines 95-103: the pairs (current path of the file, its path under
    [artifacts/]), in the order of the generator. *)
Definition relative_to (p base : path) : path := drop (length base) p.

Definition iter_artifacts (fs : node) (artifact_paths : list path) : list (path * path) :=
  input_path ← artifact_paths;
  if is_dir fs input_path then
    match resolve fs input_path with
    | Ok d =>
        '(dirpath, _, fnames) ← walk input_path d;
        filename ← fnames;
        let cur_path := dirpath ++ [filename] in
        [(cur_path, relative_to cur_path input_path)]
    | Raise _ => []
    end
  else [(input_path, [name input_path])].

(** ** Hex digests *)

Definition hex_digit (n : N) : ascii :=
  match n with
  | 0 => "0" | 1 => "1" | 2 => "2" | 3 => "3" | 4 => "4" | 5 => "5" | 6 => "6"
  | 7 => "7" | 8 => "8" | 9 => "9" | 10 => "a" | 11 => "b" | 12 => "c"
  | 13 => "d" | 14 => "e" | _ => "f"
  end%N%char.

Fixpoint hex (bs : list byte) : string :=
  match bs with
  | [] => EmptyString
  | b :: bs' =>
      String (hex_digit (Byte.to_N b / 16)) (String (hex_digit (Byte.to_N b mod 16)) (hex bs'))
  end.

(** ** Programs on the file system

    A program runs on a file system and leaves a file system behind,
    also when it raises. *)
Definition io (A : Type) : Type := node → node * result OSError A.

#[global] Instance io_ret : MRet io := λ A a fs, (fs, Ok a).
#[global] Instance io_bind : MBind io := λ A B f m fs,
  match m fs with
  | (fs', Ok a) => f a fs'
  | (fs', Raise e) => (fs', Raise e)
  end.

(** A system call: the tree is changed on success only. *)
Definition syscall (call : node → result OSError node) : io unit := λ fs,
  match call fs with
  | Ok fs' => (fs', Ok ())
  | Raise e => (fs, Raise e)
  end.

(** A computation that reads the tree. *)
Definition inspect {A} (f : node → result OSError A) : io A := λ fs, (fs, f fs).

(** ** Facts about the file system *)

(** Two paths that part ways at some component. *)
Fixpoint diverge (p q : path) : bool :=
  match p, q with
  | a :: p', b :: q' => if decide (a = b) then diverge p' q' else true
  | _, _ => false
  end.

Lemma diverge_sym (p q : path) : diverge p q = diverge q p.
Proof.
  revert q. induction p as [|a p IH]; intros [|b q]; simpl; try done.
  destruct (decide (a = b)) as [->|Hne].
  - by rewrite decide_True.
  - by rewrite decide_False by congruence.
Qed.

Lemma diverge_app (p q x y : path) : diverge p q = true → diverge (p ++ x) (q ++ y) = true.
Proof.
  revert q. induction p as [|a p IH]; intros [|b q]; simpl; try done.
  destruct (decide (a = b)); [apply IH|done].
Qed.

Lemma diverge_app_l (p q x : path) : diverge p q = true → diverge (p ++ x) q = true.
Proof. intros Hd. rewrite <-(app_nil_r q). by apply diverge_app. Qed.

Lemma diverge_app_r (p q y : path) : diverge p q = true → diverge p (q ++ y) = true.
Proof. intros Hd. rewrite <-(app_nil_r p). by apply diverge_app. Qed.

Lemma diverge_ne (p q : path) : diverge p q = true → p ≠ q.
Proof.
  revert q. induction p as [|a p IH]; intros [|b q]; simpl; try done.
  destruct (decide (a = b)) as [->|Hne]; [|congruence].
  intros Hd [= ->]. by apply (IH q).
Qed.

Lemma diverge_siblings (d : path) (a b : string) :
  a ≠ b → diverge (d ++ [a]) (d ++ [b]) = true.
Proof.
  intros Hne. induction d as [|c d IH]; simpl.
  - by rewrite decide_False.
  - by rewrite decide_True.
Qed.

Lemma lookup_update_entry_eq (c : string) (x n : node) (es : list (string * node)) :
  lookup_entry c es = Some n → lookup_entry c (update_entry c x es) = Some x.
Proof.
  induction es as [|[c' n'] es IH]; simpl; [done|].
  destruct (decide (c = c')) as [->|Hne]; simpl.
  - by rewrite decide_True.
  - by rewrite decide_False.
Qed.

Lemma lookup_update_entry_ne (c c' : string) (x : node) (es : list (string * node)) :
  c ≠ c' → lookup_entry c' (update_entry c x es) = lookup_entry c' es.
Proof.
  intros Hne. induction es as [|[c0 n0] es IH]; simpl; [done|].
  destruct (decide (c = c0)) as [->|Hne0]; simpl.
  - destruct (decide (c' = c0)); [congruence|done].
  - destruct (decide (c' = c0)); [done|apply IH].
Qed.

Lemma lookup_entry_app_new (c : string) (x : node) (es : list (string * node)) :
  lookup_entry c es = None → lookup_entry c (es ++ [(c, x)]) = Some x.
Proof.
  induction es as [|[c' n'] es IH]; simpl.
  - by rewrite decide_True.
  - destruct (decide (c = c')); [done|apply IH].
Qed.

Lemma lookup_entry_app_ne (c c' : string) (x : node) (es : list (string * node)) :
  c ≠ c' → lookup_entry c' (es ++ [(c, x)]) = lookup_entry c' es.
Proof.
  intros Hne. induction es as [|[c0 n0] es IH]; simpl.
  - destruct (decide (c' = c)); [congruence|done].
  - destruct (decide (c' = c0)); [done|apply IH].
Qed.

Lemma resolve_app (n : node) (p q : path) :
  resolve n (p ++ q) = n' ← resolve n p; resolve n' q.
Proof.
  revert n. induction p as [|c p IH]; intros n; simpl; [done|].
  destruct n as [data|es]; [done|].
  destruct (lookup_entry c es) as [n'|]; [apply IH|done].
Qed.

Lemma resolve_prefix (n : node) (p q : path) (x : node) :
  resolve n (p ++ q) = Ok x → ∃ m, resolve n p = Ok m ∧ resolve m q = Ok x.
Proof.
  rewrite resolve_app. destruct (resolve n p) as [m|e]; [|done]. simpl. eauto.
Qed.

(** *** A change at a path leaves the paths that diverge from it alone *)

Lemma resolve_new_dirs (p q : path) :
  diverge p q = true → resolve (new_dirs p) q = Raise FileNotFoundError.
Proof.
  revert q. induction p as [|a p IH]; intros [|b q]; simpl; try done.
  destruct (decide (a = b)) as [->|Hne].
  - rewrite decide_True by done. apply IH.
  - intros _. by rewrite decide_False by congruence.
Qed.

Lemma at_path_frame (leaf : node → result OSError node)
    (missing : path → result OSError node) :
  (∀ p x q, missing p = Ok x → diverge p q = true → resolve x q = Raise FileNotFoundError) →
  ∀ p n q n', diverge p q = true → at_path leaf missing n p = Ok n' →
    resolve n' q = resolve n q.
Proof.
  intros Hmiss. induction p as [|c p IH]; intros n [|c' q] n'; simpl; try done.
  destruct n as [data|es]; [done|].
  destruct (decide (c = c')) as [<-|Hne].
  - destruct (lookup_entry c es) as [n0|] eqn:Hc.
    + destruct (at_path leaf missing n0 p) as [n1|e] eqn:Hat; [|done].
      intros Hd [= <-]. simpl. rewrite (lookup_update_entry_eq _ _ _ _ Hc).
      by apply (IH n0).
    + destruct (missing p) as [x|e] eqn:Hx; [|done].
      intros Hd [= <-]. simpl. rewrite (lookup_entry_app_new _ _ _ Hc).
      by apply (Hmiss p).
  - intros _. destruct (lookup_entry c es) as [n0|] eqn:Hc.
    + destruct (at_path leaf missing n0 p) as [n1|e]; [|done].
      intros [= <-]. simpl. by rewrite lookup_update_entry_ne.
    + destruct (missing p) as [x|e]; [|done].
      intros [= <-]. simpl. by rewrite lookup_entry_app_ne.
Qed.

Lemma mkdir_frame (fs fs' : node) (p q : path) :
  diverge p q = true → mkdir fs p = Ok fs' → resolve fs' q = resolve fs q.
Proof.
  apply at_path_frame. intros [|? ?] x q'; [|done]. done.
Qed.

Lemma makedirs_frame (fs fs' : node) (p q : path) :
  diverge p q = true → makedirs fs p = Ok fs' → resolve fs' q = resolve fs q.
Proof.
  apply at_path_frame. intros p' x q' [= <-]. apply resolve_new_dirs.
Qed.

Lemma write_frame (data : list byte) (fs fs' : node) (p q : path) :
  diverge p q = true → write data fs p = Ok fs' → resolve fs' q = resolve fs q.
Proof.
  apply at_path_frame. intros [|? ?] x q'; [|done]. done.
Qed.

(** *** A change below a directory is a change of the directory *)

(** The tree with the node at [d] replaced. *)
Fixpoint plug (n : node) (d : path) (x : node) : node :=
  match d with
  | [] => x
  | c :: d' =>
      match n with
      | File _ => n
      | Dir es =>
          match lookup_entry c es with
          | Some n' => Dir (update_entry c (plug n' d' x) es)
          | None => n
          end
      end
  end.

Lemma resolve_plug (n : node) (d : path) (sub x : node) :
  resolve n d = Ok sub → resolve (plug n d x) d = Ok x.
Proof.
  revert n. induction d as [|c d IH]; intros n; simpl; [done|].
  destruct n as [data|es]; [done|].
  destruct (lookup_entry c es) as [n'|] eqn:Hc; [|done].
  intros Hr. simpl. rewrite (lookup_update_entry_eq _ _ _ _ Hc). by apply IH.
Qed.

Lemma at_path_zoom (leaf : node → result OSError node)
    (missing : path → result OSError node) (n : node) (d q : path) (sub : node) :
  resolve n d = Ok sub →
  at_path leaf missing n (d ++ q)
  = sub' ← at_path leaf missing sub q; Ok (plug n d sub').
Proof.
  revert n. induction d as [|c d IH]; intros n; simpl.
  - intros [= ->]. by destruct (at_path leaf missing sub q).
  - destruct n as [data|es]; [done|].
    destruct (lookup_entry c es) as [n'|] eqn:Hc; [|done].
    intros Hr. rewrite (IH _ Hr).
    by destruct (at_path leaf missing sub q).
Qed.

Lemma at_path_dir (leaf : node → result OSError node)
    (missing : path → result OSError node) (es : list (string * node)) (q : path) (n' : node) :
  (∀ es0 n0, leaf (Dir es0) = Ok n0 → ∃ es1, n0 = Dir es1) →
  at_path leaf missing (Dir es) q = Ok n' → ∃ es', n' = Dir es'.
Proof.
  intros Hleaf. destruct q as [|c q]; simpl; [apply Hleaf|].
  destruct (lookup_entry c es) as [n0|].
  - destruct (at_path leaf missing n0 q); [|done]. intros [= <-]. eauto.
  - destruct (missing q); [|done]. intros [= <-]. eauto.
Qed.

Lemma at_path_below (leaf : node → result OSError node)
    (missing : path → result OSError node) (fs fs' : node) (d q : path) (sub : node) :
  resolve fs d = Ok sub → at_path leaf missing fs (d ++ q) = Ok fs' →
  ∃ sub', at_path leaf missing sub q = Ok sub' ∧ resolve fs' d = Ok sub'.
Proof.
  intros Hd. rewrite (at_path_zoom _ _ _ _ _ _ Hd).
  destruct (at_path leaf missing sub q) as [sub'|e]; [|done].
  intros [= <-]. exists sub'. split; [done|]. by eapply resolve_plug.
Qed.

(** The same call below two directories with the same content has the
    same outcome. *)
Lemma at_path_transport (leaf : node → result OSError node)
    (missing : path → result OSError node) (fsA fsB fsA' : node) (dA dB q : path) (sub : node) :
  resolve fsA dA = Ok sub → resolve fsB dB = Ok sub →
  at_path leaf missing fsA (dA ++ q) = Ok fsA' →
  ∃ fsB' sub', at_path leaf missing fsB (dB ++ q) = Ok fsB'
               ∧ resolve fsA' dA = Ok sub' ∧ resolve fsB' dB = Ok sub'.
Proof.
  intros HA HB Hop.
  destruct (at_path_below _ _ _ _ _ _ _ HA Hop) as (sub' & Hsub & HA').
  exists (plug fsB dB sub'), sub'. split; [|split; [done|by eapply resolve_plug]].
  rewrite (at_path_zoom _ _ _ _ _ _ HB). by rewrite Hsub.
Qed.

Lemma is_dir_below (fs : node) (d q : path) (sub : node) :
  resolve fs d = Ok sub → is_dir fs (d ++ q) = is_dir sub q.
Proof. intros Hd. unfold is_dir. by rewrite resolve_app, Hd. Qed.

Lemma read_ext (fs fs' : node) (p : path) :
  resolve fs' p = resolve fs p → read fs' p = read fs p.
Proof. unfold read. by intros ->. Qed.

(** The destination of [shutil.copy]. *)
Definition copy_dst (fs : node) (src dst : path) : path :=
  if is_dir fs dst then dst ++ [name src] else dst.

Lemma copy_ok (fs fs' : node) (src dst : path) :
  copy fs src dst = Ok fs' →
  ∃ data, read fs src = Ok data ∧ src ≠ copy_dst fs src dst
          ∧ write data fs (copy_dst fs src dst) = Ok fs'.
Proof.
  unfold copy. fold (copy_dst fs src dst).
  destruct (resolve fs src) as [n|e] eqn:Hsrc; [|done].
  destruct (decide (src = copy_dst fs src dst)) as [|Hne]; [done|].
  destruct (read fs src) as [data|e]; [|done]. simpl. eauto.
Qed.

Lemma copy_intro (fs fs' : node) (src dst : path) (data : list byte) :
  read fs src = Ok data → src ≠ copy_dst fs src dst →
  write data fs (copy_dst fs src dst) = Ok fs' →
  copy fs src dst = Ok fs'.
Proof.
  intros Hread Hne Hw. unfold copy. fold (copy_dst fs src dst).
  unfold read in Hread. destruct (resolve fs src) as [n|e] eqn:Hsrc; [|done].
  rewrite decide_False by done.
  unfold read. rewrite Hsrc. simpl in *. by rewrite Hread.
Qed.

Lemma copy_dst_below (fs : node) (src d q : path) (sub : node) :
  resolve fs d = Ok sub →
  copy_dst fs src (d ++ q) = d ++ (if is_dir sub q then q ++ [name src] else q).
Proof.
  intros Hd. unfold copy_dst. rewrite (is_dir_below _ _ _ _ Hd).
  destruct (is_dir sub q); [by rewrite <-app_assoc|done].
Qed.

Lemma copy_frame (fs fs' : node) (src d q x : path) (sub : node) :
  resolve fs d = Ok sub → diverge d x = true →
  copy fs src (d ++ q) = Ok fs' → resolve fs' x = resolve fs x.
Proof.
  intros Hd Hdiv (data & _ & _ & Hw)%copy_ok.
  rewrite (copy_dst_below _ _ _ _ _ Hd) in Hw.
  eapply write_frame; [|done]. by apply diverge_app_l.
Qed.

Lemma copy_below (fs fs' : node) (src d q : path) (sub : node) :
  resolve fs d = Ok sub → copy fs src (d ++ q) = Ok fs' →
  ∃ data sub', write data sub (if is_dir sub q then q ++ [name src] else q) = Ok sub'
               ∧ resolve fs' d = Ok sub'.
Proof.
  intros Hd (data & _ & _ & Hw)%copy_ok.
  rewrite (copy_dst_below _ _ _ _ _ Hd) in Hw.
  destruct (at_path_below _ _ _ _ _ _ _ Hd Hw) as (sub' & ? & ?). by exists data, sub'.
Qed.

Lemma copy_transport (fsA fsB fsA' : node) (src dA dB q : path) (sub : node) :
  resolve fsA dA = Ok sub → resolve fsB dB = Ok sub →
  resolve fsB src = resolve fsA src →
  diverge dB src = true →
  copy fsA src (dA ++ q) = Ok fsA' →
  ∃ fsB' sub', copy fsB src (dB ++ q) = Ok fsB'
               ∧ resolve fsA' dA = Ok sub' ∧ resolve fsB' dB = Ok sub'.
Proof.
  intros HA HB Hsrc Hdiv (data & Hread & _ & Hw)%copy_ok.
  rewrite (copy_dst_below _ _ _ _ _ HA) in Hw.
  destruct (at_path_transport _ _ _ fsB _ _ dB _ _ HA HB Hw) as (fsB' & sub' & HwB & ? & ?).
  exists fsB', sub'. split; [|done].
  eapply copy_intro.
  - by rewrite (read_ext _ _ _ Hsrc).
  - rewrite (copy_dst_below _ _ _ _ _ HB). apply not_eq_sym, diverge_ne.
    by apply diverge_app_l.
  - by rewrite (copy_dst_below _ _ _ _ _ HB).
Qed.

(** *** The generator *)

Lemma iter_artifacts_ext (fs fs' : node) (artifact_paths : list path) :
  (∀ input_path, input_path ∈ artifact_paths →
     resolve fs' input_path = resolve fs input_path) →
  iter_artifacts fs' artifact_paths = iter_artifacts fs artifact_paths.
Proof.
  intros Hsame. unfold iter_artifacts.
  induction artifact_paths as [|input_path paths IH]; [done|].
  rewrite !bind_cons. rewrite IH by (intros ? ?; apply Hsame; by right).
  unfold is_dir. by rewrite (Hsame input_path) by left.
Qed.

Lemma elem_of_walk (top : path) (n : node) (t : path * list string * list string) :
  t ∈ walk top n → ∃ r, t.1.1 = top ++ r.
Proof.
  unfold walk. intros (t0 & -> & _)%list_elem_of_fmap. simpl. eauto.
Qed.

Lemma elem_of_iter_artifacts (fs : node) (artifact_paths : list path) (art : path * path) :
  art ∈ iter_artifacts fs artifact_paths →
  ∃ input_path r, input_path ∈ artifact_paths ∧ art.1 = input_path ++ r.
Proof.
  unfold iter_artifacts. intros (input_path & Hart & Hin)%list_elem_of_bind.
  exists input_path. destruct (is_dir fs input_path).
  - destruct (resolve fs input_path) as [d|e]; [|by apply elem_of_nil in Hart].
    apply list_elem_of_bind in Hart as ([[dirpath ds] fnames] & Hart & Ht).
    apply list_elem_of_bind in Hart as (filename & Hart & _).
    apply list_elem_of_singleton in Hart as ->. simpl.
    apply elem_of_walk in Ht as [r Hr]. simpl in Hr. subst dirpath.
    exists (r ++ [filename]). by rewrite app_assoc.
  - apply list_elem_of_singleton in Hart as ->. exists []. by rewrite app_nil_r.
Qed.

Lemma iter_artifacts_diverge (fs : node) (artifact_paths : list path) (d : path)
    (art : path * path) :
  Forall (λ input_path, diverge d input_path = true) artifact_paths →
  art ∈ iter_artifacts fs artifact_paths → diverge d art.1 = true.
Proof.
  intros Hall (input_path & r & Hin & ->)%elem_of_iter_artifacts.
  rewrite Forall_forall in Hall. by apply diverge_app_r, Hall.
Qed.

(** *** [os.mkdir] *)

Lemma mkdir_exists (fs : node) (p : path) (x : node) :
  resolve fs p = Ok x → mkdir fs p = Raise FileExistsError.
Proof.
  unfold mkdir. revert fs. induction p as [|c p IH]; intros fs; simpl; [done|].
  destruct fs as [data|es]; [done|].
  destruct (lookup_entry c es) as [n'|]; [|done].
  intros Hr. by rewrite (IH _ Hr).
Qed.

Lemma mkdir_new (fs fs' : node) (d : path) (c : string) :
  mkdir fs (d ++ [c]) = Ok fs' →
  (∃ es, resolve fs d = Ok (Dir es) ∧ lookup_entry c es = None)
  ∧ resolve fs (d ++ [c]) = Raise FileNotFoundError
  ∧ resolve fs' (d ++ [c]) = Ok (Dir []).
Proof.
  unfold mkdir. revert fs fs'. induction d as [|c0 d IH]; intros fs fs'; simpl.
  - destruct fs as [data|es]; [done|].
    destruct (lookup_entry c es) as [n'|] eqn:Hc; [done|].
    intros [= <-]. split; [by exists es|]. split; [done|].
    simpl. by rewrite (lookup_entry_app_new _ _ _ Hc).
  - destruct fs as [data|es]; [done|].
    destruct (lookup_entry c0 es) as [n0|] eqn:Hc0.
    + destruct (at_path _ _ n0 (d ++ [c])) as [n1|e] eqn:Hat; [|done].
      intros [= <-]. destruct (IH _ _ Hat) as (Hd & Hold & Hnew).
      split; [done|]. split; [done|].
      simpl. by rewrite (lookup_update_entry_eq _ _ _ _ Hc0).
    + by destruct d.
Qed.

Lemma mkdir_intro (fs : node) (d : path) (c : string) (es : list (string * node)) :
  resolve fs d = Ok (Dir es) → lookup_entry c es = None →
  ∃ fs', mkdir fs (d ++ [c]) = Ok fs'.
Proof.
  intros Hd Hc. unfold mkdir. rewrite (at_path_zoom _ _ _ _ _ _ Hd).
  simpl. rewrite Hc. simpl. eauto.
Qed.

(** *** Strings *)

Lemma length_append (s1 s2 : string) :
  String.length (s1 +:+ s2) = String.length s1 + String.length s2.
Proof. induction s1 as [|a s1 IH]; simpl; [done|by rewrite IH]. Qed.

Lemma append_inj_r (s1 s2 x : string) : s1 +:+ x = s2 +:+ x → s1 = s2.
Proof.
  revert s2. induction s1 as [|a s1 IH]; intros [|b s2]; [done| | |].
  - intros Heq. apply (f_equal String.length) in Heq.
    rewrite !length_append in Heq. simpl in Heq. lia.
  - intros Heq. apply (f_equal String.length) in Heq.
    rewrite !length_append in Heq. simpl in Heq. lia.
  - intros Heq. change (String a (s1 +:+ x) = String b (s2 +:+ x)) in Heq.
    injection Heq as -> Heq. by rewrite (IH _ Heq).
Qed.

Lemma length_hex (bs : list byte) : String.length (hex bs) = 2 * length bs.
Proof. induction bs as [|b bs IH]; simpl; [done|]. rewrite IH. lia. Qed.

Lemma length_substring_0 (n : nat) (s : string) :
  n ≤ String.length s → String.length (String.substring 0 n s) = n.
Proof.
  revert s. induction n as [|n IH]; intros [|a s]; simpl; try done; try lia.
  intros Hle. rewrite IH; [done|lia].
Qed.

Lemma substring_0_prefix (n : nat) (s : string) :
  ∃ rest, s = String.substring 0 n s +:+ rest.
Proof.
  revert s. induction n as [|n IH]; intros s.
  - exists s. by destruct s.
  - destruct s as [|a s]; simpl; [by exists EmptyString|].
    destruct (IH s) as [rest Hrest]. exists rest. rewrite Hrest at 1. reflexivity.
Qed.

Section import_result.
(** [hashlib.sha256]: from the bytes fed to the hash object to the
    digest. *)
Variable sha256 : list byte → list byte.

(** A hash object is the bytes it was fed so far: [update] appends,
    [hexdigest] hashes them all. *)
Definition update (hash : list byte) (data : list byte) : list byte := hash ++ data.
Definition hexdigest (hash : list byte) : string := hex (sha256 hash).

(** [hashlib.file_digest(f, "sha256").digest()] *)
Definition file_digest (data : list byte) : list byte := sha256 data.

(** Lines 106-112: the loop that feeds the digest of every artifact to
    the hash object. *)
Fixpoint hash_artifacts (fs : node) (arts : list (path * path)) (hash : list byte) :
    result OSError (list byte) :=
  match arts with
  | [] => Ok hash
  | (path, _) :: arts' =>
      data ← read fs path;
      hash_artifacts fs arts' (update hash (file_digest data))
  end.

(** [hash.hexdigest()[:12]] of line 115. *)
Definition short_hash (fs : node) (artifact_paths : list path) : result OSError string :=
  hash ← hash_artifacts fs (iter_artifacts fs artifact_paths) [];
  Ok (String.substring 0 12 (hexdigest hash)).

(** Line 115: [db.root_dir / f"{test_name}:{...}"], for a test name that
    is one path component. *)
Definition result_dir {Value} (db : Db Value) (test_name short : string) : path :=
  root_dir db ++ [test_name +:+ ":" +:+ short].

(** Lines 120-126: the loop that copies the artifacts. *)
Fixpoint copy_artifacts (artifacts_dir : path) (arts : list (path * path))
    (num_copied : nat) : io nat :=
  match arts with
  | [] => mret num_copied
  | (cur_path, artifact_relpath) :: arts' =>
      let artifact_path := artifacts_dir ++ artifact_relpath in
      _ ← syscall (λ fs, makedirs fs (parent artifact_path));
      _ ← syscall (λ fs, copy fs cur_path artifact_path);
      copy_artifacts artifacts_dir arts' (S num_copied)
  end.

(** The function [import_result] (lines 84-128).  Its value is the
    number of artifacts copied, which line 128 logs.  The second pass of
    the generator (line 120) is run here when the loop starts, on the
    file system that [os.mkdir] leaves; the program runs it step by step
    between the copies.  The two agree when no input path is the
    database root or a directory above it: the copies land below the new
    result directory, outside every directory that the generator walks.
    The theorems on what the second pass enumerates carry that
    condition. *)
Definition import_result {Value} (db : Db Value) (test_name : string)
    (artifact_paths : list path) : io nat :=
  short ← inspect (λ fs, short_hash fs artifact_paths);
  let result_dir := result_dir db test_name short in
  _ ← syscall (λ fs, mkdir fs result_dir);
  let artifacts_dir := result_dir ++ ["artifacts"] in
  arts ← inspect (λ fs, Ok (iter_artifacts fs artifact_paths));
  copy_artifacts artifacts_dir arts 0.

(** *** The copy loop *)

Lemma copy_artifacts_cons (artifacts_dir cur_path artifact_relpath : path)
    (arts : list (path * path)) (num_copied : nat) (fs : node) :
  copy_artifacts artifacts_dir ((cur_path, artifact_relpath) :: arts) num_copied fs
  = match makedirs fs (parent (artifacts_dir ++ artifact_relpath)) with
    | Ok fs1 =>
        match copy fs1 cur_path (artifacts_dir ++ artifact_relpath) with
        | Ok fs2 => copy_artifacts artifacts_dir arts (S num_copied) fs2
        | Raise e => (fs1, Raise e)
        end
    | Raise e => (fs, Raise e)
    end.
Proof.
  simpl. unfold mbind, io_bind, syscall.
  destruct (makedirs fs (parent (artifacts_dir ++ artifact_relpath))) as [fs1|e]; [|done].
  by destruct (copy fs1 cur_path (artifacts_dir ++ artifact_relpath)).
Qed.

Lemma parent_artifact (d rel : path) :
  parent ((d ++ ["artifacts"]) ++ rel) = d ++ parent ("artifacts" :: rel).
Proof. unfold parent. rewrite <-app_assoc. by apply removelast_app. Qed.

Lemma makedirs_dir (es : list (string * node)) (q : path) (n' : node) :
  makedirs (Dir es) q = Ok n' → ∃ es', n' = Dir es'.
Proof. apply at_path_dir. intros es0 n0 [= <-]. eauto. Qed.

Lemma write_dir (data : list byte) (es : list (string * node)) (q : path) (n' : node) :
  write data (Dir es) q = Ok n' → ∃ es', n' = Dir es'.
Proof. apply at_path_dir. intros es0 n0 ?. done. Qed.

(** The loop works below the result directory: the directory stays a
    directory, and what diverges from it stays as it is. *)
Lemma copy_artifacts_below (d : path) (arts : list (path * path)) :
  ∀ (num_copied : nat) (fs fs' : node) (o : result OSError nat) (es : list (string * node)),
    resolve fs d = Ok (Dir es) →
    copy_artifacts (d ++ ["artifacts"]) arts num_copied fs = (fs', o) →
    (∃ es', resolve fs' d = Ok (Dir es'))
    ∧ ∀ x, diverge d x = true → resolve fs' x = resolve fs x.
Proof.
  induction arts as [|[cur rel] arts IH]; intros k fs fs' o es Hd.
  - intros [= <- <-]. eauto.
  - rewrite copy_artifacts_cons, parent_artifact.
    destruct (makedirs fs (d ++ parent ("artifacts" :: rel))) as [fs1|e] eqn:Hmk;
      [|intros [= <- <-]; eauto].
    destruct (at_path_below _ _ _ _ _ _ _ Hd Hmk) as (sub1 & Hsub1 & Hd1).
    apply makedirs_dir in Hsub1 as [es1 ->].
    assert (∀ x, diverge d x = true → resolve fs1 x = resolve fs x) as Hframe1.
    { intros x Hx. eapply makedirs_frame; [|done]. by apply diverge_app_l. }
    rewrite <-app_assoc.
    destruct (copy fs1 cur (d ++ ["artifacts"] ++ rel)) as [fs2|e] eqn:Hcp;
      [|intros [= <- <-]; eauto].
    destruct (copy_below _ _ _ _ _ _ Hd1 Hcp) as (data & sub2 & Hsub2 & Hd2).
    apply write_dir in Hsub2 as [es2 ->].
    intros Hloop. destruct (IH _ _ _ _ _ Hd2 Hloop) as [Hdir Hframe].
    split; [done|]. intros x Hx. rewrite (Hframe x Hx), <-(Hframe1 x Hx).
    by eapply copy_frame.
Qed.

(** Two runs of the loop below two directories with the same content,
    from sources that both file systems hold alike: when one copies
    everything, so does the other. *)
Lemma copy_artifacts_transport (dA dB : path) (arts : list (path * path)) :
  ∀ (num_copied n : nat) (fsA fsB fsA' : node) (sub : node),
    resolve fsA dA = Ok sub → resolve fsB dB = Ok sub →
    (∀ art, art ∈ arts →
       diverge dA art.1 = true ∧ diverge dB art.1 = true
       ∧ resolve fsB art.1 = resolve fsA art.1) →
    copy_artifacts (dA ++ ["artifacts"]) arts num_copied fsA = (fsA', Ok n) →
    ∃ fsB', copy_artifacts (dB ++ ["artifacts"]) arts num_copied fsB = (fsB', Ok n).
Proof.
  induction arts as [|[cur rel] arts IH]; intros k n fsA fsB fsA' sub HA HB Hsrc.
  - intros [= <- <-]. by exists fsB.
  - rewrite !copy_artifacts_cons, !parent_artifact.
    destruct (Hsrc (cur, rel)) as (HdA & HdB & Hcur); [left|]. simpl in HdA, HdB, Hcur.
    destruct (makedirs fsA (dA ++ parent ("artifacts" :: rel))) as [fsA1|e] eqn:HmkA; [|done].
    destruct (at_path_transport _ _ _ fsB _ _ dB _ _ HA HB HmkA)
      as (fsB1 & sub1 & HmkB & HA1 & HB1).
    unfold makedirs in HmkA, HmkB |- *. rewrite HmkB.
    assert (∀ x, diverge dA x = true → resolve fsA1 x = resolve fsA x) as HframeA.
    { intros x Hx. eapply makedirs_frame; [|exact HmkA]. by apply diverge_app_l. }
    assert (∀ x, diverge dB x = true → resolve fsB1 x = resolve fsB x) as HframeB.
    { intros x Hx. eapply makedirs_frame; [|exact HmkB]. by apply diverge_app_l. }
    rewrite <-!app_assoc.
    destruct (copy fsA1 cur (dA ++ ["artifacts"] ++ rel)) as [fsA2|e] eqn:HcpA; [|done].
    assert (resolve fsB1 cur = resolve fsA1 cur) as Hcur1
      by (by rewrite HframeA, HframeB).
    destruct (copy_transport _ fsB1 _ _ _ dB _ _ HA1 HB1 Hcur1 HdB HcpA)
      as (fsB2 & sub2 & HcpB & HA2 & HB2).
    rewrite HcpB. apply (IH _ _ _ _ _ sub2); [done..|].
    intros art Hart. destruct (Hsrc art) as (HaA & HaB & Ha); [by right|].
    split; [done|]. split; [done|].
    rewrite (copy_frame _ _ _ _ _ _ _ HB1 HaB HcpB).
    rewrite (copy_frame _ _ _ _ _ _ _ HA1 HaA HcpA).
    by rewrite HframeA, HframeB.
Qed.

(** *** The hash *)

Lemma hash_artifacts_ext (fs fs' : node) (arts : list (path * path)) :
  (∀ art, art ∈ arts → resolve fs' art.1 = resolve fs art.1) →
  ∀ hash, hash_artifacts fs' arts hash = hash_artifacts fs arts hash.
Proof.
  induction arts as [|[cur rel] arts IH]; intros Hsame hash; simpl; [done|].
  rewrite (read_ext fs fs' cur) by (apply (Hsame (cur, rel)); left).
  destruct (read fs cur) as [data|e]; simpl; [|done].
  apply IH. intros art Hart. apply Hsame. by right.
Qed.

Lemma hash_artifacts_contents (fs : node) (arts : list (path * path))
    (contents : list (list byte)) :
  Forall2 (λ art data, read fs art.1 = Ok data) arts contents →
  ∀ hash, hash_artifacts fs arts hash = Ok (hash ++ concat (sha256 <$> contents)).
Proof.
  induction 1 as [|[cur rel] data arts contents Hread _ IH]; intros hash; simpl.
  - by rewrite app_nil_r.
  - simpl in Hread. rewrite Hread. simpl. rewrite IH.
    unfold update, file_digest. by rewrite <-app_assoc.
Qed.

Lemma hash_artifacts_inv (fs : node) (arts : list (path * path)) :
  ∀ hash hash', hash_artifacts fs arts hash = Ok hash' →
    ∃ contents, Forall2 (λ art data, read fs art.1 = Ok data) arts contents
                ∧ hash' = hash ++ concat (sha256 <$> contents).
Proof.
  induction arts as [|[cur rel] arts IH]; intros hash hash'; simpl.
  - intros [= <-]. exists []. split; [constructor|]. by rewrite app_nil_r.
  - destruct (read fs cur) as [data|e] eqn:Hread; [|done]. simpl.
    intros (contents & Hall & ->)%IH. exists (data :: contents).
    split; [by constructor|]. unfold update, file_digest. simpl. by rewrite <-app_assoc.
Qed.

(** *** [import_result], step by step *)

Lemma import_result_unfold {Value} (db : Db Value) (test_name : string)
    (artifact_paths : list path) (fs : node) :
  import_result db test_name artifact_paths fs
  = match short_hash fs artifact_paths with
    | Ok short =>
        match mkdir fs (result_dir db test_name short) with
        | Ok fs1 =>
            copy_artifacts (result_dir db test_name short ++ ["artifacts"])
              (iter_artifacts fs1 artifact_paths) 0 fs1
        | Raise e => (fs, Raise e)
        end
    | Raise e => (fs, Raise e)
    end.
Proof.
  unfold import_result, mbind, io_bind, inspect, syscall.
  destruct (short_hash fs artifact_paths) as [short|e]; [|done].
  by destruct (mkdir fs (result_dir db test_name short)).
Qed.

Lemma short_hash_ext (fs fs' : node) (artifact_paths : list path) :
  (∀ x, (∃ input_path r, input_path ∈ artifact_paths ∧ x = input_path ++ r) →
     resolve fs' x = resolve fs x) →
  iter_artifacts fs' artifact_paths = iter_artifacts fs artifact_paths
  ∧ short_hash fs' artifact_paths = short_hash fs artifact_paths.
Proof.
  intros Hsame.
  assert (iter_artifacts fs' artifact_paths = iter_artifacts fs artifact_paths) as Hiter.
  { apply iter_artifacts_ext. intros input_path Hin. apply Hsame.
    exists input_path, []. by rewrite app_nil_r. }
  split; [done|]. unfold short_hash. rewrite Hiter.
  rewrite (hash_artifacts_ext fs fs'); [done|].
  intros art Hart. by eapply Hsame, elem_of_iter_artifacts.
Qed.

Lemma import_result_exists {Value} (db : Db Value) (test_name : string)
    (artifact_paths : list path) (fs : node) (short : string) (x : node) :
  short_hash fs artifact_paths = Ok short →
  resolve fs (result_dir db test_name short) = Ok x →
  import_result db test_name artifact_paths fs = (fs, Raise FileExistsError).
Proof.
  intros Hshort Hdir. rewrite import_result_unfold, Hshort.
  by rewrite (mkdir_exists _ _ _ Hdir).
Qed.

Lemma import_result_ok {Value} (db : Db Value) (test_name : string)
    (artifact_paths : list path) (fs fs' : node) (n : nat) :
  import_result db test_name artifact_paths fs = (fs', Ok n) →
  ∃ short fs1,
    short_hash fs artifact_paths = Ok short
    ∧ mkdir fs (result_dir db test_name short) = Ok fs1
    ∧ copy_artifacts (result_dir db test_name short ++ ["artifacts"])
        (iter_artifacts fs1 artifact_paths) 0 fs1 = (fs', Ok n)
    ∧ resolve fs (result_dir db test_name short) = Raise FileNotFoundError
    ∧ resolve fs1 (result_dir db test_name short) = Ok (Dir [])
    ∧ (∃ es, resolve fs' (result_dir db test_name short) = Ok (Dir es))
    ∧ ∀ x, diverge (result_dir db test_name short) x = true → resolve fs' x = resolve fs x.
Proof.
  rewrite import_result_unfold.
  destruct (short_hash fs artifact_paths) as [short|e] eqn:Hshort; [|done].
  destruct (mkdir fs (result_dir db test_name short)) as [fs1|e] eqn:Hmk; [|done].
  intros Hloop. exists short, fs1.
  destruct (mkdir_new _ _ _ _ Hmk) as (_ & Hold & Hnew).
  destruct (copy_artifacts_below _ _ _ _ _ _ _ Hnew Hloop) as [Hdir Hframe].
  repeat (split; [done|]).
  intros x Hx. rewrite (Hframe x Hx). by eapply mkdir_frame.
Qed.

(** *** The hash names the result *)

(** C10.  The short hash is a function of the contents of the enumerated
    artifacts, in their order: two imports, on any two file systems and
    with any paths, whose artifacts have the same contents in the same
    order compute the same short hash, and under one test name they
    create the same result directory. *)
Theorem short_hash_contents_only {Value} (db : Db Value) (test_name : string)
    (fs1 fs2 : node) (paths1 paths2 : list path) (contents : list (list byte)) :
  Forall2 (λ art data, read fs1 art.1 = Ok data) (iter_artifacts fs1 paths1) contents →
  Forall2 (λ art data, read fs2 art.1 = Ok data) (iter_artifacts fs2 paths2) contents →
  ∃ short,
    short_hash fs1 paths1 = Ok short
    ∧ short_hash fs2 paths2 = Ok short
    ∧ (∀ fs1' n, import_result db test_name paths1 fs1 = (fs1', Ok n) →
         ∃ es, resolve fs1' (root_dir db ++ [test_name +:+ ":" +:+ short]) = Ok (Dir es))
    ∧ (∀ fs2' n, import_result db test_name paths2 fs2 = (fs2', Ok n) →
         ∃ es, resolve fs2' (root_dir db ++ [test_name +:+ ":" +:+ short]) = Ok (Dir es)).
Proof.
  intros H1 H2.
  exists (String.substring 0 12 (hexdigest (concat (sha256 <$> contents)))).
  assert (short_hash fs1 paths1
          = Ok (String.substring 0 12 (hexdigest (concat (sha256 <$> contents))))) as Hs1.
  { unfold short_hash. by rewrite (hash_artifacts_contents _ _ _ H1). }
  assert (short_hash fs2 paths2
          = Ok (String.substring 0 12 (hexdigest (concat (sha256 <$> contents))))) as Hs2.
  { unfold short_hash. by rewrite (hash_artifacts_contents _ _ _ H2). }
  split; [done|]. split; [done|]. split.
  - intros fs1' n (short & _ & Hs & _ & _ & _ & _ & Hdir & _)%import_result_ok.
    rewrite Hs1 in Hs. injection Hs as <-. exact Hdir.
  - intros fs2' n (short & _ & Hs & _ & _ & _ & _ & Hdir & _)%import_result_ok.
    rewrite Hs2 in Hs. injection Hs as <-. exact Hdir.
Qed.

(** *** At most one import *)

(** C5.  When the result directory of an import exists already, the
    import raises the file-exists error of [os.mkdir] and leaves the
    file system as it was.  Hence, after an import has passed, every
    import under the same test name of artifacts with the same short
    hash raises that error, and so does the same import again when its
    artifact paths lie outside the result directory.  The import of the
    same artifacts under another test name has another directory name,
    and it passes, copying as many files, when that directory does not
    exist and the artifact paths lie outside both result directories. *)
Theorem import_at_most_once {Value} (db : Db Value) (test_name : string)
    (artifact_paths : list path) (fs : node) :
  (∀ short x,
     short_hash fs artifact_paths = Ok short →
     resolve fs (root_dir db ++ [test_name +:+ ":" +:+ short]) = Ok x →
     import_result db test_name artifact_paths fs = (fs, Raise FileExistsError))
  ∧ (∀ fs1 n,
       import_result db test_name artifact_paths fs = (fs1, Ok n) →
       ∃ short,
         short_hash fs artifact_paths = Ok short
         ∧ (∀ paths',
              short_hash fs1 paths' = Ok short →
              import_result db test_name paths' fs1 = (fs1, Raise FileExistsError))
         ∧ (Forall (λ input_path,
                      diverge (root_dir db ++ [test_name +:+ ":" +:+ short]) input_path = true)
              artifact_paths →
            import_result db test_name artifact_paths fs1 = (fs1, Raise FileExistsError))
         ∧ ∀ other_name,
             other_name ≠ test_name →
             Forall (λ input_path,
                       diverge (root_dir db ++ [test_name +:+ ":" +:+ short]) input_path = true
                       ∧ diverge (root_dir db ++ [other_name +:+ ":" +:+ short]) input_path
                         = true)
               artifact_paths →
             resolve fs (root_dir db ++ [other_name +:+ ":" +:+ short])
             = Raise FileNotFoundError →
             root_dir db ++ [other_name +:+ ":" +:+ short]
             ≠ root_dir db ++ [test_name +:+ ":" +:+ short]
             ∧ ∃ fs2, import_result db other_name artifact_paths fs1 = (fs2, Ok n)).
Proof.
  split; [intros short x; apply import_result_exists|].
  intros fs1 n Himp.
  destruct (import_result_ok _ _ _ _ _ _ Himp)
    as (short & fsA & Hshort & HmkA & HloopA & _ & HnewA & [esA HdirA] & HframeA).
  exists short. split; [done|].
  set (dA := root_dir db ++ [test_name +:+ ":" +:+ short]) in *.
  change (result_dir db test_name short) with dA in *.
  assert (∀ paths', short_hash fs1 paths' = Ok short →
            import_result db test_name paths' fs1 = (fs1, Raise FileExistsError)) as Hagain.
  { intros paths' Hs. by eapply import_result_exists. }
  split; [done|].
  assert (Forall (λ input_path, diverge dA input_path = true) artifact_paths →
          iter_artifacts fs1 artifact_paths = iter_artifacts fs artifact_paths
          ∧ short_hash fs1 artifact_paths = Ok short) as Hsame.
  { intros Hout. rewrite Forall_forall in Hout.
    destruct (short_hash_ext fs fs1 artifact_paths) as [Hiter1 Hshort1].
    { intros x (input_path & r & Hin & ->). by apply HframeA, diverge_app_r, Hout. }
    by rewrite Hshort1. }
  split; [intros Hout; by apply Hagain, Hsame|].
  intros other_name Hother Hout Habsent.
  set (dB := root_dir db ++ [other_name +:+ ":" +:+ short]) in *.
  assert (∀ x, (∃ input_path r, input_path ∈ artifact_paths ∧ x = input_path ++ r) →
            diverge dA x = true ∧ diverge dB x = true) as Hdiv.
  { intros x (input_path & r & Hin & ->). rewrite Forall_forall in Hout.
    destruct (Hout _ Hin). split; by apply diverge_app_r. }
  destruct Hsame as [Hiter1 Hshort1].
  { eapply Forall_impl; [exact Hout|]. by intros ? [? _]. }
  assert (diverge dA dB = true) as HAB.
  { apply diverge_siblings. intros Heq. apply append_inj_r in Heq. by apply Hother. }
  split; [apply not_eq_sym, diverge_ne, HAB|].
  (* the second import gets past [os.mkdir] *)
  destruct (resolve_prefix _ _ _ _ HdirA) as (root & Hroot & Hchild).
  assert (resolve fs1 dB = Raise FileNotFoundError) as Habsent1
    by (by rewrite (HframeA dB HAB)).
  assert (∃ es1, root = Dir es1
                 ∧ lookup_entry (other_name +:+ ":" +:+ short) es1 = None)
    as (es1 & -> & Hfree).
  { unfold dB in Habsent1. rewrite resolve_app, Hroot in Habsent1. simpl in *.
    destruct root as [data|es1]; [done|]. exists es1. split; [done|].
    by destruct (lookup_entry (other_name +:+ ":" +:+ short) es1). }
  destruct (mkdir_intro _ _ _ _ Hroot Hfree) as [fsB HmkB]. fold dB in HmkB.
  destruct (mkdir_new _ _ _ _ HmkB) as (_ & _ & HnewB). fold dB in HnewB.
  assert (∀ x, diverge dB x = true → resolve fsB x = resolve fs1 x) as HframeB.
  { intros x Hx. by eapply mkdir_frame. }
  (* both runs enumerate the same artifacts *)
  destruct (short_hash_ext fs1 fsB artifact_paths) as [HiterB HshortB].
  { intros x Hx. by apply HframeB, Hdiv. }
  destruct (short_hash_ext fs fsA artifact_paths) as [HiterA _].
  { intros x Hx. eapply mkdir_frame; [|exact HmkA]. by apply Hdiv. }
  rewrite import_result_unfold, Hshort1.
  change (result_dir db other_name short) with dB. rewrite HmkB.
  rewrite HiterB, Hiter1, <-HiterA.
  apply (copy_artifacts_transport dA dB _ _ _ fsA fsB fs1 (Dir [])); [done..| |done].
  intros art Hart. apply elem_of_iter_artifacts in Hart.
  destruct (Hdiv _ Hart) as [HartA HartB].
  split; [done|]. split; [done|].
  rewrite (HframeB _ HartB).
  destruct (copy_artifacts_below _ _ _ _ _ _ _ HnewA HloopA) as [_ Hloopframe].
  by apply Hloopframe.
Qed.

(** From here on a digest has 32 bytes. *)
Hypothesis sha256_length : ∀ data, length (sha256 data) = 32.

(** C6.  The short hash is the first 12 characters of the hex digest of
    the SHA-256 hash of the concatenated SHA-256 digests of the contents
    of the artifacts, in the order of the generator; and an import that
    passes has created the directory of that name, [test_name], a colon
    and the short hash, under the database root. *)
Theorem result_dir_is_hash {Value} (db : Db Value) (test_name : string)
    (artifact_paths : list path) (fs : node) :
  (∀ short,
     short_hash fs artifact_paths = Ok short →
     ∃ contents,
       Forall2 (λ art data, read fs art.1 = Ok data)
         (iter_artifacts fs artifact_paths) contents
       ∧ short = String.substring 0 12 (hex (sha256 (concat (sha256 <$> contents))))
       ∧ String.length short = 12
       ∧ ∃ rest, hex (sha256 (concat (sha256 <$> contents))) = short +:+ rest)
  ∧ (∀ fs' n,
       import_result db test_name artifact_paths fs = (fs', Ok n) →
       ∃ short,
         short_hash fs artifact_paths = Ok short
         ∧ (∃ fs1, mkdir fs (root_dir db ++ [test_name +:+ ":" +:+ short]) = Ok fs1)
         ∧ resolve fs (root_dir db ++ [test_name +:+ ":" +:+ short])
           = Raise FileNotFoundError
         ∧ ∃ es, resolve fs' (root_dir db ++ [test_name +:+ ":" +:+ short])
                 = Ok (Dir es)).
Proof.
  split.
  - intros short. unfold short_hash.
    destruct (hash_artifacts fs (iter_artifacts fs artifact_paths) []) as [hash|e] eqn:Hh;
      [|done].
    intros [= <-]. apply hash_artifacts_inv in Hh as (contents & Hall & ->).
    exists contents. simpl. split; [done|]. split; [done|]. split.
    + apply length_substring_0. unfold hexdigest. rewrite length_hex, sha256_length. lia.
    + apply substring_0_prefix.
  - intros fs' n (short & fs1 & Hs & Hmk & _ & Hold & _ & Hdir & _)%import_result_ok.
    exists short. split; [done|]. split; [by exists fs1|]. by split.
Qed.

(** ** Further properties of [import_result] *)

(** *** More facts about the file system *)

Lemma diverge_prefix (q p : path) : q `prefix_of` p → diverge q p = false.
Proof.
  intros [k ->]. induction q as [|a q IH]; simpl; [done|].
  by rewrite decide_True.
Qed.

Lemma resolve_file_prefix (n : node) (q r : path) (data : list byte) (x : node) :
  resolve n q = Ok (File data) → resolve n (q ++ r) = Ok x → r = [].
Proof.
  intros Hq. rewrite resolve_app, Hq. simpl. by destruct r.
Qed.

(** A file and a path that does not exist part ways. *)
Lemma diverge_of_file (fs : node) (d p : path) (data : list byte) :
  resolve fs p = Ok (File data) → resolve fs d = Raise FileNotFoundError →
  diverge d p = true.
Proof.
  revert fs p. induction d as [|c d IH]; intros fs [|c' p]; simpl; try done.
  - destruct fs; [|done]. done.
  - destruct fs as [data'|es]; [done|].
    destruct (decide (c = c')) as [<-|Hne]; [|done].
    destruct (lookup_entry c es) as [n0|]; [|done]. apply IH.
Qed.

(** Two files of a tree are at paths that part ways, or are one file. *)
Lemma files_diverge_or_eq (n : node) (p q : path) (dp dq : list byte) :
  resolve n p = Ok (File dp) → resolve n q = Ok (File dq) →
  diverge p q = true ∨ (p = q ∧ dp = dq).
Proof.
  revert n q. induction p as [|c p IH]; intros n [|c' q]; simpl.
  - intros [= ->] [= ->]. by right.
  - intros [= ->]. done.
  - destruct n as [data|es]; [done|]. destruct (lookup_entry c es); [|done].
    intros _ [=].
  - destruct n as [data|es]; [done|].
    destruct (decide (c = c')) as [<-|Hne]; [|by left].
    destruct (lookup_entry c es) as [n0|]; [|done].
    intros Hp Hq. destruct (IH _ _ Hp Hq) as [?|[-> ->]]; [by left|by right].
Qed.

Lemma resolve_new_dirs_inv (p q : path) (x : node) :
  resolve (new_dirs p) q = Ok x → q `prefix_of` p.
Proof.
  revert q. induction p as [|a p IH]; intros [|b q]; simpl;
    try done; try (intros _; apply prefix_nil).
  destruct (decide (b = a)) as [->|Hne]; [|done].
  intros Hq. by apply prefix_cons, IH.
Qed.

Lemma resolve_new_dirs_self (p : path) : resolve (new_dirs p) p = Ok (Dir []).
Proof. induction p as [|a p IH]; simpl; [done|]. by rewrite decide_True. Qed.

(** What resolves after a change resolved before, or lies on the path of
    the change. *)
Lemma at_path_resolve_inv (leaf : node → result OSError node)
    (missing : path → result OSError node) :
  (∀ n x q y, leaf n = Ok x → resolve x q = Ok y → q = [] ∨ ∃ y0, resolve n q = Ok y0) →
  (∀ p x q y, missing p = Ok x → resolve x q = Ok y → q `prefix_of` p) →
  ∀ p n n' q y, at_path leaf missing n p = Ok n' → resolve n' q = Ok y →
    (∃ y0, resolve n q = Ok y0) ∨ q `prefix_of` p.
Proof.
  intros Hleaf Hmiss. induction p as [|c p IH]; intros n n' q y; simpl.
  - intros Hl Hq. destruct (Hleaf _ _ _ _ Hl Hq) as [->|?]; [by right|by left].
  - destruct n as [data|es]; [done|].
    destruct q as [|c' q]; [intros _ _; left; by eexists|].
    destruct (lookup_entry c es) as [n0|] eqn:Hc.
    + destruct (at_path leaf missing n0 p) as [n1|e] eqn:Hat; [|done].
      intros [= <-]. simpl. destruct (decide (c = c')) as [<-|Hne].
      * rewrite (lookup_update_entry_eq _ _ _ _ Hc), Hc. intros Hq.
        destruct (IH _ _ _ _ Hat Hq) as [?|?]; [by left|right; by apply prefix_cons].
      * rewrite lookup_update_entry_ne by done. intros Hq. left. by eexists.
    + destruct (missing p) as [x|e] eqn:Hx; [|done].
      intros [= <-]. simpl. destruct (decide (c = c')) as [<-|Hne].
      * rewrite (lookup_entry_app_new _ _ _ Hc). intros Hq. right.
        apply prefix_cons. by eapply Hmiss.
      * rewrite lookup_entry_app_ne by done. intros Hq. left. by eexists.
Qed.

(** A file off the path of a change is left as it is. *)
Lemma at_path_keeps_file (leaf : node → result OSError node)
    (missing : path → result OSError node) :
  (∀ es x, leaf (Dir es) = Ok x → x = Dir es) →
  ∀ p n n' q data, at_path leaf missing n p = Ok n' →
    resolve n q = Ok (File data) → q ≠ p → resolve n' q = Ok (File data).
Proof.
  intros Hleaf. induction p as [|c p IH]; intros n n' q data; simpl.
  - intros Hl Hq Hne. destruct q as [|c' q]; [done|].
    destruct n as [data'|es]; [done|]. by rewrite (Hleaf _ _ Hl).
  - destruct n as [data'|es]; [done|].
    destruct q as [|c' q]; [done|]. simpl.
    destruct (lookup_entry c es) as [n0|] eqn:Hc.
    + destruct (at_path leaf missing n0 p) as [n1|e] eqn:Hat; [|done].
      intros [= <-]. simpl. destruct (decide (c = c')) as [<-|Hne].
      * rewrite (lookup_update_entry_eq _ _ _ _ Hc), Hc. intros Hq Hneq.
        apply (IH _ _ _ _ Hat Hq). congruence.
      * by rewrite lookup_update_entry_ne.
    + destruct (missing p) as [x|e]; [|done].
      intros [= <-]. simpl. destruct (decide (c = c')) as [<-|Hne].
      * by rewrite Hc.
      * by rewrite lookup_entry_app_ne.
Qed.

Lemma makedirs_resolve_inv (n n' : node) (p q : path) (y : node) :
  makedirs n p = Ok n' → resolve n' q = Ok y →
  (∃ y0, resolve n q = Ok y0) ∨ q `prefix_of` p.
Proof.
  apply at_path_resolve_inv.
  - intros m x q0 y0 Hl Hq. right. destruct m; [done|]. injection Hl as <-. by eexists.
  - intros p0 x q0 y0 [= <-]. apply resolve_new_dirs_inv.
Qed.

Lemma write_resolve_inv (data : list byte) (n n' : node) (p q : path) (y : node) :
  write data n p = Ok n' → resolve n' q = Ok y →
  (∃ y0, resolve n q = Ok y0) ∨ q `prefix_of` p.
Proof.
  apply at_path_resolve_inv.
  - intros m x q0 y0 Hl Hq. left. destruct m; [|done]. injection Hl as <-.
    by destruct q0.
  - intros [|? ?] x q0 y0; [|done]. intros [= <-] Hq. destruct q0; [done|done].
Qed.

Lemma makedirs_keeps_file (n n' : node) (p q : path) (data : list byte) :
  makedirs n p = Ok n' → resolve n q = Ok (File data) → resolve n' q = Ok (File data).
Proof.
  intros Hmk Hq. destruct (decide (q = p)) as [->|Hne].
  - unfold makedirs in Hmk. rewrite <-(app_nil_r p) in Hmk.
    destruct (at_path_below _ _ _ _ _ _ _ Hq Hmk) as (sub' & Hsub & _). done.
  - unfold makedirs in Hmk. eapply at_path_keeps_file; [|exact Hmk|exact Hq|exact Hne].
    intros es x [= <-]. done.
Qed.

Lemma write_keeps_file (data : list byte) (n n' : node) (p q : path) (data' : list byte) :
  write data n p = Ok n' → resolve n q = Ok (File data') → q ≠ p →
  resolve n' q = Ok (File data').
Proof. apply at_path_keeps_file. intros es x ?. done. Qed.

Lemma makedirs_self (n n' : node) (p : path) :
  makedirs n p = Ok n' → ∃ es, resolve n' p = Ok (Dir es).
Proof.
  unfold makedirs. revert n n'. induction p as [|c p IH]; intros n n'; simpl.
  - destruct n as [data|es]; [done|]. intros [= <-]. eauto.
  - destruct n as [data|es]; [done|].
    destruct (lookup_entry c es) as [n0|] eqn:Hc.
    + destruct (at_path _ _ n0 p) as [n1|e] eqn:Hat; [|done].
      intros [= <-]. simpl. rewrite (lookup_update_entry_eq _ _ _ _ Hc). by eapply IH.
    + intros [= <-]. simpl. rewrite (lookup_entry_app_new _ _ _ Hc).
      rewrite resolve_new_dirs_self. eauto.
Qed.

Lemma write_self (data : list byte) (n n' : node) (p : path) :
  write data n p = Ok n' → resolve n' p = Ok (File data).
Proof.
  unfold write. revert n n'. induction p as [|c p IH]; intros n n'; simpl.
  - destruct n as [data'|es]; [|done]. by intros [= <-].
  - destruct n as [data'|es]; [done|].
    destruct (lookup_entry c es) as [n0|] eqn:Hc.
    + destruct (at_path _ _ n0 p) as [n1|e] eqn:Hat; [|done].
      intros [= <-]. simpl. rewrite (lookup_update_entry_eq _ _ _ _ Hc). by eapply IH.
    + destruct p; [|done]. intros [= <-]. simpl.
      by rewrite (lookup_entry_app_new _ _ _ Hc).
Qed.

(** [os.makedirs] passes when no file is in the way. *)
Lemma makedirs_intro (n : node) (p : path) :
  (∀ q data, q `prefix_of` p → resolve n q ≠ Ok (File data)) →
  ∃ n', makedirs n p = Ok n'.
Proof.
  unfold makedirs. revert n. induction p as [|c p IH]; intros n Hfree; simpl.
  - destruct n as [data|es]; [|eauto]. by destruct (Hfree [] data).
  - destruct n as [data|es]; [by destruct (Hfree [] data (prefix_nil _))|].
    destruct (lookup_entry c es) as [n0|] eqn:Hc; [|simpl; eauto].
    destruct (IH n0) as [n1 Hn1].
    { intros q data Hq Hr. apply (Hfree (c :: q) data); [by apply prefix_cons|].
      simpl. by rewrite Hc. }
    rewrite Hn1. simpl. eauto.
Qed.

(** Writing a file passes in a directory, where no directory has its
    name. *)
Lemma write_intro (data : list byte) (n : node) (d : path) (c : string)
    (es : list (string * node)) :
  resolve n d = Ok (Dir es) → is_dir n (d ++ [c]) = false →
  ∃ n', write data n (d ++ [c]) = Ok n'.
Proof.
  intros Hd Hdir. rewrite (is_dir_below _ _ _ _ Hd) in Hdir.
  unfold write. rewrite (at_path_zoom _ _ _ _ _ _ Hd). simpl.
  unfold is_dir in Hdir. simpl in Hdir.
  destruct (lookup_entry c es) as [[data'|es']|]; simpl; eauto. done.
Qed.

Lemma mkdir_parent_error (fs : node) (d : path) (c : string) (e : OSError) :
  resolve fs d = Raise e → mkdir fs (d ++ [c]) = Raise e.
Proof.
  unfold mkdir. revert fs. induction d as [|c0 d IH]; intros fs; simpl; [done|].
  destruct fs as [data|es]; [done|].
  destruct (lookup_entry c0 es) as [n0|].
  - intros Hr. by rewrite (IH _ Hr).
  - intros [= <-]. by destruct d.
Qed.

Lemma mkdir_parent_file (fs : node) (d : path) (c : string) (data : list byte) :
  resolve fs d = Ok (File data) → mkdir fs (d ++ [c]) = Raise NotADirectoryError.
Proof.
  intros Hd. unfold mkdir. by rewrite (at_path_zoom _ _ _ _ _ _ Hd).
Qed.

(** *** The generator, by the files of a tree *)

(** The paths of the files that a walk of a directory yields, from the
    top of the walk. *)
Definition files_of_triple (t : path * list string * list string) : list path :=
  (λ filename, t.1.1 ++ [filename]) <$> t.2.

Definition file_list (n : node) : list path := walk_from n ≫= files_of_triple.

Lemma walk_from_Dir (es : list (string * node)) :
  walk_from (Dir es)
  = ([], dirnames es, filenames es)
    :: (es ≫= λ e, (λ t : path * list string * list string, (e.1 :: t.1.1, t.1.2, t.2))
                     <$> walk_from e.2).
Proof.
  simpl. f_equal. induction es as [|[c n'] es IH]; [done|].
  rewrite bind_cons. simpl. by rewrite IH.
Qed.

Lemma files_of_triple_below (c : string) (l : list (path * list string * list string)) :
  ((λ t : path * list string * list string, (c :: t.1.1, t.1.2, t.2)) <$> l)
    ≫= files_of_triple
  = (cons c) <$> (l ≫= files_of_triple).
Proof.
  induction l as [|[[dp ds] fs] l IH]; [done|].
  rewrite fmap_cons, !bind_cons, fmap_app, IH. f_equal.
  unfold files_of_triple. simpl. rewrite <-list_fmap_compose. done.
Qed.

Lemma file_list_Dir (es : list (string * node)) :
  file_list (Dir es)
  = ((λ filename, [filename]) <$> filenames es)
    ++ (es ≫= λ e, (cons e.1) <$> file_list e.2).
Proof.
  unfold file_list. rewrite walk_from_Dir, bind_cons. f_equal.
  induction es as [|[c n'] es IH]; [done|].
  rewrite !bind_cons, bind_app, IH. f_equal. apply files_of_triple_below.
Qed.

Lemma file_list_File (data : list byte) : file_list (File data) = [].
Proof. done. Qed.

Lemma iter_artifacts_eq (fs : node) (artifact_paths : list path) :
  iter_artifacts fs artifact_paths
  = artifact_paths ≫= λ input_path,
      match resolve fs input_path with
      | Ok (Dir es) => (λ rel, (input_path ++ rel, rel)) <$> file_list (Dir es)
      | _ => [(input_path, [name input_path])]
      end.
Proof.
  unfold iter_artifacts. induction artifact_paths as [|input_path paths IH]; [done|].
  rewrite !bind_cons, IH. f_equal. unfold is_dir.
  destruct (resolve fs input_path) as [[data|es]|e]; [done| |done].
  unfold file_list, walk. generalize (walk_from (Dir es)). intros l.
  induction l as [|[[dp ds] fnames] l IHl]; [done|].
  rewrite fmap_cons, !bind_cons, fmap_app, IHl. f_equal. simpl.
  unfold files_of_triple. simpl. clear.
  induction fnames as [|filename fnames IHf]; [done|].
  rewrite bind_cons, !fmap_cons, IHf. simpl. f_equal. f_equal.
  - by rewrite <-app_assoc.
  - unfold relative_to. by rewrite <-app_assoc, drop_app_length.
Qed.

Lemma lookup_entry_elem (c : string) (es : list (string * node)) (n : node) :
  lookup_entry c es = Some n → (c, n) ∈ es.
Proof.
  induction es as [|[c' n'] es IH]; simpl; [done|].
  destruct (decide (c = c')) as [->|Hne].
  - intros [= ->]. left.
  - intros Hc. right. by apply IH.
Qed.

(** The walk misses no file. *)
Lemma file_list_complete (n : node) (rel : path) (data : list byte) :
  rel ≠ [] → resolve n rel = Ok (File data) → rel ∈ file_list n.
Proof.
  revert n. induction rel as [|c rel IH]; intros n Hne; [done|]. simpl.
  destruct n as [data'|es]; [done|].
  destruct (lookup_entry c es) as [n0|] eqn:Hc; [|done].
  apply lookup_entry_elem in Hc. intros Hrel. rewrite file_list_Dir.
  apply elem_of_app. destruct rel as [|c' rel].
  - left. simpl in Hrel. injection Hrel as ->.
    apply list_elem_of_fmap. exists c. split; [done|].
    unfold filenames. apply list_elem_of_omap. by exists (c, File data).
  - right. apply list_elem_of_bind. exists (c, n0). split; [|done].
    apply list_elem_of_fmap. exists (c' :: rel). split; [done|]. by apply IH.
Qed.

Lemma file_list_nonempty (n : node) (rel : path) : rel ∈ file_list n → rel ≠ [].
Proof.
  unfold file_list. intros ([[dp ds] fnames] & Hrel & _)%list_elem_of_bind.
  unfold files_of_triple in Hrel. apply list_elem_of_fmap in Hrel as (f & -> & _).
  simpl. by destruct dp.
Qed.

(** *** [os.mkdir] does not disturb the generator *)

Lemma filenames_cons (c : string) (n : node) (es : list (string * node)) :
  filenames ((c, n) :: es)
  = match n with File _ => c :: filenames es | Dir _ => filenames es end.
Proof. by destruct n. Qed.

Lemma filenames_update (c : string) (es0 es1 : list (string * node))
    (es : list (string * node)) :
  lookup_entry c es = Some (Dir es0) →
  filenames (update_entry c (Dir es1) es) = filenames es.
Proof.
  induction es as [|[c' n'] es IH]; [done|]. intros Hc. simpl in Hc.
  change (update_entry c (Dir es1) ((c', n') :: es))
    with (if decide (c = c') then (c', Dir es1) :: es
          else (c', n') :: update_entry c (Dir es1) es).
  destruct (decide (c = c')) as [->|Hne].
  - injection Hc as ->. by rewrite !filenames_cons.
  - by rewrite !filenames_cons, (IH Hc).
Qed.

Lemma file_list_update (c : string) (es0 es1 : list (string * node))
    (es : list (string * node)) :
  lookup_entry c es = Some (Dir es0) →
  file_list (Dir es1) = file_list (Dir es0) →
  file_list (Dir (update_entry c (Dir es1) es)) = file_list (Dir es).
Proof.
  intros Hc Hsame. rewrite !file_list_Dir.
  rewrite (filenames_update c es0 es1 es Hc). f_equal.
  clear -Hc Hsame. induction es as [|[c' n'] es IH]; [done|]. simpl in Hc |- *.
  destruct (decide (c = c')) as [->|Hne].
  - injection Hc as ->. rewrite !bind_cons. simpl. by rewrite Hsame.
  - rewrite !bind_cons. by rewrite (IH Hc).
Qed.

Lemma file_list_app_empty (c : string) (es : list (string * node)) :
  file_list (Dir (es ++ [(c, Dir [])])) = file_list (Dir es).
Proof.
  rewrite !file_list_Dir. unfold filenames. rewrite omap_app, bind_app. simpl.
  by rewrite !app_nil_r.
Qed.

Lemma mkdir_file_list (n n' : node) (p : path) :
  mkdir n p = Ok n' → file_list n' = file_list n ∧ ∃ es es', n = Dir es ∧ n' = Dir es'.
Proof.
  unfold mkdir. revert n n'. induction p as [|c p IH]; intros n n'; simpl; [done|].
  destruct n as [data|es]; [done|].
  destruct (lookup_entry c es) as [n0|] eqn:Hc.
  - destruct (at_path _ _ n0 p) as [n1|e] eqn:Hat; [|done].
    intros [= <-]. destruct (IH _ _ Hat) as (Hfiles & es0 & es1 & -> & ->).
    split; [by apply (file_list_update c es0)|eauto].
  - destruct p; [|done]. intros [= <-]. split; [apply file_list_app_empty|eauto].
Qed.

Lemma mkdir_resolve (fs fs1 : node) (d input_path : path) (n : node) :
  mkdir fs d = Ok fs1 → resolve fs input_path = Ok n →
  ∃ n1, resolve fs1 input_path = Ok n1 ∧ (n1 = n ∨ ∃ p, mkdir n p = Ok n1).
Proof.
  unfold mkdir. revert fs fs1 input_path. induction d as [|c d IH];
    intros fs fs1 [|c' q]; simpl; try done.
  - intros Hmk [= <-]. exists fs1. split; [done|]. right. by exists (c :: d).
  - destruct fs as [data|es]; [done|].
    destruct (lookup_entry c es) as [n0|] eqn:Hc.
    + destruct (at_path _ _ n0 d) as [n1|e] eqn:Hat; [|done].
      intros [= <-]. simpl. destruct (decide (c = c')) as [<-|Hne].
      * rewrite (lookup_update_entry_eq _ _ _ _ Hc), Hc. by apply IH.
      * rewrite lookup_update_entry_ne by done. intros Hq. eauto.
    + destruct d; [|done]. intros [= <-]. simpl.
      destruct (decide (c = c')) as [<-|Hne].
      * by rewrite Hc.
      * rewrite lookup_entry_app_ne by done. intros Hq. eauto.
Qed.

Lemma Forall2_elem_of_l {A B} (P : A → B → Prop) (l : list A) (k : list B) (x : A) :
  Forall2 P l k → x ∈ l → ∃ y, y ∈ k ∧ P x y.
Proof.
  induction 1 as [|a b l k HP _ IH]; intros Hx; [by apply elem_of_nil in Hx|].
  apply elem_of_cons in Hx as [->|Hx].
  - exists b. split; [left|done].
  - destruct (IH Hx) as (y & ? & ?). exists y. split; [by right|done].
Qed.

Lemma short_hash_readable (fs : node) (artifact_paths : list path) (short : string)
    (art : path * path) :
  short_hash fs artifact_paths = Ok short →
  art ∈ iter_artifacts fs artifact_paths → ∃ data, read fs art.1 = Ok data.
Proof.
  unfold short_hash.
  destruct (hash_artifacts fs (iter_artifacts fs artifact_paths) []) as [hash|e] eqn:Hh;
    [|done].
  intros _ Hart. apply hash_artifacts_inv in Hh as (contents & Hall & _).
  destruct (Forall2_elem_of_l _ _ _ _ Hall Hart) as (data & _ & ?). eauto.
Qed.

Lemma read_file (fs : node) (p : path) (data : list byte) :
  read fs p = Ok data ↔ resolve fs p = Ok (File data).
Proof.
  unfold read. destruct (resolve fs p) as [[data'|es]|e]; simpl; naive_solver.
Qed.

Lemma short_hash_inputs (fs : node) (artifact_paths : list path) (short : string)
    (input_path : path) :
  short_hash fs artifact_paths = Ok short → input_path ∈ artifact_paths →
  ∃ n, resolve fs input_path = Ok n.
Proof.
  intros Hs Hin. destruct (resolve fs input_path) as [n|e] eqn:Hr; [eauto|].
  destruct (short_hash_readable fs artifact_paths short (input_path, [name input_path]) Hs)
    as [data Hread].
  - rewrite iter_artifacts_eq. apply list_elem_of_bind. exists input_path.
    split; [|done]. rewrite Hr. left.
  - apply read_file in Hread. simpl in Hread. congruence.
Qed.

(** The generator yields the same pairs before and after [os.mkdir]. *)
Lemma iter_artifacts_stable (fs fs1 : node) (d : path) (artifact_paths : list path)
    (short : string) :
  short_hash fs artifact_paths = Ok short → mkdir fs d = Ok fs1 →
  iter_artifacts fs1 artifact_paths = iter_artifacts fs artifact_paths.
Proof.
  intros Hs Hmk. rewrite !iter_artifacts_eq.
  assert (∀ input_path, input_path ∈ artifact_paths →
            ∃ n, resolve fs input_path = Ok n) as Hres
    by (intros ? ?; by eapply short_hash_inputs).
  clear Hs. induction artifact_paths as [|input_path paths IH]; [done|].
  rewrite !bind_cons, IH by (intros ? ?; apply Hres; by right). f_equal.
  destruct (Hres input_path) as [n Hn]; [left|].
  destruct (mkdir_resolve _ _ _ _ _ Hmk Hn) as (n1 & Hn1 & [->|[p Hp]]).
  - by rewrite Hn, Hn1.
  - rewrite Hn, Hn1. destruct (mkdir_file_list _ _ _ Hp) as (Hfiles & es & es' & -> & ->).
    by rewrite Hfiles.
Qed.

(** *** The copy loop on artifacts that do not clash *)

(** No two artifacts clash: their paths under [artifacts/] part ways, or
    are the same path for the same content. *)
Definition consistent (fs : node) (arts : list (path * path)) : Prop :=
  ∀ a1 a2, a1 ∈ arts → a2 ∈ arts →
    diverge a1.2 a2.2 = true ∨ (a1.2 = a2.2 ∧ read fs a1.1 = read fs a2.1).

(** The result directory [L] holds the artifacts [done], read from [fs0],
    and nothing else. *)
Definition installed (fs0 : node) (L : node) (done : list (path * path)) : Prop :=
  (∃ es, L = Dir es)
  ∧ (∀ art data, art ∈ done → read fs0 art.1 = Ok data →
       resolve L ("artifacts" :: art.2) = Ok (File data))
  ∧ (∀ q x, resolve L q = Ok x →
       q = [] ∨ ∃ art, art ∈ done ∧ q `prefix_of` ("artifacts" :: art.2)).

Lemma parent_snoc (rel : path) : rel ≠ [] → ∃ c, rel = parent rel ++ [c].
Proof. intros Hne. exists (List.last rel ""). by apply app_removelast_last. Qed.

Lemma prefix_snoc_self (l : path) (c : string) (k : path) :
  l ++ [c] `prefix_of` k → k `prefix_of` l → False.
Proof.
  intros H1%prefix_length H2%prefix_length. rewrite length_app in H1. simpl in H1. lia.
Qed.

Section install.
Variable fs0 : node.
Variable d : path.
Variable all : list (path * path).
Hypothesis all_consistent : consistent fs0 all.
Hypothesis all_readable : ∀ art, art ∈ all → ∃ data, read fs0 art.1 = Ok data.

Lemma installed_file (L : node) (done : list (path * path)) (q : path) (data : list byte) :
  installed fs0 L done → (∀ art, art ∈ done → art ∈ all) →
  resolve L q = Ok (File data) →
  ∃ art, art ∈ done ∧ q = "artifacts" :: art.2 ∧ read fs0 art.1 = Ok data.
Proof.
  intros ([es ->] & Hfiles & Honly) Hdone Hq.
  destruct (Honly _ _ Hq) as [->|(art & Hart & [r Hr])]; [done|].
  destruct (all_readable art (Hdone _ Hart)) as [data' Hread].
  pose proof (Hfiles _ _ Hart Hread) as Hfile. rewrite Hr in Hfile.
  pose proof (resolve_file_prefix _ _ _ _ _ Hq Hfile) as ->.
  rewrite app_nil_r in Hr, Hfile. exists art. split; [done|]. split; [done|].
  rewrite Hq in Hfile. by injection Hfile as ->.
Qed.

(** One iteration, on the result directory. *)
Lemma install_step_local (L : node) (done : list (path * path)) (cur rp : path)
    (c : string) (data : list byte) :
  installed fs0 L done → (∀ art, art ∈ done → art ∈ all) →
  (cur, rp ++ [c]) ∈ all → read fs0 cur = Ok data →
  ∃ L1 L2,
    makedirs L ("artifacts" :: rp) = Ok L1
    ∧ is_dir L1 ("artifacts" :: rp ++ [c]) = false
    ∧ write data L1 ("artifacts" :: rp ++ [c]) = Ok L2
    ∧ installed fs0 L2 (done ++ [(cur, rp ++ [c])]).
Proof.
  intros Hinst Hdone Hart Hread.
  pose proof Hinst as ([es HL] & Hfiles & Honly).
  (* no file is in the way of the directories *)
  destruct (makedirs_intro L ("artifacts" :: rp)) as [L1 HL1].
  { intros q data' Hq Hfile.
    destruct (installed_file _ _ _ _ Hinst Hdone Hfile) as (art & Hin & -> & _).
    apply prefix_cons_inv_2 in Hq.
    destruct (all_consistent art (cur, rp ++ [c]) (Hdone _ Hin) Hart) as [Hdiv|[Heq _]];
      cbn [fst snd] in *.
    - rewrite diverge_prefix in Hdiv; [done|]. by apply prefix_app_r.
    - rewrite Heq in Hq. by eapply prefix_snoc_self. }
  assert (∀ art data', art ∈ done → read fs0 art.1 = Ok data' →
            resolve L1 ("artifacts" :: art.2) = Ok (File data')) as Hfiles1.
  { intros art data' Hin Hr. eapply makedirs_keeps_file; [done|]. by apply Hfiles. }
  (* the destination is no directory *)
  assert (is_dir L1 ("artifacts" :: rp ++ [c]) = false) as Hnodir.
  { unfold is_dir. destruct (resolve L1 ("artifacts" :: rp ++ [c])) as [[?|es2]|?] eqn:Hr;
      [done| |done]. exfalso.
    destruct (makedirs_resolve_inv _ _ _ _ _ HL1 Hr) as [[y0 Hy0]|Hpre].
    - destruct (Honly _ _ Hy0) as [?|(art & Hin & Hpre)]; [done|].
      apply prefix_cons_inv_2 in Hpre.
      destruct (all_consistent (cur, rp ++ [c]) art Hart (Hdone _ Hin)) as [Hdiv|[Heq _]];
        cbn [fst snd] in *.
      + by rewrite diverge_prefix in Hdiv.
      + destruct (all_readable art (Hdone _ Hin)) as [data' Hread'].
        pose proof (Hfiles1 _ _ Hin Hread') as Hfile. rewrite <-Heq in Hfile.
        rewrite Hr in Hfile. done.
    - apply prefix_cons_inv_2 in Hpre. by eapply prefix_snoc_self. }
  destruct (makedirs_self _ _ _ HL1) as [es1 Hparent].
  destruct (write_intro data L1 ("artifacts" :: rp) c es1 Hparent Hnodir) as [L2 HL2].
  exists L1, L2. split; [done|]. split; [done|]. split; [done|].
  subst L. destruct (makedirs_dir _ _ _ HL1) as [es1' ->].
  split; [by eapply write_dir|]. split.
  - intros art data' Hin Hr. apply elem_of_app in Hin as [Hin|Hin].
    + destruct (decide (art.2 = rp ++ [c])) as [Heq|Hne].
      * rewrite Heq.
        destruct (all_consistent art (cur, rp ++ [c]) (Hdone _ Hin) Hart) as [Hdiv|[_ Hsame]];
          cbn [fst snd] in *.
        -- apply diverge_ne in Hdiv. done.
        -- rewrite Hr, Hread in Hsame. injection Hsame as ->. by eapply write_self.
      * eapply write_keeps_file; [done|by apply Hfiles1|]. by intros [= ?].
    + apply list_elem_of_singleton in Hin as ->. cbn [fst snd] in *.
      rewrite Hread in Hr. injection Hr as <-. by eapply write_self.
  - intros q x Hq. destruct (write_resolve_inv _ _ _ _ _ _ HL2 Hq) as [[y1 Hy1]|Hpre].
    + destruct (makedirs_resolve_inv _ _ _ _ _ HL1 Hy1) as [[y0 Hy0]|Hpre].
      * destruct (Honly _ _ Hy0) as [?|(art & Hin & Hpre)]; [by left|].
        right. exists art. split; [|done]. apply elem_of_app. by left.
      * right. exists (cur, rp ++ [c]). split; [apply elem_of_app; right; left|].
        simpl. change ("artifacts" :: rp ++ [c]) with (("artifacts" :: rp) ++ [c]).
        by apply prefix_app_r.
    + right. exists (cur, rp ++ [c]). split; [apply elem_of_app; right; left|done].
Qed.

End install.

(** One iteration, on the file system. *)
Lemma install_step_global (fs : node) (d : path) (L L1 L2 : node) (cur rp : path)
    (c : string) (data : list byte) :
  resolve fs d = Ok L → diverge d cur = true → read fs cur = Ok data →
  makedirs L ("artifacts" :: rp) = Ok L1 →
  is_dir L1 ("artifacts" :: rp ++ [c]) = false →
  write data L1 ("artifacts" :: rp ++ [c]) = Ok L2 →
  ∃ fs1 fs2,
    makedirs fs (parent ((d ++ ["artifacts"]) ++ rp ++ [c])) = Ok fs1
    ∧ copy fs1 cur ((d ++ ["artifacts"]) ++ rp ++ [c]) = Ok fs2
    ∧ resolve fs2 d = Ok L2
    ∧ ∀ x, diverge d x = true → resolve fs2 x = resolve fs x.
Proof.
  intros HL Hdiv Hread HL1 Hnodir HL2.
  assert (parent ((d ++ ["artifacts"]) ++ rp ++ [c]) = d ++ "artifacts" :: rp) as ->.
  { unfold parent. rewrite <-!app_assoc. simpl.
    change (d ++ "artifacts" :: rp ++ [c]) with (d ++ ("artifacts" :: rp) ++ [c]).
    by rewrite app_assoc, removelast_last. }
  assert (makedirs fs (d ++ "artifacts" :: rp) = Ok (plug fs d L1)) as Hmk.
  { unfold makedirs in HL1 |- *. by rewrite (at_path_zoom _ _ _ _ _ _ HL), HL1. }
  assert (resolve (plug fs d L1) d = Ok L1) as Hd1 by (by eapply resolve_plug).
  assert (∀ x, diverge d x = true → resolve (plug fs d L1) x = resolve fs x) as Hframe1.
  { intros x Hx. eapply makedirs_frame; [|exact Hmk]. by apply diverge_app_l. }
  assert ((d ++ ["artifacts"]) ++ rp ++ [c] = d ++ "artifacts" :: rp ++ [c]) as ->
    by (by rewrite <-app_assoc).
  assert (copy_dst (plug fs d L1) cur (d ++ "artifacts" :: rp ++ [c])
          = d ++ "artifacts" :: rp ++ [c]) as Hdst.
  { rewrite (copy_dst_below _ _ _ _ _ Hd1). by rewrite Hnodir. }
  assert (write data (plug fs d L1) (d ++ "artifacts" :: rp ++ [c])
          = Ok (plug (plug fs d L1) d L2)) as Hw.
  { unfold write in HL2 |- *. by rewrite (at_path_zoom _ _ _ _ _ _ Hd1), HL2. }
  exists (plug fs d L1), (plug (plug fs d L1) d L2). split; [done|]. split.
  - eapply copy_intro.
    + rewrite (read_ext fs); [done|]. by apply Hframe1.
    + rewrite Hdst. apply not_eq_sym, diverge_ne. by apply diverge_app_l.
    + by rewrite Hdst.
  - split; [by eapply resolve_plug|]. intros x Hx. rewrite <-(Hframe1 x Hx).
    eapply write_frame; [|exact Hw]. by apply diverge_app_l.
Qed.

(** The loop copies every artifact when none clashes with another. *)
Lemma copy_artifacts_install (fs0 : node) (d : path) (all : list (path * path)) :
  consistent fs0 all →
  (∀ art, art ∈ all → ∃ data, read fs0 art.1 = Ok data) →
  (∀ art, art ∈ all → art.2 ≠ [] ∧ diverge d art.1 = true) →
  ∀ todo done k fs L,
    all = done ++ todo → resolve fs d = Ok L → installed fs0 L done →
    (∀ x, diverge d x = true → resolve fs x = resolve fs0 x) →
    ∃ fs' L',
      copy_artifacts (d ++ ["artifacts"]) todo k fs = (fs', Ok (k + length todo))
      ∧ resolve fs' d = Ok L' ∧ installed fs0 L' all
      ∧ ∀ x, diverge d x = true → resolve fs' x = resolve fs0 x.
Proof.
  intros Hcons Hreadable Hshape.
  induction todo as [|[cur rel] todo IH]; intros done k fs L Hall HL Hinst Hsrc.
  - rewrite app_nil_r in Hall. subst done. exists fs, L. simpl.
    rewrite Nat.add_0_r. done.
  - assert ((cur, rel) ∈ all) as Hart by (rewrite Hall; apply elem_of_app; right; left).
    destruct (Hshape _ Hart) as [Hrel Hdiv]. simpl in Hrel, Hdiv.
    destruct (parent_snoc rel Hrel) as [c Hc]. set (rp := parent rel) in *.
    clearbody rp. subst rel.
    destruct (Hreadable _ Hart) as [data Hread]. simpl in Hread.
    assert (∀ art, art ∈ done → art ∈ all) as Hdone
      by (intros art Hin; rewrite Hall; apply elem_of_app; by left).
    destruct (install_step_local fs0 all Hcons Hreadable L done cur rp c data
                Hinst Hdone Hart Hread) as (L1 & L2 & HL1 & Hnodir & HL2 & Hinst2).
    assert (read fs cur = Ok data) as Hread'
      by (rewrite (read_ext fs0); [done|by apply Hsrc]).
    destruct (install_step_global fs d L L1 L2 cur rp c data HL Hdiv Hread' HL1 Hnodir HL2)
      as (fs1 & fs2 & Hmk & Hcp & Hd2 & Hframe).
    rewrite copy_artifacts_cons, Hmk, Hcp.
    destruct (IH (done ++ [(cur, rp ++ [c])]) (S k) fs2 L2) as (fs' & L' & Hloop & ? & ? & ?).
    + by rewrite <-app_assoc.
    + done.
    + done.
    + intros x Hx. by rewrite (Hframe x Hx), Hsrc.
    + exists fs', L'. rewrite Hloop. simpl. rewrite Nat.add_succ_r. done.
Qed.

(** *** The import of artifacts that do not clash *)

Lemma elem_of_iter_artifacts_inv (fs : node) (artifact_paths : list path) (art : path * path) :
  art ∈ iter_artifacts fs artifact_paths →
  art.2 ≠ []
  ∧ ∃ input_path, input_path ∈ artifact_paths
      ∧ ((is_dir fs input_path = true ∧ art.1 = input_path ++ art.2)
         ∨ (is_dir fs input_path = false ∧ art = (input_path, [name input_path]))).
Proof.
  rewrite iter_artifacts_eq. intros (input_path & Hart & Hin)%list_elem_of_bind.
  destruct (resolve fs input_path) as [[data|es]|e] eqn:Hres.
  - apply list_elem_of_singleton in Hart as ->. split; [done|]. exists input_path.
    unfold is_dir. rewrite Hres. eauto.
  - apply list_elem_of_fmap in Hart as (rel & -> & Hrel). simpl.
    split; [by eapply file_list_nonempty|]. exists input_path.
    unfold is_dir. rewrite Hres. eauto.
  - apply list_elem_of_singleton in Hart as ->. split; [done|]. exists input_path.
    unfold is_dir. rewrite Hres. eauto.
Qed.

Lemma installed_nil (fs0 : node) : installed fs0 (Dir []) [].
Proof.
  split; [eauto|]. split.
  - intros art data Hart. by apply elem_of_nil in Hart.
  - intros [|c q] x; [by left|done].
Qed.

Lemma copy_artifacts_count (artifacts_dir : path) (arts : list (path * path)) :
  ∀ k n fs fs', copy_artifacts artifacts_dir arts k fs = (fs', Ok n) → n = k + length arts.
Proof.
  induction arts as [|[cur rel] arts IH]; intros k n fs fs'.
  - intros [= _ <-]. simpl. lia.
  - rewrite copy_artifacts_cons.
    destruct (makedirs fs _) as [fs1|e]; [|done].
    destruct (copy fs1 cur _) as [fs2|e]; [|done].
    intros ->%IH. simpl. lia.
Qed.

Lemma import_result_installs {Value} (db : Db Value) (test_name : string)
    (artifact_paths : list path) (fs : node) (short : string) (es : list (string * node)) :
  short_hash fs artifact_paths = Ok short →
  resolve fs (root_dir db) = Ok (Dir es) →
  resolve fs (result_dir db test_name short) = Raise FileNotFoundError →
  consistent fs (iter_artifacts fs artifact_paths) →
  ∃ fs',
    import_result db test_name artifact_paths fs
    = (fs', Ok (length (iter_artifacts fs artifact_paths)))
    ∧ (∀ rel data,
         resolve fs' (result_dir db test_name short ++ "artifacts" :: rel) = Ok (File data)
         ↔ ∃ cur, (cur, rel) ∈ iter_artifacts fs artifact_paths ∧ read fs cur = Ok data)
    ∧ ∀ x, diverge (result_dir db test_name short) x = true → resolve fs' x = resolve fs x.
Proof.
  intros Hshort Hroot Habsent Hcons.
  set (dir := result_dir db test_name short) in *.
  assert (lookup_entry (test_name +:+ ":" +:+ short) es = None) as Hfree.
  { unfold dir, result_dir in Habsent. rewrite resolve_app, Hroot in Habsent.
    simpl in Habsent. by destruct (lookup_entry _ es). }
  destruct (mkdir_intro _ _ _ _ Hroot Hfree) as [fs1 Hmk].
  change (root_dir db ++ [test_name +:+ ":" +:+ short]) with dir in Hmk.
  destruct (mkdir_new _ _ _ _ Hmk) as (_ & _ & Hnew).
  change (root_dir db ++ [test_name +:+ ":" +:+ short]) with dir in Hnew.
  assert (∀ art, art ∈ iter_artifacts fs artifact_paths →
            ∃ data, read fs art.1 = Ok data) as Hreadable
    by (intros art Hart; by eapply short_hash_readable).
  destruct (copy_artifacts_install fs dir (iter_artifacts fs artifact_paths) Hcons Hreadable)
    with (todo := iter_artifacts fs artifact_paths) (done := @nil (path * path))
         (k := 0) (fs := fs1) (L := Dir [])
    as (fs' & L' & Hloop & Hdir' & Hinst & Hframe).
  - intros art Hart. split; [by apply elem_of_iter_artifacts_inv in Hart as [? _]|].
    destruct (Hreadable _ Hart) as [data Hread]. apply read_file in Hread.
    by eapply diverge_of_file.
  - done.
  - done.
  - apply installed_nil.
  - intros x Hx. by eapply mkdir_frame.
  - exists fs'. split; [|split; [|done]].
    + rewrite import_result_unfold, Hshort. fold dir. rewrite Hmk.
      by rewrite (iter_artifacts_stable _ _ _ _ _ Hshort Hmk).
    + intros rel data. rewrite resolve_app, Hdir'. simpl. split.
      * intros Hfile.
        destruct (installed_file fs (iter_artifacts fs artifact_paths) Hreadable
                    L' _ ("artifacts" :: rel) data Hinst (λ _ H, H) Hfile)
          as ([cur rel'] & Hart & [= ->] & Hread).
        by exists cur.
      * intros (cur & Hart & Hread). destruct Hinst as (_ & Hfiles & _).
        by apply (Hfiles (cur, rel)).
Qed.

(** X9.  Files given directly land at the root of [artifacts/] under
    their base names: when no input path is a directory, the base names
    are pairwise distinct, all files can be read, the database root is a
    directory and the result directory does not exist, the import passes,
    counts one artifact per path, and every file is found with its
    content at [artifacts/<base name>]. *)
Theorem import_files_by_name {Value} (db : Db Value) (test_name : string)
    (artifact_paths : list path) (fs : node) (short : string) (es : list (string * node)) :
  Forall (λ input_path, is_dir fs input_path = false) artifact_paths →
  NoDup (name <$> artifact_paths) →
  short_hash fs artifact_paths = Ok short →
  resolve fs (root_dir db) = Ok (Dir es) →
  resolve fs (result_dir db test_name short) = Raise FileNotFoundError →
  ∃ fs',
    import_result db test_name artifact_paths fs = (fs', Ok (length artifact_paths))
    ∧ (∀ input_path, input_path ∈ artifact_paths →
         ∃ data, read fs input_path = Ok data
           ∧ read fs' (result_dir db test_name short ++ ["artifacts"; name input_path])
             = Ok data)
    ∧ ∀ rel data,
        resolve fs' (result_dir db test_name short ++ "artifacts" :: rel) = Ok (File data) →
        ∃ input_path, input_path ∈ artifact_paths ∧ rel = [name input_path].
Proof.
  intros Hfiles Hnames Hshort Hroot Habsent. rewrite Forall_forall in Hfiles.
  assert (iter_artifacts fs artifact_paths
          = (λ input_path, (input_path, [name input_path])) <$> artifact_paths) as Hiter.
  { rewrite iter_artifacts_eq. clear -Hfiles.
    induction artifact_paths as [|input_path paths IH]; [done|].
    rewrite bind_cons, fmap_cons, IH by (intros ? ?; apply Hfiles; by right).
    pose proof (Hfiles input_path) as Hdir. unfold is_dir in Hdir.
    destruct (resolve fs input_path) as [[data|es]|e]; [done| |done].
    by discriminate Hdir; left. }
  destruct (import_result_installs db test_name artifact_paths fs short es Hshort Hroot Habsent)
    as (fs' & Himp & Hfound & _).
  { rewrite Hiter. intros a1 a2 (i1 & -> & H1)%list_elem_of_fmap (i2 & -> & H2)%list_elem_of_fmap.
    simpl. destruct (decide (name i1 = name i2)) as [Heq|Hne]; [|by left].
    right. by rewrite (Compare.NoDup_fmap_eq name artifact_paths i1 i2 Hnames H1 H2 Heq). }
  exists fs'. split; [by rewrite Himp, Hiter, length_fmap|]. split.
  - intros input_path Hin.
    destruct (short_hash_readable fs artifact_paths short (input_path, [name input_path])
                Hshort) as [data Hread].
    { rewrite Hiter. apply list_elem_of_fmap. by exists input_path. }
    exists data. split; [done|]. apply read_file, Hfound. exists input_path.
    split; [|done]. rewrite Hiter. apply list_elem_of_fmap. by exists input_path.
  - intros rel data (cur & Hart & _)%Hfound. rewrite Hiter in Hart.
    apply list_elem_of_fmap in Hart as (input_path & [= -> ->] & Hin). by exists input_path.
Qed.

(** *** Inputs that do not hold the database root *)

Lemma not_prefix_diverge (p q : path) :
  ¬ p `prefix_of` q → ¬ q `prefix_of` p → diverge p q = true.
Proof.
  revert q. induction p as [|a p IH]; intros q Hpq Hqp.
  - destruct Hpq. apply prefix_nil.
  - destruct q as [|b q]; [destruct Hqp; apply prefix_nil|].
    simpl. destruct (decide (a = b)) as [->|]; [|done].
    apply IH; intros Hpre; [apply Hpq|apply Hqp]; by apply prefix_cons.
Qed.

Lemma resolve_prefix_of (fs : node) (p q : path) (x : node) :
  resolve fs q = Ok x → p `prefix_of` q → ∃ m, resolve fs p = Ok m.
Proof. intros Hq [k ->]. apply resolve_prefix in Hq as (m & ? & _). eauto. Qed.

(** An input that exists and is neither the database root nor above it
    parts ways with a result directory that does not exist. *)
Lemma input_diverges {Value} (db : Db Value) (test_name short : string) (fs : node)
    (input_path : path) (x : node) :
  resolve fs input_path = Ok x →
  resolve fs (result_dir db test_name short) = Raise FileNotFoundError →
  ¬ input_path `prefix_of` root_dir db →
  diverge (result_dir db test_name short) input_path = true.
Proof.
  intros Hin Habsent Hroot. apply not_prefix_diverge.
  - intros Hpre. destruct (resolve_prefix_of _ _ _ _ Hin Hpre) as [m Hm]. congruence.
  - unfold result_dir in *. intros [k Hk].
    destruct k as [|c k _] using rev_ind.
    + rewrite app_nil_r in Hk. subst input_path. congruence.
    + rewrite app_assoc in Hk. apply app_inj_tail in Hk as [Hk _].
      apply Hroot. by exists k.
Qed.

(** Every input of an import whose artifacts can be hashed exists. *)
Lemma short_hash_input (fs : node) (artifact_paths : list path) (short : string)
    (input_path : path) :
  short_hash fs artifact_paths = Ok short → input_path ∈ artifact_paths →
  ∃ x, resolve fs input_path = Ok x.
Proof.
  intros Hshort Hin. destruct (is_dir fs input_path) eqn:Hdir.
  - unfold is_dir in Hdir. destruct (resolve fs input_path) as [x|]; [eauto|done].
  - destruct (short_hash_readable fs artifact_paths short (input_path, [name input_path])
                Hshort) as [data Hread].
    + rewrite iter_artifacts_eq. apply list_elem_of_bind. exists input_path. split; [|done].
      unfold is_dir in Hdir. destruct (resolve fs input_path) as [[?|?]|?]; [left|done|left].
    + apply read_file in Hread. eauto.
Qed.

(** X10.  A directory is copied with its structure: when the one input
    path is a directory whose files can all be read, that is neither the
    database root nor a directory above it, the database root is a
    directory and the result directory does not exist, the import
    passes; a file is found under [artifacts/] at a relative path
    exactly when the input directory has a file with that content at that
    relative path; and the input directory is left as it was, so that
    the walk of the copy loop does not meet the copies. *)
Theorem import_directory_mirrors {Value} (db : Db Value) (test_name : string)
    (input_path : path) (fs : node) (short : string) (es : list (string * node)) :
  is_dir fs input_path = true →
  ¬ input_path `prefix_of` root_dir db →
  short_hash fs [input_path] = Ok short →
  resolve fs (root_dir db) = Ok (Dir es) →
  resolve fs (result_dir db test_name short) = Raise FileNotFoundError →
  ∃ fs' n,
    import_result db test_name [input_path] fs = (fs', Ok n)
    ∧ (∀ rel data,
         resolve fs' (result_dir db test_name short ++ "artifacts" :: rel) = Ok (File data)
         ↔ resolve fs (input_path ++ rel) = Ok (File data))
    ∧ ∀ rel, resolve fs' (input_path ++ rel) = resolve fs (input_path ++ rel).
Proof.
  intros Hdir Hout Hshort Hroot Habsent.
  unfold is_dir in Hdir. destruct (resolve fs input_path) as [[?|es0]|?] eqn:Hinput; try done.
  assert (iter_artifacts fs [input_path]
          = (λ rel, (input_path ++ rel, rel)) <$> file_list (Dir es0)) as Hiter.
  { rewrite iter_artifacts_eq, bind_cons, Hinput. apply app_nil_r. }
  destruct (import_result_installs db test_name [input_path] fs short es Hshort Hroot Habsent)
    as (fs' & Himp & Hfound & Hframe).
  { rewrite Hiter. intros a1 a2 (r1 & -> & H1)%list_elem_of_fmap (r2 & -> & H2)%list_elem_of_fmap.
    simpl.
    destruct (short_hash_readable fs [input_path] short (input_path ++ r1, r1) Hshort)
      as [d1 Hd1]; [rewrite Hiter; apply list_elem_of_fmap; by exists r1|].
    destruct (short_hash_readable fs [input_path] short (input_path ++ r2, r2) Hshort)
      as [d2 Hd2]; [rewrite Hiter; apply list_elem_of_fmap; by exists r2|].
    apply read_file in Hd1, Hd2. simpl in Hd1, Hd2.
    rewrite resolve_app, Hinput in Hd1, Hd2. simpl in Hd1, Hd2.
    destruct (files_diverge_or_eq _ _ _ _ _ Hd1 Hd2) as [?|[-> _]]; [by left|by right]. }
  exists fs', (length (iter_artifacts fs [input_path])). split; [done|]. split.
  - intros rel data. rewrite Hfound, Hiter. split.
    + intros (cur & (rel' & [= -> ->] & _)%list_elem_of_fmap & Hread). by apply read_file.
    + intros Hfile. exists (input_path ++ rel). split; [|by apply read_file].
      apply list_elem_of_fmap. exists rel. split; [done|].
      rewrite resolve_app, Hinput in Hfile. simpl in Hfile.
      apply (file_list_complete _ _ data); [|done]. by intros ->.
  - intros rel. apply Hframe, diverge_app_r.
    by eapply input_diverges.
Qed.

(** X11.  The generator misses no file and yields relative paths: every
    file below an input directory is yielded with its path from that
    directory; and every pair that is yielded has a relative path that is
    not empty, and is either a path below an input directory with its
    path from there, or an input path that is no directory with its base
    name. *)
Theorem iter_artifacts_yields (fs : node) (artifact_paths : list path) :
  (∀ input_path rel data,
     input_path ∈ artifact_paths → is_dir fs input_path = true →
     resolve fs (input_path ++ rel) = Ok (File data) →
     (input_path ++ rel, rel) ∈ iter_artifacts fs artifact_paths)
  ∧ (∀ cur rel,
       (cur, rel) ∈ iter_artifacts fs artifact_paths →
       rel ≠ []
       ∧ ∃ input_path, input_path ∈ artifact_paths
           ∧ ((is_dir fs input_path = true ∧ cur = input_path ++ rel)
              ∨ (is_dir fs input_path = false ∧ cur = input_path
                 ∧ rel = [name input_path]))).
Proof.
  split.
  - intros input_path rel data Hin Hdir Hfile. rewrite iter_artifacts_eq.
    apply list_elem_of_bind. exists input_path. split; [|done].
    unfold is_dir in Hdir. destruct (resolve fs input_path) as [[?|es0]|?] eqn:Hinput; try done.
    apply list_elem_of_fmap. exists rel. split; [done|].
    rewrite resolve_app, Hinput in Hfile. simpl in Hfile.
    apply (file_list_complete _ _ data); [|done]. by intros ->.
  - intros cur rel (Hrel & input_path & Hin & Hcase)%elem_of_iter_artifacts_inv.
    split; [done|]. exists input_path. split; [done|].
    destruct Hcase as [[? ?]|[? [= -> ->]]]; [by left|by right].
Qed.

(** X12.  An input path that is neither a directory nor a file that can
    be read makes the import fail while hashing: nothing is created. *)
Theorem import_unreadable_input {Value} (db : Db Value) (test_name : string)
    (artifact_paths : list path) (fs : node) (input_path : path) (e : OSError) :
  input_path ∈ artifact_paths →
  is_dir fs input_path = false →
  read fs input_path = Raise e →
  ∃ e', import_result db test_name artifact_paths fs = (fs, Raise e').
Proof.
  intros Hin Hdir Hread. rewrite import_result_unfold.
  destruct (short_hash fs artifact_paths) as [short|e'] eqn:Hshort; [|by exists e'].
  destruct (short_hash_readable fs artifact_paths short (input_path, [name input_path]) Hshort)
    as [data Hdata].
  - rewrite iter_artifacts_eq. apply list_elem_of_bind. exists input_path. split; [|done].
    unfold is_dir in Hdir. destruct (resolve fs input_path) as [[?|?]|?]; [left|done|left].
  - simpl in Hdata. congruence.
Qed.

(** X13.  [os.mkdir] does not create the database root: when the root
    does not resolve, the import raises the error of resolving it, and
    when the root is a file it raises the not-a-directory error; nothing
    is created. *)
Theorem import_without_root {Value} (db : Db Value) (test_name : string)
    (artifact_paths : list path) (fs : node) (short : string) :
  short_hash fs artifact_paths = Ok short →
  (∀ e, resolve fs (root_dir db) = Raise e →
     import_result db test_name artifact_paths fs = (fs, Raise e))
  ∧ (∀ data, resolve fs (root_dir db) = Ok (File data) →
       import_result db test_name artifact_paths fs = (fs, Raise NotADirectoryError)).
Proof.
  intros Hshort. split.
  - intros e Hroot. rewrite import_result_unfold, Hshort. unfold result_dir.
    by rewrite (mkdir_parent_error _ _ _ _ Hroot).
  - intros data Hroot. rewrite import_result_unfold, Hshort. unfold result_dir.
    by rewrite (mkdir_parent_file _ _ _ _ Hroot).
Qed.

Lemma import_result_inv {Value} (db : Db Value) (test_name : string)
    (artifact_paths : list path) (fs fs' : node) (o : result OSError nat) :
  import_result db test_name artifact_paths fs = (fs', o) →
  fs' = fs
  ∨ ∃ short,
      short_hash fs artifact_paths = Ok short
      ∧ resolve fs (result_dir db test_name short) = Raise FileNotFoundError
      ∧ (∃ es, resolve fs' (result_dir db test_name short) = Ok (Dir es))
      ∧ ∀ x, diverge (result_dir db test_name short) x = true → resolve fs' x = resolve fs x.
Proof.
  rewrite import_result_unfold.
  destruct (short_hash fs artifact_paths) as [short|e] eqn:Hshort; [|intros [= <- _]; by left].
  destruct (mkdir fs (result_dir db test_name short)) as [fs1|e] eqn:Hmk;
    [|intros [= <- _]; by left].
  intros Hloop. right. exists short. split; [done|].
  destruct (mkdir_new _ _ _ _ Hmk) as (_ & Hold & Hnew).
  destruct (copy_artifacts_below _ _ _ _ _ _ _ Hnew Hloop) as [Hdir Hframe].
  split; [done|]. split; [done|].
  intros x Hx. rewrite (Hframe x Hx). by eapply mkdir_frame.
Qed.

(** X14.  An import, passed or failed, changes nothing outside its
    result directory: every path that parts ways with the result
    directory resolves after the import as it did before. *)
Theorem import_changes_only_result_dir {Value} (db : Db Value) (test_name : string)
    (artifact_paths : list path) (fs fs' : node) (o : result OSError nat) :
  import_result db test_name artifact_paths fs = (fs', o) →
  fs' = fs
  ∨ ∃ short,
      short_hash fs artifact_paths = Ok short
      ∧ ∀ x, diverge (result_dir db test_name short) x = true → resolve fs' x = resolve fs x.
Proof.
  intros [->|(short & ? & _ & _ & ?)]%import_result_inv; [by left|].
  right. by exists short.
Qed.

(** X15.  An import that changed the file system, even one that failed
    while copying, leaves its result directory behind: the directory did
    not exist before and exists after, and every later import under the
    same test name of artifacts with the same short hash raises the
    file-exists error. *)
Theorem import_leaves_result_dir {Value} (db : Db Value) (test_name : string)
    (artifact_paths : list path) (fs fs' : node) (o : result OSError nat) :
  import_result db test_name artifact_paths fs = (fs', o) →
  fs' ≠ fs →
  ∃ short,
    short_hash fs artifact_paths = Ok short
    ∧ resolve fs (result_dir db test_name short) = Raise FileNotFoundError
    ∧ (∃ es, resolve fs' (result_dir db test_name short) = Ok (Dir es))
    ∧ ∀ paths', short_hash fs' paths' = Ok short →
        import_result db test_name paths' fs' = (fs', Raise FileExistsError).
Proof.
  intros [->|(short & ? & ? & [es' Hdir] & _)]%import_result_inv Hne; [done|].
  exists short. split; [done|]. split; [done|]. split; [by exists es'|].
  intros paths' Hs. by eapply import_result_exists.
Qed.

(** X16.  When no input path is the database root or a directory above
    it, the number that a passed import reports is the number of pairs
    that the generator yields on the file system before the import, and
    the generator yields the same pairs on the file system after the
    import: the walk of the copy loop does not meet the copies. *)
Theorem import_counts_artifacts {Value} (db : Db Value) (test_name : string)
    (artifact_paths : list path) (fs fs' : node) (n : nat) :
  import_result db test_name artifact_paths fs = (fs', Ok n) →
  (∀ input_path, input_path ∈ artifact_paths → ¬ input_path `prefix_of` root_dir db) →
  n = length (iter_artifacts fs artifact_paths)
  ∧ iter_artifacts fs' artifact_paths = iter_artifacts fs artifact_paths.
Proof.
  intros Himp Hout.
  destruct (import_result_ok _ _ _ _ _ _ Himp)
    as (short & fs1 & Hshort & Hmk & Hloop & Habsent & _ & _ & Hframe).
  split.
  - rewrite (iter_artifacts_stable _ _ _ _ _ Hshort Hmk) in Hloop.
    by apply copy_artifacts_count in Hloop as ->.
  - apply iter_artifacts_ext. intros input_path Hin. apply Hframe.
    destruct (short_hash_input _ _ _ _ Hshort Hin) as [x Hx].
    eapply input_diverges; [exact Hx|exact Habsent|by apply Hout].
Qed.

(** X17.  An import that finds no file (its inputs are directories
    without files) still creates its result directory, named by the hash
    of no input, and leaves it empty, without [artifacts/]. *)
Theorem import_no_files {Value} (db : Db Value) (test_name : string)
    (artifact_paths : list path) (fs : node) (es : list (string * node)) :
  iter_artifacts fs artifact_paths = [] →
  resolve fs (root_dir db) = Ok (Dir es) →
  resolve fs (result_dir db test_name (String.substring 0 12 (hexdigest [])))
  = Raise FileNotFoundError →
  ∃ fs',
    import_result db test_name artifact_paths fs = (fs', Ok 0)
    ∧ resolve fs' (result_dir db test_name (String.substring 0 12 (hexdigest [])))
      = Ok (Dir []).
Proof.
  intros Hnone Hroot Habsent.
  assert (short_hash fs artifact_paths = Ok (String.substring 0 12 (hexdigest []))) as Hshort
    by (unfold short_hash; by rewrite Hnone).
  assert (lookup_entry (test_name +:+ ":" +:+ String.substring 0 12 (hexdigest [])) es = None)
    as Hfree.
  { unfold result_dir in Habsent. rewrite resolve_app, Hroot in Habsent.
    simpl in Habsent. by destruct (lookup_entry _ es). }
  destruct (mkdir_intro _ _ _ _ Hroot Hfree) as [fs1 Hmk].
  destruct (mkdir_new _ _ _ _ Hmk) as (_ & _ & Hnew).
  exists fs1. rewrite import_result_unfold, Hshort. unfold result_dir. rewrite Hmk.
  change (root_dir db ++ [test_name +:+ ":" +:+ String.substring 0 12 (hexdigest [])])
    with (result_dir db test_name (String.substring 0 12 (hexdigest []))) in Hmk.
  by rewrite (iter_artifacts_stable _ _ _ _ _ Hshort Hmk), Hnone.
Qed.

End import_result.

(** *** The scenario of the specification

    A directory with the files [a.txt] and [sub/b.txt], imported under
    the test name [bench].  The digest function of the examples pads or
    cuts its input to 32 bytes; SHA-256 itself is not needed to run the
    program. *)

Definition pad32 (data : list byte) : list byte := take 32 (data ++ replicate 32 x00).

Lemma pad32_length (data : list byte) : length (pad32 data) = 32.
Proof.
  unfold pad32. rewrite length_take, length_app, length_replicate. lia.
Defined.

Definition bytes (s : string) : list byte := String.list_byte_of_string s.

Definition disk : node :=
  Dir [ ("in", Dir [ ("a.txt", File (bytes "alpha"));
                     ("sub", Dir [ ("b.txt", File (bytes "beta")) ]) ]);
        ("results", Dir []) ].

Definition bench_db : Db string := {| root_dir := ["results"]; results := [] |}.

Definition imported (test_name : string) : string * node :=
  (test_name +:+ ":616c70686100",
   Dir [ ("artifacts", Dir [ ("a.txt", File (bytes "alpha"));
                             ("sub", Dir [ ("b.txt", File (bytes "beta")) ]) ]) ]).

Definition disk_after (imports : list string) : node :=
  Dir [ ("in", Dir [ ("a.txt", File (bytes "alpha"));
                     ("sub", Dir [ ("b.txt", File (bytes "beta")) ]) ]);
        ("results", Dir (imported <$> imports)) ].

Example import_bench :
  import_result pad32 bench_db "bench" [["in"]] disk = (disk_after ["bench"], Ok 2).
Proof. vm_compute. reflexivity. Qed.

Example import_bench_again :
  import_result pad32 bench_db "bench" [["in"]] (disk_after ["bench"])
  = (disk_after ["bench"], Raise FileExistsError).
Proof. vm_compute. reflexivity. Qed.

Example import_other_name :
  import_result pad32 bench_db "nightly" [["in"]] (disk_after ["bench"])
  = (disk_after ["bench"; "nightly"], Ok 2).
Proof. vm_compute. reflexivity. Qed.

(** The same two contents under other names and another layout. *)
Definition disk' : node :=
  Dir [ ("first.bin", File (bytes "alpha"));
        ("elsewhere", Dir [ ("second.bin", File (bytes "beta")) ]);
        ("results", Dir []) ].

Lemma short_hash_contents_only_witness :
  Forall2 (λ (art : path * path) data, read disk art.1 = Ok data)
    (iter_artifacts disk [["in"]]) [bytes "alpha"; bytes "beta"]
  ∧ Forall2 (λ (art : path * path) data, read disk' art.1 = Ok data)
      (iter_artifacts disk' [["first.bin"]; ["elsewhere"]]) [bytes "alpha"; bytes "beta"]
  ∧ ∃ short,
      short_hash pad32 disk [["in"]] = Ok short
      ∧ short_hash pad32 disk' [["first.bin"]; ["elsewhere"]] = Ok short.
Proof.
  assert (Forall2 (λ (art : path * path) data, read disk art.1 = Ok data)
            (iter_artifacts disk [["in"]]) [bytes "alpha"; bytes "beta"]) as H1.
  { assert (iter_artifacts disk [["in"]]
            = [(["in"; "a.txt"], ["a.txt"]); (["in"; "sub"; "b.txt"], ["sub"; "b.txt"])])
      as -> by (vm_compute; reflexivity).
    repeat constructor. }
  assert (Forall2 (λ (art : path * path) data, read disk' art.1 = Ok data)
            (iter_artifacts disk' [["first.bin"]; ["elsewhere"]])
            [bytes "alpha"; bytes "beta"]) as H2.
  { assert (iter_artifacts disk' [["first.bin"]; ["elsewhere"]]
            = [(["first.bin"], ["first.bin"]);
               (["elsewhere"; "second.bin"], ["second.bin"])])
      as -> by (vm_compute; reflexivity).
    repeat constructor. }
  split; [exact H1|]. split; [exact H2|].
  destruct (short_hash_contents_only pad32 bench_db "bench" disk disk'
              [["in"]] [["first.bin"]; ["elsewhere"]] _ H1 H2)
    as (short & Hs1 & Hs2 & _).
  exists short. split; [exact Hs1|exact Hs2].
Defined.

Lemma result_dir_is_hash_witness :
  (∀ data, length (pad32 data) = 32)
  ∧ short_hash pad32 disk [["in"]] = Ok "616c70686100"
  ∧ ∃ contents,
      Forall2 (λ (art : path * path) data, read disk art.1 = Ok data)
        (iter_artifacts disk [["in"]]) contents
      ∧ "616c70686100"
        = String.substring 0 12 (hex (pad32 (concat (pad32 <$> contents)))).
Proof.
  split; [exact pad32_length|].
  assert (short_hash pad32 disk [["in"]] = Ok "616c70686100") as Hs
    by (vm_compute; reflexivity).
  split; [exact Hs|].
  destruct (result_dir_is_hash pad32 pad32_length bench_db "bench" [["in"]] disk)
    as [Hshort _].
  destruct (Hshort _ Hs) as (contents & Hall & Heq & _).
  exists contents. split; [exact Hall|exact Heq].
Defined.

(** *** The further properties on the scenario *)

(** Two files given directly, one of them inside a directory. *)
Lemma import_files_by_name_witness :
  Forall (λ input_path, is_dir disk' input_path = false)
    [["first.bin"]; ["elsewhere"; "second.bin"]]
  ∧ NoDup (name <$> [["first.bin"]; ["elsewhere"; "second.bin"]])
  ∧ short_hash pad32 disk' [["first.bin"]; ["elsewhere"; "second.bin"]] = Ok "616c70686100"
  ∧ resolve disk' (root_dir bench_db) = Ok (Dir [])
  ∧ resolve disk' (result_dir bench_db "bench" "616c70686100") = Raise FileNotFoundError
  ∧ ∃ fs',
      import_result pad32 bench_db "bench" [["first.bin"]; ["elsewhere"; "second.bin"]] disk'
      = (fs', Ok 2)
      ∧ read fs' (result_dir bench_db "bench" "616c70686100" ++ ["artifacts"; "second.bin"])
        = Ok (bytes "beta").
Proof.
  assert (Forall (λ input_path, is_dir disk' input_path = false)
            [["first.bin"]; ["elsewhere"; "second.bin"]]) as Hfiles
    by (repeat constructor).
  assert (NoDup (name <$> [["first.bin"]; ["elsewhere"; "second.bin"]])) as Hnames
    by (apply (bool_decide_unpack _); vm_compute; exact I).
  assert (short_hash pad32 disk' [["first.bin"]; ["elsewhere"; "second.bin"]]
          = Ok "616c70686100") as Hshort by (vm_compute; reflexivity).
  assert (resolve disk' (root_dir bench_db) = Ok (Dir [])) as Hroot by reflexivity.
  assert (resolve disk' (result_dir bench_db "bench" "616c70686100")
          = Raise FileNotFoundError) as Habsent by (vm_compute; reflexivity).
  split; [exact Hfiles|]. split; [exact Hnames|]. split; [exact Hshort|].
  split; [exact Hroot|]. split; [exact Habsent|].
  destruct (import_files_by_name pad32 bench_db "bench"
              [["first.bin"]; ["elsewhere"; "second.bin"]] disk' "616c70686100" []
              Hfiles Hnames Hshort Hroot Habsent) as (fs' & Himp & Hfound & _).
  exists fs'. split; [exact Himp|].
  destruct (Hfound ["elsewhere"; "second.bin"]) as (data & Hread & Hcopy).
  { right. left. }
  vm_compute in Hread. injection Hread as <-. exact Hcopy.
Defined.

Lemma import_directory_mirrors_witness :
  is_dir disk ["in"] = true
  ∧ ¬ ["in"] `prefix_of` root_dir bench_db
  ∧ short_hash pad32 disk [["in"]] = Ok "616c70686100"
  ∧ resolve disk (root_dir bench_db) = Ok (Dir [])
  ∧ resolve disk (result_dir bench_db "bench" "616c70686100") = Raise FileNotFoundError
  ∧ ∃ fs' n,
      import_result pad32 bench_db "bench" [["in"]] disk = (fs', Ok n)
      ∧ resolve fs' (result_dir bench_db "bench" "616c70686100"
                       ++ ["artifacts"; "sub"; "b.txt"])
        = Ok (File (bytes "beta")).
Proof.
  assert (is_dir disk ["in"] = true) as Hdir by reflexivity.
  assert (¬ ["in"] `prefix_of` root_dir bench_db) as Hout
    by (intros [k Hk]; discriminate Hk).
  assert (short_hash pad32 disk [["in"]] = Ok "616c70686100") as Hshort
    by (vm_compute; reflexivity).
  assert (resolve disk (root_dir bench_db) = Ok (Dir [])) as Hroot by reflexivity.
  assert (resolve disk (result_dir bench_db "bench" "616c70686100")
          = Raise FileNotFoundError) as Habsent by (vm_compute; reflexivity).
  split; [exact Hdir|]. split; [exact Hout|]. split; [exact Hshort|]. split; [exact Hroot|].
  split; [exact Habsent|].
  destruct (import_directory_mirrors pad32 bench_db "bench" ["in"] disk "616c70686100" []
              Hdir Hout Hshort Hroot Habsent) as (fs' & n & Himp & Hmirror & _).
  exists fs', n. split; [exact Himp|].
  apply (Hmirror ["sub"; "b.txt"]). reflexivity.
Defined.

Lemma import_unreadable_input_witness :
  ["missing"] ∈ [["in"]; ["missing"]]
  ∧ is_dir disk ["missing"] = false
  ∧ read disk ["missing"] = Raise FileNotFoundError
  ∧ ∃ e', import_result pad32 bench_db "bench" [["in"]; ["missing"]] disk = (disk, Raise e').
Proof.
  assert (["missing"] ∈ [["in"]; ["missing"]]) as Hin by (right; left).
  assert (is_dir disk ["missing"] = false) as Hdir by reflexivity.
  assert (read disk ["missing"] = Raise FileNotFoundError) as Hread by reflexivity.
  split; [exact Hin|]. split; [exact Hdir|]. split; [exact Hread|].
  exact (import_unreadable_input pad32 bench_db "bench" [["in"]; ["missing"]] disk
           ["missing"] FileNotFoundError Hin Hdir Hread).
Defined.

(** A database whose root has not been created. *)
Definition fresh_db : Db string := {| root_dir := ["results"; "new"]; results := [] |}.

Lemma import_without_root_witness :
  short_hash pad32 disk [["in"]] = Ok "616c70686100"
  ∧ import_result pad32 fresh_db "bench" [["in"]] disk = (disk, Raise FileNotFoundError).
Proof.
  assert (short_hash pad32 disk [["in"]] = Ok "616c70686100") as Hshort
    by (vm_compute; reflexivity).
  split; [exact Hshort|].
  apply (import_without_root pad32 fresh_db "bench" [["in"]] disk "616c70686100" Hshort).
  reflexivity.
Defined.

Lemma import_changes_only_result_dir_witness :
  import_result pad32 bench_db "bench" [["in"]] disk = (disk_after ["bench"], Ok 2)
  ∧ (disk_after ["bench"] = disk
     ∨ ∃ short,
         short_hash pad32 disk [["in"]] = Ok short
         ∧ ∀ x, diverge (result_dir bench_db "bench" short) x = true →
             resolve (disk_after ["bench"]) x = resolve disk x).
Proof.
  assert (import_result pad32 bench_db "bench" [["in"]] disk = (disk_after ["bench"], Ok 2))
    as Himp by (vm_compute; reflexivity).
  split; [exact Himp|].
  exact (import_changes_only_result_dir pad32 bench_db "bench" [["in"]] disk
           (disk_after ["bench"]) (Ok 2) Himp).
Defined.

Lemma import_leaves_result_dir_witness :
  import_result pad32 bench_db "bench" [["in"]] disk = (disk_after ["bench"], Ok 2)
  ∧ disk_after ["bench"] ≠ disk
  ∧ ∃ short,
      short_hash pad32 disk [["in"]] = Ok short
      ∧ ∀ paths', short_hash pad32 (disk_after ["bench"]) paths' = Ok short →
          import_result pad32 bench_db "bench" paths' (disk_after ["bench"])
          = (disk_after ["bench"], Raise FileExistsError).
Proof.
  assert (import_result pad32 bench_db "bench" [["in"]] disk = (disk_after ["bench"], Ok 2))
    as Himp by (vm_compute; reflexivity).
  assert (disk_after ["bench"] ≠ disk) as Hne by (vm_compute; discriminate).
  split; [exact Himp|]. split; [exact Hne|].
  destruct (import_leaves_result_dir pad32 bench_db "bench" [["in"]] disk
              (disk_after ["bench"]) (Ok 2) Himp Hne) as (short & Hshort & _ & _ & Hagain).
  exists short. split; [exact Hshort|exact Hagain].
Defined.

Lemma import_counts_artifacts_witness :
  import_result pad32 bench_db "bench" [["in"]] disk = (disk_after ["bench"], Ok 2)
  ∧ (∀ input_path, input_path ∈ [["in"]] → ¬ input_path `prefix_of` root_dir bench_db)
  ∧ 2 = length (iter_artifacts disk [["in"]])
  ∧ iter_artifacts (disk_after ["bench"]) [["in"]] = iter_artifacts disk [["in"]].
Proof.
  assert (import_result pad32 bench_db "bench" [["in"]] disk = (disk_after ["bench"], Ok 2))
    as Himp by (vm_compute; reflexivity).
  assert (∀ input_path, input_path ∈ [["in"]] → ¬ input_path `prefix_of` root_dir bench_db)
    as Hout by (intros input_path ->%list_elem_of_singleton [k Hk]; discriminate Hk).
  split; [exact Himp|]. split; [exact Hout|].
  exact (import_counts_artifacts pad32 bench_db "bench" [["in"]] disk
           (disk_after ["bench"]) 2 Himp Hout).
Defined.

(** A directory tree without files. *)
Definition bare : node :=
  Dir [ ("in", Dir [ ("sub", Dir []) ]); ("results", Dir []) ].

Lemma import_no_files_witness :
  iter_artifacts bare [["in"]] = []
  ∧ resolve bare (root_dir bench_db) = Ok (Dir [])
  ∧ resolve bare (result_dir bench_db "bench" (String.substring 0 12 (hexdigest pad32 [])))
    = Raise FileNotFoundError
  ∧ ∃ fs',
      import_result pad32 bench_db "bench" [["in"]] bare = (fs', Ok 0)
      ∧ resolve fs' ["results"; "bench:000000000000"] = Ok (Dir []).
Proof.
  assert (iter_artifacts bare [["in"]] = []) as Hnone by (vm_compute; reflexivity).
  assert (resolve bare (root_dir bench_db) = Ok (Dir [])) as Hroot by reflexivity.
  assert (resolve bare
            (result_dir bench_db "bench" (String.substring 0 12 (hexdigest pad32 [])))
          = Raise FileNotFoundError) as Habsent by (vm_compute; reflexivity).
  split; [exact Hnone|]. split; [exact Hroot|]. split; [exact Habsent|].
  exact (import_no_files pad32 bench_db "bench" [["in"]] bare [] Hnone Hroot Habsent).
Defined.

End Importer.
